(** * The [file_system] inventory plugin: a shallow embedding

    This development embeds the inventory-generation engine of
    [plugins/inventory/file_system.py] (class [InventoryGenerator]) and
    proves properties of it.

    - A character is a code point below 256 (an [ascii]); the decimal
      digits among them are [0] to [9].
    - YAML documents are the inductive type [value]; a Python [dict] is an
      insertion-ordered association list.  A [value] is a document in
      which every mapping is an object of its own (no YAML alias).
      Scalars are [None], booleans, integers and strings; mapping keys are
      strings, integers or [None].  The text that [str] gives for a list
      or a mapping is left to a function [container_str], which the
      builder takes as an argument.
    - Paths are texts; [as_posix], [joinpath] and [parent] write a path as
      [pathlib] does.
    - Raised exceptions are explicit: fallible code returns a [result].
    - [merge] updates its first argument in place.  Module [Obj] embeds it
      over a store of dict objects, with references between them; the
      recursion depth is the interpreter's recursion limit.  The top-level
      [merge] is the same loop on values, and [Obj.merge] is proved to
      compute it on separately loaded arguments.
    - The merge of a fact list is likewise embedded twice: [merge_facts]
      on values, and [Obj.declared_facts] on the objects of the loaded
      document, with their shallow copies; they agree when the entries
      share no mapping.
    - The file system is a function from paths to what reading and parsing
      a file yields; directory listings are given as lists. *)

From Stdlib Require Import ZArith Ascii String Bool Lia DecimalString DecimalPos.
From stdpp Require Import base list.

Local Open Scope string_scope.
Local Open Scope list_scope.

(** ** Python values *)

(** Exceptions the embedded code can raise. *)
Inductive exn :=
| TypeError | KeyError | AttributeError | ValueError | IndexError
| OSError | YAMLError | RuntimeError | RecursionError | SystemError
| UnboundLocalError.

Inductive result (A : Type) :=
| Ok (x : A)
| Raise (e : exn).
Arguments Ok {A} x.
Arguments Raise {A} e.

Definition bind {A B} (m : result A) (f : A → result B) : result B :=
  match m with
  | Ok x => f x
  | Raise e => Raise e
  end.

Notation "'let*' p ':=' m 'in' k" := (bind m (fun p => k))
  (at level 10, p pattern, m at level 100, k at level 200, only parsing).

(** Mapping keys: strings, integers and [None].  A Boolean key is the
    integer it equals ([True == 1], with the same hash). *)
Inductive key :=
| KStr (s : string)
| KInt (z : Z)
| KNone.

Definition key_eqb (k1 k2 : key) : bool :=
  match k1, k2 with
  | KStr s1, KStr s2 => String.eqb s1 s2
  | KInt z1, KInt z2 => Z.eqb z1 z2
  | KNone, KNone => true
  | _, _ => false
  end.

Coercion KStr : string >-> key.

#[global] Instance string_eq_dec : EqDecision string := String.string_dec.
#[global] Instance key_eq_dec : EqDecision key.
Proof. solve_decision. Defined.

(** A loaded YAML document.  [VDict] keeps the insertion order of a
    Python [dict]. *)
#[warnings="-register-all"]
Inductive value :=
| VNone
| VBool (b : bool)
| VInt (z : Z)
| VStr (s : string)
| VList (l : list value)
| VDict (d : list (key * value)).

Abbreviation dict := (list (key * value)).

(** Induction on documents, with the entries of a mapping. *)
Definition value_ind' (P : value → Prop)
    (HNone : P VNone) (HBool : ∀ b, P (VBool b)) (HInt : ∀ z, P (VInt z))
    (HStr : ∀ s, P (VStr s)) (HList : ∀ l, P (VList l))
    (HDict : ∀ d, Forall (λ kv, P kv.2) d → P (VDict d))
  : ∀ v, P v :=
  fix IH (v : value) : P v :=
    match v with
    | VNone => HNone
    | VBool b => HBool b
    | VInt z => HInt z
    | VStr s => HStr s
    | VList l => HList l
    | VDict d =>
        HDict d
          ((fix go (d : list (key * value)) : Forall (λ kv, P kv.2) d :=
              match d with
              | [] => List.Forall_nil _
              | (k, x) :: d' => List.Forall_cons _ (k, x) d' (IH x) (go d')
              end) d)
    end.

Definition is_dict (v : value) : bool :=
  match v with VDict _ => true | _ => false end.

(** Truth value of an object, as [if x:] and [all([...])] test it. *)
Definition truthy (v : value) : bool :=
  match v with
  | VNone => false
  | VBool b => b
  | VInt z => negb (Z.eqb z 0)
  | VStr s => negb (String.eqb s "")
  | VList l => match l with [] => false | _ => true end
  | VDict d => match d with [] => false | _ => true end
  end.

(** [v == s] for a string literal [s] *)
Definition is_str (v : value) (s : string) : bool :=
  match v with
  | VStr s' => String.eqb s' s
  | _ => false
  end.

Definition nonempty {A} (l : list A) : bool :=
  match l with [] => false | _ => true end.

Section Entries.
Context {V : Type}.

(** [d.get(k)] / [k in d] / [d[k]] on the entries of a dict. *)
Fixpoint lookup (k : key) (d : list (key * V)) : option V :=
  match d with
  | [] => None
  | (k', v) :: d' => if key_eqb k k' then Some v else lookup k d'
  end.

(** [d[k] = v]: an existing key keeps its position, a new key goes last. *)
Fixpoint set_item (k : key) (v : V) (d : list (key * V)) : list (key * V) :=
  match d with
  | [] => [(k, v)]
  | (k', v') :: d' =>
      if key_eqb k k' then (k', v) :: d' else (k', v') :: set_item k v d'
  end.

Definition keys (d : list (key * V)) : list key := map fst d.
End Entries.

(** Nesting depth of mappings inside mappings (lists are not entered). *)
Fixpoint depth (v : value) : nat :=
  match v with
  | VDict d =>
      S ((fix go (d : list (key * value)) : nat :=
            match d with
            | [] => 0
            | (_, x) :: d' => Nat.max (depth x) (go d')
            end) d)
  | _ => 0
  end.

Fixpoint nodup_keys (ks : list key) : bool :=
  match ks with
  | [] => true
  | k :: ks' => negb (existsb (key_eqb k) ks') && nodup_keys ks'
  end.

(** Every mapping reachable through mappings has pairwise distinct keys,
    as every Python [dict] has. *)
Fixpoint wf_value (v : value) : bool :=
  match v with
  | VDict d =>
      nodup_keys (map fst d) &&
      (fix go (d : list (key * value)) : bool :=
         match d with
         | [] => true
         | (_, x) :: d' => wf_value x && go d'
         end) d
  | _ => true
  end.

(** ** [InventoryGenerator.merge] on values *)

(** One turn of [for key in b:], [a] being the current state of the first
    argument and [bv] standing for [b[key]].  [rec a' bv] is the state in
    which [self.merge(a[key], b[key], ...)] leaves the object [a[key]]. *)
Definition merge_key (rec : dict → value → dict)
    (a : dict) (k : key) (bv : value) : dict :=
  match lookup k a with
  | Some av =>
      match av, bv with
      | VDict a', VDict _ => set_item k (VDict (rec a' bv)) a
      | _, _ => a          (* same leaf value, or a conflict: both [pass] *)
      end
  | None => a ++ [(k, bv)] (* a[key] = b[key] *)
  end.

(** The state of [a] when [merge(a, b)] returns, for [vb = VDict b]. *)
Fixpoint merge_rec (a : dict) (vb : value) {struct vb} : dict :=
  match vb with
  | VDict b =>
      if negb (nonempty a && nonempty b) then a
      else
        (fix loop (bs : list (key * value)) (a : dict) {struct bs} : dict :=
           match bs with
           | [] => a
           | (k, bv) :: bs' => loop bs' (merge_key merge_rec a k bv)
           end) b a
  | _ => a
  end.

(** [merge(a, b)] returns [dict(a)], whose entries are those of [a]. *)
Definition merge (a b : dict) : dict := merge_rec a (VDict b).

(** ** [InventoryGenerator.merge] on objects *)

(** Inside the modules [Obj] and [ObjFacts], [merge] is [Obj.merge] and
    [value_merge] is [merge] on values. *)
Local Abbreviation value_merge := merge.

Module Obj.

(** A dict is an object in the store; a value of a dict entry is a
    reference to a dict, or anything else ([merge] never looks inside
    what is not a dict). *)
Abbreviation loc := nat.

Inductive hval :=
| HLeaf (v : value)
| HRef (l : loc).

Abbreviation hdict := (list (key * hval)).
Abbreviation store := (list hdict).

(** [dict(d)]: a new object with the entries of [d]. *)
Definition alloc (d : hdict) (σ : store) : store * loc :=
  (σ ++ [d], length σ).

(** The object at [l]; a reference always has one. *)
Definition deref (σ : store) (l : loc) : result hdict :=
  match σ !! l with
  | Some d => Ok d
  | None => Raise SystemError
  end.

(** [d[k]] *)
Definition item (d : hdict) (k : key) : result hval :=
  match lookup k d with
  | Some v => Ok v
  | None => Raise KeyError
  end.

(** [for key in b:] over the keys [ks] still to visit.  The iterator
    raises when the size of [b] changed since the loop started.  Every
    branch of the body reads [b[key]]; the comparison [a[key] == b[key]]
    has no effect. *)
Fixpoint merge_loop (rec : loc → loc → store → result (store * loc))
    (a b : loc) (size : nat) (ks : list key) (σ : store) : result store :=
  let* db := deref σ b in
  if negb (Nat.eqb (length db) size) then Raise RuntimeError
  else
    match ks with
    | [] => Ok σ
    | k :: ks' =>
        let* da := deref σ a in
        let* bv := item db k in
        let* σ' :=
          match lookup k da with
          | Some av =>
              match av, bv with
              | HRef a', HRef b' =>
                  let* (σ', _) := rec a' b' σ in Ok σ'   (* the result is dropped *)
              | _, _ => Ok σ
              end
          | None => Ok (<[a := da ++ [(k, bv)]]> σ)      (* a[key] = b[key] *)
          end in
        merge_loop rec a b size ks' σ'
    end.

(** [self.merge(a, b)]; [fuel] is the number of nested calls the
    interpreter still allows. *)
Fixpoint merge (fuel : nat) (a b : loc) (σ : store)
  : result (store * loc) :=
  match fuel with
  | 0 => Raise RecursionError
  | S fuel' =>
      let* da := deref σ a in
      let* db := deref σ b in
      if negb (nonempty da && nonempty db) then Ok (alloc da σ)
      else
        let* σ' := merge_loop (merge fuel') a b (length db) (keys db) σ in
        let* da' := deref σ' a in
        Ok (alloc da' σ')
  end.

(** Building the objects of a document: one store object per mapping
    reachable through mappings, children first.  [load_entries] is the
    loop over the entries of a mapping. *)
Definition load_entries (load : value → store → store * hval)
  : dict → store → store * hdict :=
  fix go (d : list (key * value)) (σ : store) : store * hdict :=
    match d with
    | [] => (σ, [])
    | (k, x) :: d' =>
        let '(σ1, h) := load x σ in
        let '(σ2, hd) := go d' σ1 in
        (σ2, (k, h) :: hd)
    end.

Fixpoint load (v : value) (σ : store) : store * hval :=
  match v with
  | VDict d =>
      let '(σ', hd) := load_entries load d σ in
      (σ' ++ [hd], HRef (length σ'))
  | _ => (σ, HLeaf v)
  end.

(** The mappings [ds] built one after the other, as the loader builds
    the mappings of a document without alias: no two share an object. *)
Fixpoint load_all (ds : list dict) (σ : store) : store * list loc :=
  match ds with
  | [] => (σ, [])
  | d :: ds' =>
      let '(σ1, hd) := load_entries load d σ in
      let '(σ2, ls) := load_all ds' (σ1 ++ [hd]) in
      (σ2, length σ1 :: ls)
  end.

(** [dict(x)] for the dict [x] at [l]: a new object with its entries,
    which are the same objects. *)
Definition copy (l : loc) (σ : store) : result (store * loc) :=
  let* d := deref σ l in Ok (alloc d σ).

(** The comprehension of [generate_host_data] over a fact list,
    [set_facts] being the dicts that [f.get('set_fact', {})] gives, entry
    after entry: each is copied for the test and, when the copy is not
    empty, copied again for the list. *)
Fixpoint fact_copies (set_facts : list loc) (σ : store)
  : result (store * list loc) :=
  match set_facts with
  | [] => Ok (σ, [])
  | set_fact :: rest =>
      let* (σ1, c) := copy set_fact σ in
      let* dc := deref σ1 c in
      let* (σ2, here) :=
        if nonempty dc
        then let* (σ2, fact_vars) := copy set_fact σ1 in Ok (σ2, [fact_vars])
        else Ok (σ1, []) in
      let* (σ3, more) := fact_copies rest σ2 in
      Ok (σ3, here ++ more)
  end.

(** [for fact_vars in definition_file_facts:
       definition_file_vars = self.merge(fact_vars, definition_file_vars)] *)
Fixpoint merge_facts (fuel : nat) (definition_file_facts : list loc)
    (definition_file_vars : loc) (σ : store) : result (store * loc) :=
  match definition_file_facts with
  | [] => Ok (σ, definition_file_vars)
  | fact_vars :: rest =>
      let* (σ', definition_file_vars') :=
        merge fuel fact_vars definition_file_vars σ in
      merge_facts fuel rest definition_file_vars' σ'
  end.

(** The declared variables of a fact list, on objects:
    [definition_file_vars = {}], the comprehension and the loop. *)
Definition declared_facts (fuel : nat) (set_facts : list loc) (σ : store)
  : result (store * loc) :=
  let '(σ0, definition_file_vars) := alloc [] σ in
  let* (σ1, definition_file_facts) := fact_copies set_facts σ0 in
  merge_facts fuel definition_file_facts definition_file_vars σ1.

(** Reading a document back, [n] levels deep. *)
Definition read_entries (read : hval → option value)
  : hdict → option dict :=
  fix go (hd : hdict) : option dict :=
    match hd with
    | [] => Some []
    | (k, h) :: hd' =>
        match read h, go hd' with
        | Some v, Some d => Some ((k, v) :: d)
        | _, _ => None
        end
    end.

Fixpoint read (n : nat) (σ : store) (h : hval) : option value :=
  match h with
  | HLeaf v => Some v
  | HRef l =>
      match n with
      | 0 => None
      | S n' =>
          match σ !! l with
          | None => None
          | Some hd => VDict <$> read_entries (read n' σ) hd
          end
      end
  end.

(** [rep σ F h v]: in the store [σ] the value [h] stands for the
    document [v], and the objects it is made of are among [F]. *)
Inductive rep (σ : store) (F : loc → Prop) : hval → value → Prop :=
| rep_leaf v : is_dict v = false → rep σ F (HLeaf v) v
| rep_ref l hd d :
    F l → σ !! l = Some hd → rep_entries σ F hd d →
    rep σ F (HRef l) (VDict d)
with rep_entries (σ : store) (F : loc → Prop) : hdict → dict → Prop :=
| rep_nil : rep_entries σ F [] []
| rep_cons k h v hd d :
    rep σ F h v → rep_entries σ F hd d →
    rep_entries σ F ((k, h) :: hd) ((k, v) :: d).

(** [own σ h v fp]: moreover no object is reached twice; [fp] lists the
    objects. *)
Inductive own (σ : store) : hval → value → list loc → Prop :=
| own_leaf v : is_dict v = false → own σ (HLeaf v) v []
| own_ref l hd d fp :
    σ !! l = Some hd → own_entries σ hd d fp → l ∉ fp →
    own σ (HRef l) (VDict d) (l :: fp)
with own_entries (σ : store) : hdict → dict → list loc → Prop :=
| own_nil : own_entries σ [] [] []
| own_cons k h v hd d fp1 fp2 :
    own σ h v fp1 → own_entries σ hd d fp2 →
    (∀ l, l ∈ fp1 → l ∉ fp2) →
    own_entries σ ((k, h) :: hd) ((k, v) :: d) (fp1 ++ fp2).

Scheme rep_mut := Minimality for rep Sort Prop
  with rep_entries_mut := Minimality for rep_entries Sort Prop.
Scheme own_mut := Minimality for own Sort Prop
  with own_entries_mut := Minimality for own_entries Sort Prop.

(** The objects of [σ] that satisfy [P] are the same in [σ']. *)
Definition preserves (P : loc → Prop) (σ σ' : store) : Prop :=
  ∀ l hd, P l → σ !! l = Some hd → σ' !! l = Some hd.

(** The entries of the first argument while the loop of [merge] runs:
    each is still owned, or was visited (its key is not among [rem],
    the keys to come) and stands for its document with the help of the
    objects [Fb] of the second argument. *)
Inductive mix (σ : store) (Fb : loc → Prop) (rem : list key)
  : hdict → dict → list loc → Prop :=
| mix_nil : mix σ Fb rem [] [] []
| mix_own k h v hd d fp1 fp2 :
    own σ h v fp1 → mix σ Fb rem hd d fp2 →
    (∀ l, l ∈ fp1 → l ∉ fp2) →
    mix σ Fb rem ((k, h) :: hd) ((k, v) :: d) (fp1 ++ fp2)
| mix_done k h v hd d fp1 fp2 :
    k ∉ rem → rep σ (λ l, l ∈ fp1 ∨ Fb l) h v → mix σ Fb rem hd d fp2 →
    (∀ l, l ∈ fp1 → l ∉ fp2) →
    mix σ Fb rem ((k, h) :: hd) ((k, v) :: d) (fp1 ++ fp2).

(** The dicts at [ls] stand for the documents [ds], each owns its
    objects, no two share one, and none is among [F]. *)
Inductive owned_list (σ : store) (F : loc → Prop)
  : list loc → list dict → Prop :=
| owned_nil : owned_list σ F [] []
| owned_cons l d fp ls ds :
    own σ (HRef l) (VDict d) fp → (∀ x, x ∈ fp → ¬ F x) →
    owned_list σ (λ x, x ∈ fp ∨ F x) ls ds →
    owned_list σ F (l :: ls) (d :: ds).

(** What a call of [merge] establishes. *)
Definition merge_post (fuel : nat) (σ : store) (a b : loc) (ta tb : dict)
    (fa : list loc) (Fb : loc → Prop) : Prop :=
  ∃ σ' hda',
    merge fuel a b σ = Ok (σ' ++ [hda'], length σ') ∧
    σ' !! a = Some hda' ∧
    length σ ≤ length σ' ∧
    preserves (λ l, l ∉ fa) σ σ' ∧
    rep σ' (λ l, l ∈ fa ∨ Fb l) (HRef a) (VDict (value_merge ta tb)).

Definition load_post (v : value) (σ : store) : Prop :=
  ∃ fp ext,
    (load v σ).1 = σ ++ ext ∧
    own (load v σ).1 (load v σ).2 v fp ∧
    (∀ l, l ∈ fp → length σ ≤ l < length (load v σ).1).

End Obj.


(** ** Strings *)

Definition LF : ascii := ascii_of_nat 10.

Definition is_digit (c : ascii) : bool :=
  (48 <=? nat_of_ascii c)%nat && (nat_of_ascii c <=? 57)%nat.

(** White space that [int()] strips: the characters 9 to 13 and the
    space, and the two white-space characters above 127, the next line
    (133) and the no-break space (160).  The separators 28 to 31 are not
    stripped. *)
Definition is_space (c : ascii) : bool :=
  let n := nat_of_ascii c in
  ((9 <=? n)%nat && (n <=? 13)%nat) || Nat.eqb n 32 || Nat.eqb n 133
  || Nat.eqb n 160.

Definition digit_val (c : ascii) : Z := Z.of_nat (nat_of_ascii c) - 48.

(** [s.split(sep)] for a one-character separator. *)
Fixpoint split (sep : ascii) (s : string) : list string :=
  match s with
  | EmptyString => [EmptyString]
  | String c s' =>
      if Ascii.eqb c sep then EmptyString :: split sep s'
      else
        match split sep s' with
        | [] => [String c EmptyString]
        | w :: ws => String c w :: ws
        end
  end.

(** [sep.join(l)] *)
Fixpoint join (sep : string) (l : list string) : string :=
  match l with
  | [] => ""
  | [x] => x
  | x :: l' => x ++ sep ++ join sep l'
  end.

(** [s.translate(str.maketrans('', '', cs))]: drop the characters of [cs]. *)
Fixpoint delete_chars (cs : list ascii) (s : string) : string :=
  match s with
  | EmptyString => EmptyString
  | String c s' =>
      if existsb (Ascii.eqb c) cs then delete_chars cs s'
      else String c (delete_chars cs s')
  end.

Fixpoint lstrip (s : string) : string :=
  match s with
  | String c s' => if is_space c then lstrip s' else s
  | EmptyString => EmptyString
  end.

Fixpoint rstrip (s : string) : string :=
  match s with
  | EmptyString => EmptyString
  | String c s' =>
      match rstrip s' with
      | EmptyString => if is_space c then EmptyString else String c EmptyString
      | r => String c r
      end
  end.

(** Decimal digits with single underscores between them; [sep] tells that
    a digit must come next. *)
Fixpoint digits_value (acc : Z) (sep : bool) (s : string) : option Z :=
  match s with
  | EmptyString => if sep then None else Some acc
  | String c s' =>
      if is_digit c then digits_value (10 * acc + digit_val c) false s'
      else if Ascii.eqb c "_" && negb sep then digits_value acc true s'
      else None
  end.

(** [int(s)] in base ten. *)
Definition int_of_string (s : string) : result Z :=
  let body := rstrip (lstrip s) in
  let parsed :=
    match body with
    | String c r =>
        if Ascii.eqb c "-" then Z.opp <$> digits_value 0 true r
        else if Ascii.eqb c "+" then digits_value 0 true r
        else digits_value 0 true body
    | EmptyString => None
    end in
  match parsed with
  | Some z => Ok z
  | None => Raise ValueError
  end.

(** [str(z)] *)
Definition string_of_Z (z : Z) : string :=
  NilZero.string_of_int (Z.to_int z).

(** ["%02d" % z] *)
Definition format_02d (z : Z) : string :=
  let s := string_of_Z z in
  if (String.length s <? 2)%nat then "0" ++ s else s.

(** [range(lo, hi)] *)
Definition range (lo hi : Z) : list Z :=
  map (fun i => lo + Z.of_nat i)%Z (seq 0 (Z.to_nat (hi - lo))).

Fixpoint rfind (c : ascii) (s : string) : option nat :=
  match s with
  | EmptyString => None
  | String c' s' =>
      match rfind c s' with
      | Some i => Some (S i)
      | None => if Ascii.eqb c' c then Some 0%nat else None
      end
  end.

Definition ends_with (suffix s : string) : bool :=
  let n := String.length s in
  let m := String.length suffix in
  (m <=? n)%nat && String.eqb (substring (n - m) m s) suffix.

(** ** Paths, as [pathlib] renders normalised POSIX paths *)

(** [Path(p).parent.as_posix()] *)
Definition path_parent (p : string) : string :=
  match rfind "/" p with
  | None => "."
  | Some 0%nat => "/"
  | Some i => substring 0 i p
  end.

(** [Path(p).name] *)
Definition path_name (p : string) : string :=
  match rfind "/" p with
  | None => if String.eqb p "." then "" else p
  | Some i => substring (S i) (String.length p - S i) p
  end.

(** [Path(p).stem], for a file name [p] *)
Definition path_stem (name : string) : string :=
  match rfind "." name with
  | Some i =>
      if (0 <? i)%nat && (i <? String.length name - 1)%nat
      then substring 0 i name else name
  | None => name
  end.

(** [Path.joinpath(dir, name).as_posix()] *)
Definition path_join (dir name : string) : string := dir ++ "/" ++ name.

(** The root of a path as [pathlib] parses it: exactly two leading
    slashes are kept, any other number is one. *)
Definition posix_root (p : string) : string :=
  match p with
  | String "/" (String "/" (String "/" _)) => "/"
  | String "/" (String "/" _) => "//"
  | String "/" _ => "/"
  | _ => ""
  end.

(** The components of a path: empty ones and [.] are dropped. *)
Definition posix_parts (p : string) : list string :=
  List.filter (fun x => negb (String.eqb x "") && negb (String.eqb x "."))
    (split "/" p).

(** The text of a path made of a root and components. *)
Definition posix_text (root : string) (parts : list string) : string :=
  let s := (root ++ join "/" parts)%string in
  if String.eqb s "" then "." else s.

(** [Path(p).as_posix()], for any text [p] *)
Definition as_posix (p : string) : string :=
  posix_text (posix_root p) (posix_parts p).

(** [Path.joinpath(Path(p), name).as_posix()], for a component [name] *)
Definition joinpath (p name : string) : string :=
  posix_text (posix_root p) (posix_parts p ++ [name]).

(** [Path(p).parent.as_posix()], for any text [p] *)
Definition parent (p : string) : string :=
  posix_text (posix_root p) (removelast (posix_parts p)).

(** ** Regular expressions

    The fragment of [re] the plugin's patterns use, matched as [re] does:
    leftmost alternatives first, greedy repetition, backtracking.  The
    continuation [k] is the rest of the pattern. *)

Inductive cls :=
| CAny            (* [.]: any character but a line feed *)
| CDigit          (* [[\d]] *)
| CChar (c : ascii).

Definition cls_ok (cl : cls) (c : ascii) : bool :=
  match cl with
  | CAny => negb (Ascii.eqb c LF)
  | CDigit => is_digit c
  | CChar c' => Ascii.eqb c c'
  end.

Inductive re :=
| RCls (cl : cls)
| RStar (cl : cls)           (* [cl*] *)
| RPlus (cl : cls)           (* [cl+] *)
| RSeq (r1 r2 : re)
| RGroup (i : nat) (r : re). (* the capturing group number [S i] *)

Definition captures := list (option string).

Section Matching.
Context {R : Type}.

(** Greedy [cl*]: the longest run first, then shorter ones. *)
Fixpoint star (cl : cls) (s : string) (k : string → option R) : option R :=
  match s with
  | String c s' =>
      if cls_ok cl c then
        match star cl s' k with
        | Some r => Some r
        | None => k s
        end
      else k s
  | EmptyString => k s
  end.

Fixpoint rmatch (r : re) (s : string) (caps : captures)
    (k : string → captures → option R) : option R :=
  match r with
  | RCls cl =>
      match s with
      | String c s' => if cls_ok cl c then k s' caps else None
      | EmptyString => None
      end
  | RStar cl => star cl s (fun s' => k s' caps)
  | RPlus cl =>
      match s with
      | String c s' =>
          if cls_ok cl c then star cl s' (fun s'' => k s'' caps) else None
      | EmptyString => None
      end
  | RSeq r1 r2 => rmatch r1 s caps (fun s' caps' => rmatch r2 s' caps' k)
  | RGroup i r1 =>
      rmatch r1 s caps (fun s' caps' =>
        k s' (<[i := Some (substring 0 (String.length s - String.length s') s)]>
                caps'))
  end.
End Matching.

(** [pattern.match(s)], for a pattern with [n] groups: the groups of the
    match, [None] when the pattern does not match at the start of [s]. *)
Definition re_match (n : nat) (r : re) (s : string) : option captures :=
  rmatch r s (replicate n None) (fun _ caps => Some caps).

(** [self.synthetic_hostname_pattern]: group 1 is any run of characters;
    group 2 is an opening bracket, one or more digits, any run of
    characters and a closing bracket; any run of characters follows. *)
Definition synthetic_hostname_pattern : re :=
  RSeq (RGroup 0 (RStar CAny))
    (RSeq (RGroup 1
             (RSeq (RCls (CChar "["))
                (RSeq (RPlus CDigit)
                   (RSeq (RStar CAny) (RCls (CChar "]"))))))
       (RStar CAny)).

(** ** The Site Walker *)

(** A generator: what it yields, and the exception that ends it if one
    is raised. *)
Definition stream (A : Type) : Type := list A * option exn.

(** [(definition_file_path, hostname, hostname_short)]; the mock pair of
    [generate_inventory] has no third component. *)
Definition identity : Type := string * string * option string.

(** A group that took part in the match and is not empty. *)
Definition group_truthy (g : option (option string)) : option string :=
  match g with
  | Some (Some s) => if String.eqb s "" then None else Some s
  | _ => None
  end.

(** [InventoryGenerator.expand_host], on [expmatch.groups()]. *)
Definition expand_host (groups : captures) : result (list string) :=
  let* range_group :=
    match group_truthy (last groups) with
    | Some g => Ok g
    | None =>
        match group_truthy (groups !! 1%nat) with
        | Some g => Ok g
        | None => Raise UnboundLocalError
        end
    end in
  let range_string := delete_chars ["["; "]"]%char range_group in
  let hostnums := split "-" range_string in
  let hoststring :=
    match groups !! 0%nat with
    | Some (Some g) => g
    | _ => "None"
    end in
  let* start := int_of_string (hd "" hostnums) in
  let* end_ :=
    if (1 <? length hostnums)%nat
    then let* e := int_of_string (nth 1 hostnums "") in Ok (e + 1)%Z
    else let* e := int_of_string (hd "" hostnums) in Ok (e + 1)%Z in
  Ok (map (fun n_ => (hoststring ++ format_02d n_)%string) (range start end_)).

(** The files of a site: [ls dir] lists the entries of the directory
    [dir] in the order [Path.glob] reports them (nothing when [dir] is
    not a directory). *)
Section Walker.
Variable ls : string → list string.
Variable environment_domain : string.

(** The identities of one definition file. *)
Definition walk_file (dir name : string) : result (list identity) :=
  let definition_file_path := path_join dir name in
  match re_match 2 synthetic_hostname_pattern name with
  | Some groups =>
      let* ehs := expand_host groups in
      Ok (map (fun eh =>
                 (definition_file_path,
                  (eh ++ "." ++ environment_domain)%string, Some eh)) ehs)
  | None =>
      let hostname_short := path_stem name in
      let hostname :=
        if String.eqb hostname_short "localhost" then hostname_short
        else (hostname_short ++ "." ++ environment_domain)%string in
      Ok [(definition_file_path, hostname, Some hostname_short)]
  end.

Fixpoint walk_files (dir : string) (names : list string) : stream identity :=
  match names with
  | [] => ([], None)
  | name :: names' =>
      match walk_file dir name with
      | Raise e => ([], Some e)
      | Ok ids =>
          let '(rest, err) := walk_files dir names' in (ids ++ rest, err)
      end
  end.

Fixpoint walk_dirs (directory : string) (entries : list string)
  : stream identity :=
  match entries with
  | [] => ([], None)
  | entry :: entries' =>
      let definition_file_dir := path_join directory entry in
      match walk_files definition_file_dir
              (filter (fun n => Is_true (ends_with ".yaml" n))
                 (ls definition_file_dir)) with
      | (ids, Some e) => (ids, Some e)
      | (ids, None) =>
          let '(rest, err) := walk_dirs directory entries' in
          (ids ++ rest, err)
      end
  end.

(** [InventoryGenerator.traverse_site].  Every entry of [directory] is
    taken for a group directory: [f.is_dir] is not called, and a bound
    method is true. *)
Definition traverse_site (directory : string) : stream identity :=
  walk_dirs directory (ls directory).
End Walker.

(** ** Operations on loaded values *)

Definition key_value (k : key) : value :=
  match k with
  | KStr s => VStr s
  | KInt z => VInt z
  | KNone => VNone
  end.

(** The key a value is used as; mutable containers are unhashable. *)
Definition value_key (v : value) : result key :=
  match v with
  | VStr s => Ok (KStr s)
  | VInt z => Ok (KInt z)
  | VBool b => Ok (KInt (Z.b2z b))
  | VNone => Ok KNone
  | VList _ | VDict _ => Raise TypeError
  end.

Fixpoint chars (s : string) : list value :=
  match s with
  | EmptyString => []
  | String c s' => VStr (String c EmptyString) :: chars s'
  end.

(** [for x in v] *)
Definition iterate (v : value) : result (list value) :=
  match v with
  | VList l => Ok l
  | VStr s => Ok (chars s)
  | VDict d => Ok (map (fun kv => key_value kv.1) d)
  | VNone | VBool _ | VInt _ => Raise TypeError
  end.

(** [v.get(k, dflt)] *)
Definition obj_get (v : value) (k : key) (dflt : value) : result value :=
  match v with
  | VDict d => Ok (default dflt (lookup k d))
  | _ => Raise AttributeError
  end.

Fixpoint mapM {A B} (f : A → result B) (l : list A) : result (list B) :=
  match l with
  | [] => Ok []
  | x :: l' =>
      let* y := f x in
      let* ys := mapM f l' in
      Ok (y :: ys)
  end.

(** One element of the sequence handed to [dict(...)]: a key and a value. *)
Definition pair_of (e : value) : result (key * value) :=
  let* items := iterate e in
  match items with
  | [k; v] => let* k' := value_key k in Ok (k', v)
  | _ => Raise ValueError
  end.

Fixpoint dict_of_pairs (acc : dict) (l : list value) : result dict :=
  match l with
  | [] => Ok acc
  | e :: l' =>
      let* (k, v) := pair_of e in
      dict_of_pairs (set_item k v acc) l'
  end.

(** [dict(v)] *)
Definition to_dict (v : value) : result dict :=
  match v with
  | VDict d => Ok d
  | VList l => dict_of_pairs [] l
  | VStr s => dict_of_pairs [] (chars s)
  | VNone | VBool _ | VInt _ => Raise TypeError
  end.

(** ** The file system *)

(** What opening, reading and parsing a path yields. *)
Inductive fsnode :=
| NoFile                (* nothing there *)
| Directory
| Inaccessible          (* a path that [stat] refuses: a name too long,
                           a directory of the path that cannot be searched *)
| Unreadable            (* a file that [open] refuses *)
| Malformed             (* a file whose text [yaml.load] rejects *)
| Doc (v : value).      (* a file whose text loads as [v] *)

Section Files.
Variable files : string → fsnode.

(** [Path(p).is_file()]: false when nothing is there, and the error of
    [stat] when it is another one. *)
Definition is_file (p : string) : result bool :=
  match files p with
  | NoFile | Directory => Ok false
  | Inaccessible => Raise OSError
  | Unreadable | Malformed | Doc _ => Ok true
  end.

(** [read_yaml(open(p).read())] *)
Definition read_yaml_file (p : string) : result value :=
  match files p with
  | NoFile | Directory | Inaccessible | Unreadable => Raise OSError
  | Malformed => Raise YAMLError
  | Doc v => Ok v
  end.

(** ** Classification maps: [InventoryGenerator.__init__] *)

(** The branch of [__init__] for one of [os_class_map], [sub_group_map]:
    [arg] is [kwargs.get(name, '')]. *)
Definition load_class_map (arg : value) : result value :=
  if truthy arg then
    match arg with
    | VDict _ => Ok arg
    | VStr p =>
        let* found := is_file p in
        if found then
          let* class_map := read_yaml_file p in
          obj_get class_map "data" (VDict [])
        else Ok (VDict [])
    | _ => Raise TypeError      (* [Path(arg)] of what is no path *)
    end
  else Ok (VDict []).
End Files.

Record InventoryGenerator := {
  site_directory : string;
  site_definitions_directory : string;
  environment_domain : string;
  os_class_map : value;
  sub_group_map : value
}.

(** [InventoryGenerator.__init__]: the site directory as [pathlib]
    writes it, its [definitions] directory, and the two maps. *)
Definition init (files : string → fsnode)
    (site_directory environment_domain : string)
    (os_class_map_arg sub_group_map_arg : value) : result InventoryGenerator :=
  let* os_class_map := load_class_map files os_class_map_arg in
  let* sub_group_map := load_class_map files sub_group_map_arg in
  Ok {| site_directory := as_posix site_directory;
        site_definitions_directory := joinpath site_directory "definitions";
        environment_domain := environment_domain;
        os_class_map := os_class_map;
        sub_group_map := sub_group_map |}.

(** ** The Host Record Builder: [InventoryGenerator.generate_host_data] *)

(** The declared variables of a definition file: the body of the [try],
    on a document whose mappings are objects of their own. *)
Definition set_fact_of (f : value) : result dict :=
  let* x := obj_get f "set_fact" (VDict []) in to_dict x.

Fixpoint facts_of (definition_data : list value) : result (list dict) :=
  match definition_data with
  | [] => Ok []
  | f :: fs =>
      let* c := set_fact_of f in
      let* here := if nonempty c then let* d := set_fact_of f in Ok [d]
                   else Ok [] in
      let* rest := facts_of fs in
      Ok (here ++ rest)
  end.

(** [for fact_vars in definition_file_facts:
       definition_file_vars = self.merge(fact_vars, definition_file_vars)]
    on values, that is for entries that share no mapping;
    [Obj.declared_facts] is the loop on the objects. *)
Definition merge_facts (definition_file_facts : list dict) : dict :=
  fold_left (fun definition_file_vars fact_vars =>
               merge fact_vars definition_file_vars)
    definition_file_facts [].

Definition definition_vars (definition_data : value) : result dict :=
  match definition_data with
  | VDict d =>
      match lookup (KInt 0) d with
      | None => Raise KeyError
      | Some first =>
          let* x := obj_get first "vars" (VDict []) in to_dict x
      end
  | VList l =>
      let* definition_file_facts := facts_of l in
      Ok (merge_facts definition_file_facts)
  | _ => Ok []
  end.

(** The [try] with its [except TypeError]. *)
Definition declared_vars (definition_data : value) : result dict :=
  match definition_vars definition_data with
  | Raise TypeError => Ok []
  | r => r
  end.

Definition first_key (c : value) : result value :=
  match c with
  | VDict ((k, _) :: _) => Ok (key_value k)
  | VDict [] => Raise IndexError
  | _ => Raise AttributeError
  end.

Definition first_value (c : value) : result value :=
  match c with
  | VDict ((_, v) :: _) => Ok v
  | VDict [] => Raise IndexError
  | _ => Raise AttributeError
  end.

(** [[sel(c) for k, v in class_map.items() for c in v if code == k]] *)
Fixpoint class_items (sel : value → result value) (code : string)
    (items : list (key * value)) : result (list value) :=
  match items with
  | [] => Ok []
  | (k, v) :: items' =>
      let* cs := iterate v in
      let* here := if key_eqb (KStr code) k then mapM sel cs else Ok [] in
      let* rest := class_items sel code items' in
      Ok (here ++ rest)
  end.

Definition class_column (sel : value → result value) (class_map : value)
    (code : string) : result (list value) :=
  match class_map with
  | VDict items => class_items sel code items
  | _ => Raise AttributeError
  end.

Section Builder.
Variable files : string → fsnode.
(** [str(v)] of a list or dict. *)
Variable container_str : value → string.
Variable self : InventoryGenerator.

(** [f'{v}'] *)
Definition format (v : value) : string :=
  match v with
  | VStr s => s
  | VInt z => string_of_Z z
  | VBool true => "True"
  | VBool false => "False"
  | VNone => "None"
  | VList _ | VDict _ => container_str v
  end.

(** [hostname]: the record name, rewritten for a [child@parent] path. *)
Definition record_name (r0 r1 : string) : string :=
  let hostparts := split "@" r0 in
  if (1 <? length hostparts)%nat then
    let parent := join "." (removelast (split "." (nth 1 hostparts ""))) in
    (parent ++ ":" ++ r1)%string
  else r1.

(** The classification fields; [None] is the [continue]. *)
Definition classify (hostname primary_group : string)
  : result (option dict) :=
  let hostname_parts := split "-" hostname in
  if String.eqb hostname "localhost" then
    Ok (Some [(KStr "primary_group", VStr "ansible_controller");
              (KStr "os_classes", VList [VStr "local"]);
              (KStr "sub_groups", VList [VStr "local"])])
  else if Nat.eqb (length hostname_parts) 1 then Ok None
  else if (0 <? length hostname_parts)%nat then
    let os_class := hd "" hostname_parts in
    let sub_group :=
      if (1 <? length hostname_parts)%nat then nth 1 hostname_parts ""
      else "misc" in
    let* os_classes := class_column first_key (os_class_map self) os_class in
    let* os_class_names :=
      class_column first_value (os_class_map self) os_class in
    let* sub_groups := class_column first_key (sub_group_map self) sub_group in
    let* sub_group_names :=
      class_column first_value (sub_group_map self) sub_group in
    Ok (Some [(KStr "os_classes", VList os_classes);
              (KStr "os_class_names", VList os_class_names);
              (KStr "sub_groups", VList sub_groups);
              (KStr "sub_group_names", VList sub_group_names);
              (KStr "primary_group", VStr primary_group)])
  else Ok (Some []).

(** The base fields added to the classification fields. *)
Definition base_fields (host_data : dict)
    (hostname hostname_short definition_file default_group_path : string)
  : dict :=
  let host_data := set_item "hostname" (VStr hostname_short) host_data in
  let host_data := set_item "fqdn" (VStr hostname) host_data in
  let host_data := set_item "definition_file" (VStr definition_file) host_data in
  let host_data :=
    set_item "default_group_path" (VStr default_group_path) host_data in
  let host_data :=
    set_item "site_directory" (VStr (site_directory self)) host_data in
  let host_data :=
    set_item "environment_domain" (VStr (environment_domain self)) host_data in
  set_item "ansible_host" (VStr hostname) host_data.

(** The connection fields, derived after the merge. *)
Definition connection_fields (host_data : dict)
    (hostname hostname_short : string) : dict :=
  let ansible_real_host := default VNone (lookup "ansible_real_host" host_data) in
  let host_data :=
    if truthy ansible_real_host
    then set_item "ansible_ssh_host" ansible_real_host host_data
    else set_item "ansible_winrm_host" (VStr hostname)
           (set_item "ansible_ssh_host" (VStr hostname) host_data) in
  let system_type := default VNone (lookup "system_type" host_data) in
  if is_str system_type "lxd" then
    let lxd_host := default VNone (lookup "lxd_host" host_data) in
    if truthy lxd_host
    then set_item "ansible_host"
           (VStr (format lxd_host ++ ":" ++ hostname_short)) host_data
    else host_data
  else if is_str system_type "qemu" then
    set_item "ansible_ssh_host" (VStr hostname_short)
      (set_item "ansible_host" (VStr hostname_short) host_data)
  else host_data.

(** One turn of [for r in inv_obj_pairs:]: the record yielded, [None]
    for [continue], or the exception that leaves the generator. *)
Definition host_record (r : identity) : result (option dict) :=
  let '(r0, r1, r2) := r in
  let default_group_path := path_parent r0 in
  let primary_group := path_name default_group_path in
  let definition_file := r0 in
  let* definition_data := read_yaml_file files definition_file in
  let* definition_file_vars := declared_vars definition_data in
  let hostname := record_name r0 r1 in
  let* hostname_short :=
    match r2 with Some s => Ok s | None => Raise IndexError end in
  let* classified := classify hostname primary_group in
  match classified with
  | None => Ok None
  | Some host_data =>
      let host_data :=
        base_fields host_data hostname hostname_short definition_file
          default_group_path in
      let host_data := merge host_data definition_file_vars in
      Ok (Some (connection_fields host_data hostname hostname_short))
  end.

Fixpoint host_records (inv_obj_pairs : list identity) : stream dict :=
  match inv_obj_pairs with
  | [] => ([], None)
  | r :: rs =>
      match host_record r with
      | Raise e => ([], Some e)
      | Ok None => host_records rs
      | Ok (Some host_data) =>
          let '(rest, err) := host_records rs in (host_data :: rest, err)
      end
  end.

(** The generator over the (lazy) stream of the walker: an exception of
    the walker comes after the records of what it yielded before. *)
Definition generate_host_data (inv_obj_pairs : stream identity)
  : stream dict :=
  match host_records inv_obj_pairs.1 with
  | (recs, Some e) => (recs, Some e)
  | (recs, None) => (recs, inv_obj_pairs.2)
  end.
End Builder.

(** ** The Inventory Assembler: [InventoryGenerator.generate_inventory] *)

(** [output]: the list [all.hosts] and the mapping [_meta.hostvars]. *)
Record inventory := {
  all_hosts : list value;
  hostvars : list (key * dict)
}.

(** [output["_meta"]["hostvars"][name] = host_record;
     output["all"]["hosts"].append(name)] *)
Definition register (host_record : dict) (output : inventory) (name : value)
  : result inventory :=
  let* k := value_key name in
  Ok {| all_hosts := all_hosts output ++ [name];
        hostvars := set_item k host_record (hostvars output) |}.

Fixpoint register_all (host_record : dict) (output : inventory)
    (names : list value) : result inventory :=
  match names with
  | [] => Ok output
  | name :: names' =>
      let* output' := register host_record output name in
      register_all host_record output' names'
  end.

(** One turn of [for host_record in host_data:] *)
Definition add_host (output : inventory) (host_record : dict)
  : result inventory :=
  let* hostname :=
    match lookup "hostname" host_record with
    | Some v => Ok v
    | None => Raise KeyError
    end in
  let host_aliases := default (VList []) (lookup "host_aliases" host_record) in
  let* aliases := iterate host_aliases in
  let* output := register_all host_record output aliases in
  register host_record output hostname.

Fixpoint add_hosts (output : inventory) (host_data : list dict)
  : result inventory :=
  match host_data with
  | [] => Ok output
  | host_record :: rest =>
      let* output' := add_host output host_record in
      add_hosts output' rest
  end.

Section Inventory.
Variable files : string → fsnode.
Variable ls : string → list string.
Variable container_str : value → string.
Variable self : InventoryGenerator.

(** [host_filter] is the collection of names of the [filter] argument
    ([[]] when there is none), [host_mock] the mock host, if any. *)
Definition generate_inventory (host_mock : option string)
    (host_filter : list string) : result inventory :=
  let* inv :=
    match host_mock with
    | Some (String c m) =>
        let host_mock := String c m in Ok ([(host_mock, host_mock, None)], None)
    | Some EmptyString | None =>
        let walked := traverse_site ls (environment_domain self)
                        (site_definitions_directory self) in
        if nonempty host_filter then
          (* a list comprehension: the walker is drained first *)
          match walked with
          | (_, Some e) => Raise e
          | (ids, None) =>
              Ok (filter (fun f : identity =>
                            Is_true (existsb (String.eqb f.1.2) host_filter))
                    ids, None)
          end
        else Ok walked
    end in
  (* the records are registered as the generator yields them *)
  let '(host_data, err) := generate_host_data files container_str self inv in
  let* output := add_hosts {| all_hosts := []; hostvars := [] |} host_data in
  match err with
  | Some e => Raise e
  | None => Ok output
  end.
End Inventory.

(** ** The command line: the [__main__] block *)

Module Cli.

(** What [parse_args] returns. *)
Record args := {
  site_directory : string;
  environment_domain : string;
  sub_group_map : string;
  os_class_map : string;
  debug : bool;
  verbose : bool
}.

Section Main.
Variable files : string → fsnode.
Variable ls : string → list string.
Variable container_str : value → string.

(** One of the two maps, [{}] unless the file is read: [guard] is the
    argument that the [if] tests, which is [args.os_class_map] for both
    maps, and [arg] the path that is opened.  The empty path is the
    current directory, which is no file. *)
Definition class_map (guard arg : string) : result value :=
  if negb (String.eqb guard "") then
    let* found := if String.eqb arg "" then Ok false else is_file files arg in
    if found then read_yaml_file files arg else Ok (VDict [])
  else Ok (VDict []).

(** The generator that the script constructs from [inv_data]. *)
Definition generator (a : args) : result InventoryGenerator :=
  let* os_class_map_arg := class_map (os_class_map a) (os_class_map a) in
  let* sub_group_map_arg := class_map (os_class_map a) (sub_group_map a) in
  init files (site_directory a) (environment_domain a)
    os_class_map_arg sub_group_map_arg.

(** The script: the inventory it computes (and drops). *)
Definition main (a : args) : result inventory :=
  let* g := generator a in
  generate_inventory files ls container_str g None [].
End Main.

End Cli.

(** ** The Ansible adapter: [InventoryModule.parse] *)

Module Ansible.

Inductive error :=
| Python (e : exn)     (* an exception of the statements of [parse] *)
| InventoryError.      (* an exception raised inside a call of the
                          inventory *)

Inductive outcome (A : Type) :=
| Done (x : A)
| Failed (e : error).
Arguments Done {A} x.
Arguments Failed {A} e.

(** A computation on the inventory, whose state is an [S]. *)
Definition M (S A : Type) : Type := S → outcome (A * S).

#[global] Instance M_ret {S} : MRet (M S) := λ A x s, Done (x, s).

#[global] Instance M_bind {S} : MBind (M S) := λ A B f m s,
  match m s with
  | Done (x, s') => f x s'
  | Failed e => Failed e
  end.

Definition lift {S A} (r : result A) : M S A := λ s,
  match r with
  | Ok x => Done (x, s)
  | Raise e => Failed (Python e)
  end.

(** [self.inventory]: the operations of Ansible's [InventoryData] that
    [parse] calls, each of which gives a result and a new state of the
    inventory, or raises ([None]).  [add_group] and [add_host] return the
    name under which the inventory holds the group or the host. *)
Class InventoryData (S : Type) := {
  add_group : value → S → option (value * S);
  add_host : value → S → option (value * S);
  add_child : value → value → S → option (unit * S);
  set_variable : value → value → value → S → option (unit * S)
}.

(** A call of the inventory. *)
Definition invoke {S A} (op : S → option (A * S)) : M S A := λ s,
  match op s with
  | Some r => Done r
  | None => Failed InventoryError
  end.

Section Parse.
Context {S : Type} `{InventoryData S}.
Variable files : string → fsnode.
Variable ls : string → list string.
Variable container_str : value → string.

(** [d[k]] *)
Definition item (d : dict) (k : key) : M S value :=
  lift (match lookup k d with
        | Some v => Ok v
        | None => Raise KeyError
        end).

(** The loops over [sub_groups], [os_classes] and [extra_host_groups]. *)
Fixpoint add_to_groups (root_group_name hostname_inv_obj : value)
    (groups : list value) : M S unit :=
  match groups with
  | [] => mret ()
  | group :: groups' =>
      group_inv_name ← invoke (add_group group);
      invoke (add_child group_inv_name hostname_inv_obj);;
      invoke (add_child root_group_name group_inv_name);;
      add_to_groups root_group_name hostname_inv_obj groups'
  end.

(** [for var_key, var_val in hostname_data.items(): ...] *)
Fixpoint set_variables (hostname : value) (items : dict) : M S unit :=
  match items with
  | [] => mret ()
  | (var_key, var_val) :: items' =>
      invoke (set_variable hostname (key_value var_key) var_val);;
      set_variables hostname items'
  end.

(** One turn of [for hostname in host_data['all']['hosts']:] *)
Definition parse_host (host_data : inventory) (root_group_name hostname : value)
  : M S unit :=
  k ← lift (value_key hostname);
  hostname_data ← lift (match lookup k (hostvars host_data) with
                        | Some d => Ok d
                        | None => Raise KeyError
                        end);
  hostname_inv_obj ← invoke (add_host hostname);
  primary_group ← item hostname_data "primary_group";
  primary_group_inv_name ← invoke (add_group primary_group);
  invoke (add_child root_group_name primary_group_inv_name);;
  invoke (add_child primary_group_inv_name hostname_inv_obj);;
  sub_groups ← item hostname_data "sub_groups";
  sub_groups ← lift (iterate sub_groups);
  add_to_groups root_group_name hostname_inv_obj sub_groups;;
  os_classes ← item hostname_data "os_classes";
  os_classes ← lift (iterate os_classes);
  add_to_groups root_group_name hostname_inv_obj os_classes;;
  extra_host_groups ←
    lift (iterate (default (VList [])
                     (lookup "extra_host_groups" hostname_data)));
  add_to_groups root_group_name hostname_inv_obj extra_host_groups;;
  set_variables hostname hostname_data.

Fixpoint parse_hosts (host_data : inventory) (root_group_name : value)
    (hosts : list value) : M S unit :=
  match hosts with
  | [] => mret ()
  | hostname :: hosts' =>
      parse_host host_data root_group_name hostname;;
      parse_hosts host_data root_group_name hosts'
  end.

(** [InventoryModule.parse], from the options that [_read_config_data]
    has read at [path]. *)
Definition parse (path environment_domain : string)
    (os_class_map sub_group_map : value) : M S unit :=
  let site_directory := parent path in
  root_group_name ← invoke (add_group (VStr "site"));
  g ← lift (init files site_directory environment_domain
              os_class_map sub_group_map);
  host_data ← lift (generate_inventory files ls container_str g None []);
  parse_hosts host_data root_group_name (all_hosts host_data).
End Parse.

End Ansible.

(** ** Notions used in the statements *)

(** The loop of [merge], as a fold over the entries of [b]. *)
Definition merge_fold (b a : dict) : dict :=
  fold_left (fun a kv => merge_key merge_rec a kv.1 kv.2) b a.

(** [c in s] *)
Fixpoint contains (c : ascii) (s : string) : bool :=
  match s with
  | EmptyString => false
  | String c' s' => Ascii.eqb c' c || contains c s'
  end.

(** Every character of [s] satisfies [P]. *)
Fixpoint string_forall (P : ascii → bool) (s : string) : bool :=
  match s with
  | EmptyString => true
  | String c s' => P c && string_forall P s'
  end.

(** The number a string of decimal digits denotes. *)
Fixpoint decimal_acc (acc : Z) (s : string) : Z :=
  match s with
  | EmptyString => acc
  | String c s' => decimal_acc (10 * acc + digit_val c) s'
  end.

Definition decimal (s : string) : Z := decimal_acc 0 s.

(** The names under which a record is registered: its aliases, then its
    [hostname]. *)
Definition record_names (host_record : dict) : list value :=
  match iterate (default (VList []) (lookup (KStr "host_aliases") host_record)),
        lookup (KStr "hostname") host_record with
  | Ok aliases, Some hostname => aliases ++ [hostname]
  | _, _ => []
  end.

(** The [(code, label)] pair at the head of a listed mapping. *)
Definition first_entry (c : value) : list (value * value) :=
  match c with
  | VDict ((k, v) :: _) => [(key_value k, v)]
  | _ => []
  end.

(** The pairs listed in [class_map] under [code], in order. *)
Definition class_pairs (class_map : value) (code : string)
  : list (value * value) :=
  match class_map with
  | VDict items =>
      concat (map (λ kv : key * value,
                     if key_eqb (KStr code) kv.1 then
                       match iterate kv.2 with
                       | Ok cs => concat (map first_entry cs)
                       | Raise _ => []
                       end
                     else []) items)
  | _ => []
  end.

(** A site with one group directory and two definition files, the first
    of which reads as [first]. *)
Definition demo_ls (dir : string) : list string :=
  if String.eqb dir "site/definitions" then ["web"]
  else if String.eqb dir "site/definitions/web"
       then ["lxr3-dck-01.yaml"; "lxr3-dck-02.yaml"]
       else [].

(** The second file is empty. *)
Definition demo_files (first : fsnode) (p : string) : fsnode :=
  if String.eqb p "site/definitions/web/lxr3-dck-01.yaml" then first
  else if String.eqb p "site/definitions/web/lxr3-dck-02.yaml" then Doc VNone
  else NoFile.

(** The generator of the site, with entries of the example maps. *)
Definition demo_generator : InventoryGenerator :=
  {| site_directory := "site";
     site_definitions_directory := "site/definitions";
     environment_domain := "example.com";
     os_class_map :=
       VDict [(KStr "lxr3",
               VList [VDict [(KStr "lxr3", VStr "Linux Raspberry PI Model 3")]])];
     sub_group_map :=
       VDict [(KStr "dck",
               VList [VDict [(KStr "app", VStr "Application Server")];
                      VDict [(KStr "dck", VStr "Docker Microservices Host")]])] |}.

(** The inventory of the site. *)
Definition demo_inventory (first : fsnode) : result inventory :=
  generate_inventory (demo_files first) demo_ls (λ _, "") demo_generator None [].

(** A definition file that declares a [qemu] guest and its real host. *)
Definition qemu_host : fsnode :=
  Doc (VList [VDict [(KStr "set_fact",
                      VDict [(KStr "system_type", VStr "qemu");
                             (KStr "ansible_real_host", VStr "10.0.0.7")])]]).

(** The fields of a host record that [generate_host_data] computes. *)
Definition computed_keys : list key :=
  [KStr "primary_group"; KStr "os_classes"; KStr "os_class_names";
   KStr "sub_groups"; KStr "sub_group_names"; KStr "hostname"; KStr "fqdn";
   KStr "definition_file"; KStr "default_group_path"; KStr "site_directory";
   KStr "environment_domain"; KStr "ansible_host"; KStr "ansible_ssh_host";
   KStr "ansible_winrm_host"].

(** A definition file that declares values for computed fields, and a
    variable of its own. *)
Definition overriding_host : fsnode :=
  Doc (VList [VDict [(KStr "set_fact",
                      VDict [(KStr "hostname", VStr "other");
                             (KStr "ansible_host", VStr "10.9.9.9");
                             (KStr "ansible_ssh_host", VStr "10.9.9.9");
                             (KStr "rack", VStr "r1")])]]).

(** A definition file that declares an [lxd] container and its host. *)
Definition lxd_container : fsnode :=
  Doc (VList [VDict [(KStr "set_fact",
                      VDict [(KStr "system_type", VStr "lxd");
                             (KStr "lxd_host", VStr "lxr3-lxd-01")])]]).

(** The name [name] is registered under the key [k]. *)
Definition named (k : key) (name : value) : bool :=
  match value_key name with
  | Ok k' => key_eqb k k'
  | Raise _ => false
  end.

(** The records, of those yielded, that are registered under [k]. *)
Definition registered (k : key) (host_data : list dict) : list dict :=
  filter (λ host_record, Is_true (existsb (named k) (record_names host_record)))
    host_data.

(** The identities that [generate_inventory] hands to the builder when no
    mock host is given. *)
Definition selected (ls : string → list string) (self : InventoryGenerator)
    (host_filter : list string) : list identity :=
  let walked := traverse_site ls (environment_domain self)
                  (site_definitions_directory self) in
  if nonempty host_filter
  then filter (λ f : identity,
                 Is_true (existsb (String.eqb f.1.2) host_filter)) walked.1
  else walked.1.

(** A character that can stand in the upper bound of a range: no line
    feed, no bracket, no dash. *)
Definition bound_char (c : ascii) : bool :=
  negb (Ascii.eqb c LF) && negb (Ascii.eqb c "[") && negb (Ascii.eqb c "]")
  && negb (Ascii.eqb c "-").

(** The identity of the host [short] defined by the file [name] of the
    group directory [dir]. *)
Definition identity_of (environment_domain dir name short : string) : identity :=
  (path_join dir name, (short ++ "." ++ environment_domain)%string, Some short).

(** A site whose only definition file has a range without upper bound. *)
Definition open_range_ls (dir : string) : list string :=
  if String.eqb dir "site/definitions" then ["web"]
  else if String.eqb dir "site/definitions/web" then ["lxr3-dck-[1-].yaml"]
       else [].

(** The command line of a site with both maps given as files. *)
Definition demo_args (os_class_map sub_group_map : string) : Cli.args :=
  {| Cli.site_directory := "site";
     Cli.environment_domain := "example.com";
     Cli.sub_group_map := sub_group_map;
     Cli.os_class_map := os_class_map;
     Cli.debug := false;
     Cli.verbose := false |}.

(** Two map files, the maps being under the key [data]; no other file. *)
Definition map_files (p : string) : fsnode :=
  if String.eqb p "maps/os.yaml"
  then Doc (VDict [(KStr "data", os_class_map demo_generator)])
  else if String.eqb p "maps/sub.yaml"
       then Doc (VDict [(KStr "data", sub_group_map demo_generator)])
       else NoFile.

(** The calls that an inventory receives. *)
Inductive call :=
| AddGroup (group : value)
| AddHost (host : value)
| AddChild (group child : value)
| SetVariable (entity varname v : value).

(** A name that an inventory accepts: a string that is not empty. *)
Definition is_name (v : value) : bool :=
  match v with
  | VStr s => negb (String.eqb s "")
  | _ => false
  end.

(** An inventory that records the calls and returns the names as given;
    it refuses a group or a host whose name is no string, or is empty. *)
#[global] Instance recorder : Ansible.InventoryData (list call) := {|
  Ansible.add_group group s :=
    if is_name group then Some (group, s ++ [AddGroup group]) else None;
  Ansible.add_host host s :=
    if is_name host then Some (host, s ++ [AddHost host]) else None;
  Ansible.add_child group child s := Some ((), s ++ [AddChild group child]);
  Ansible.set_variable entity varname v s :=
    Some ((), s ++ [SetVariable entity varname v])
|}.

(** A definition file whose host has an alias that is no string. *)
Definition numeric_alias : fsnode :=
  Doc (VList [VDict [(KStr "set_fact",
                      VDict [(KStr "host_aliases", VList [VInt 7])])]]).

(** Some call of the inventory raises. *)
Definition refused (S : Type) `{Ansible.InventoryData S} : Prop :=
  (∃ group s, Ansible.add_group group s = None) ∨
  (∃ host s, Ansible.add_host host s = None) ∨
  (∃ group child s, Ansible.add_child group child s = None) ∨
  (∃ entity varname v s, Ansible.set_variable entity varname v s = None).

(** A record of [hostvars] whose [extra_host_groups] cannot be iterated. *)
Definition bad_extra_groups (host_data : inventory) : Prop :=
  ∃ k rec,
    lookup k (hostvars host_data) = Some rec ∧
    iterate (default (VList []) (lookup (KStr "extra_host_groups") rec))
    = Raise TypeError.

(** What [parse] can come to: its end, an exception of the inventory, or
    the [TypeError] of an [extra_host_groups] that cannot be iterated. *)
Definition expected {S : Type} `{Ansible.InventoryData S}
    (host_data : inventory) {A : Type} (r : Ansible.outcome (A * S)) : Prop :=
  match r with
  | Ansible.Done _ => True
  | Ansible.Failed Ansible.InventoryError => refused S
  | Ansible.Failed (Ansible.Python e) =>
      e = TypeError ∧ bad_extra_groups host_data
  end.

(** * Properties *)

(** ** Keys and entries *)

Lemma key_eqb_eq (k1 k2 : key) : key_eqb k1 k2 = true ↔ k1 = k2.
Proof.
  destruct k1, k2; simpl; split; intros H; try congruence; try discriminate.
  - apply String.eqb_eq in H. by subst.
  - inversion H; subst. apply String.eqb_refl.
  - apply Z.eqb_eq in H. by subst.
  - inversion H; subst. apply Z.eqb_refl.
Qed.

Lemma key_eqb_refl (k : key) : key_eqb k k = true.
Proof. by apply key_eqb_eq. Qed.

Lemma key_eqb_neq (k1 k2 : key) : key_eqb k1 k2 = false ↔ k1 ≠ k2.
Proof.
  split.
  - intros H ->. rewrite key_eqb_refl in H. discriminate.
  - intros H. destruct (key_eqb k1 k2) eqn:E; [|done].
    apply key_eqb_eq in E. contradiction.
Qed.

Lemma key_eqb_sym (k1 k2 : key) : key_eqb k1 k2 = key_eqb k2 k1.
Proof.
  destruct (key_eqb k2 k1) eqn:E.
  - apply key_eqb_eq in E. subst. apply key_eqb_refl.
  - apply key_eqb_neq in E. apply key_eqb_neq. congruence.
Qed.

Ltac key_cases k1 k2 :=
  let E := fresh "E" in
  destruct (key_eqb k1 k2) eqn:E;
  [apply key_eqb_eq in E; try subst | pose proof (proj1 (key_eqb_neq _ _) E)].

Section EntryFacts.
Context {V : Type}.
Implicit Types (d : list (key * V)) (k : key) (v : V).

Lemma lookup_app k d1 d2 :
  lookup k (d1 ++ d2) =
  match lookup k d1 with Some v => Some v | None => lookup k d2 end.
Proof.
  induction d1 as [|[k' v'] d1 IH]; simpl; [done|].
  by destruct (key_eqb k k').
Qed.

Lemma lookup_set_item k k' v d :
  lookup k (set_item k' v d) = if key_eqb k k' then Some v else lookup k d.
Proof.
  induction d as [|[k0 v0] d IH]; simpl.
  - done.
  - key_cases k' k0; simpl.
    + by destruct (key_eqb k k0).
    + rewrite IH. key_cases k k0; [|done].
      by rewrite (proj2 (key_eqb_neq k0 k')).
Qed.

Lemma lookup_set_item_eq k v d : lookup k (set_item k v d) = Some v.
Proof. by rewrite lookup_set_item, key_eqb_refl. Qed.

Lemma lookup_set_item_ne k k' v d :
  k ≠ k' → lookup k (set_item k' v d) = lookup k d.
Proof.
  intros H. rewrite lookup_set_item.
  by rewrite (proj2 (key_eqb_neq k k')).
Qed.

Lemma lookup_None_keys k d : lookup k d = None ↔ k ∉ keys d.
Proof.
  induction d as [|[k' v'] d IH]; simpl.
  - split; [intros _; apply not_elem_of_nil|done].
  - rewrite not_elem_of_cons. key_cases k k'.
    + split; [done|]. intros [? _]. done.
    + rewrite IH. tauto.
Qed.

Lemma keys_set_item_present k v d :
  k ∈ keys d → keys (set_item k v d) = keys d.
Proof.
  induction d as [|[k' v'] d IH]; simpl.
  - intros H. by apply elem_of_nil in H.
  - intros H. key_cases k k'; simpl; [done|].
    f_equal. apply IH. apply elem_of_cons in H as [?|?]; [done|done].
Qed.

Lemma nodup_keys_NoDup (ks : list key) : nodup_keys ks = true ↔ NoDup ks.
Proof.
  induction ks as [|k ks IH]; simpl.
  - split; [intros _; constructor|done].
  - rewrite andb_true_iff, negb_true_iff, NoDup_cons, IH.
    assert (existsb (key_eqb k) ks = false ↔ k ∉ ks) as ->; [|done].
    clear IH. induction ks as [|k' ks IH]; simpl.
    + split; [intros _; apply not_elem_of_nil|done].
    + rewrite orb_false_iff, not_elem_of_cons, IH, key_eqb_neq. done.
Qed.
End EntryFacts.

(** ** [merge] on values *)

Lemma merge_unfold (a b : dict) :
  merge a b = if negb (nonempty a && nonempty b) then a else merge_fold b a.
Proof.
  unfold merge, merge_fold. simpl.
  destruct (negb (nonempty a && nonempty b)); [done|].
  generalize a. induction b as [|[k bv] b IH]; intros a0; simpl; [done|].
  apply IH.
Qed.

Lemma merge_empty_l (b : dict) : merge [] b = [].
Proof. by rewrite merge_unfold. Qed.

Lemma merge_empty_r (a : dict) : merge a [] = a.
Proof. rewrite merge_unfold. by destruct a. Qed.

Lemma merge_nonempty (a b : dict) :
  a ≠ [] → b ≠ [] → merge a b = merge_fold b a.
Proof.
  intros Ha Hb. rewrite merge_unfold. by destruct a, b.
Qed.

(** What one turn of the loop does to the entry of a key. *)
Lemma lookup_merge_key (rec : dict → value → dict) a k k' bv :
  lookup k (merge_key rec a k' bv) =
  if key_eqb k k' then
    match lookup k a with
    | Some (VDict a') =>
        match bv with
        | VDict _ => Some (VDict (rec a' bv))
        | _ => Some (VDict a')
        end
    | Some av => Some av
    | None => Some bv
    end
  else lookup k a.
Proof.
  unfold merge_key. key_cases k k'.
  - destruct (lookup k' a) as [av|] eqn:Ha.
    + destruct av; try done. destruct bv; try done.
      apply lookup_set_item_eq.
    + rewrite lookup_app, Ha. simpl. by rewrite key_eqb_refl.
  - destruct (lookup k' a) as [av|] eqn:Ha.
    + destruct av; try done. destruct bv; try done.
      by apply lookup_set_item_ne.
    + rewrite lookup_app. destruct (lookup k a); [done|]. simpl.
      by rewrite (proj2 (key_eqb_neq k k')).
Qed.

Lemma merge_key_nonempty rec a k bv : a ≠ [] → merge_key rec a k bv ≠ [].
Proof.
  intros Ha. unfold merge_key. destruct (lookup k a) as [av|].
  - destruct av; try done. destruct bv; try done.
    destruct a as [|[k0 v0] a]; [done|]. simpl. by destruct (key_eqb k k0).
  - by destruct a.
Qed.

(** A value of [a] that is no mapping is never replaced. *)
Lemma lookup_merge_fold_keep b : ∀ a k av,
  lookup k a = Some av → is_dict av = false →
  lookup k (merge_fold b a) = Some av.
Proof.
  induction b as [|[k' bv] b IH]; intros a k av Ha Hav; [done|].
  simpl. apply IH; [|done].
  rewrite lookup_merge_key, Ha. destruct (key_eqb k k'); [|done].
  by destruct av.
Qed.

(** A key that [b] lacks keeps the entry [a] has for it, if any. *)
Lemma lookup_merge_fold_absent b : ∀ a k,
  lookup k b = None → lookup k (merge_fold b a) = lookup k a.
Proof.
  induction b as [|[k' bv] b IH]; intros a k Hb; [done|].
  simpl in *. key_cases k k'; [done|].
  rewrite IH; [|done]. rewrite lookup_merge_key.
  by rewrite (proj2 (key_eqb_neq k k')).
Qed.

(** A key that [a] lacks gets the value [b] has for it. *)
Lemma lookup_merge_fold_new b : ∀ a k bv,
  lookup k a = None → lookup k b = Some bv → is_dict bv = false →
  lookup k (merge_fold b a) = Some bv.
Proof.
  induction b as [|[k' bv'] b IH]; intros a k bv Ha Hb Hbv; [done|].
  simpl in *. key_cases k k'.
  - inversion Hb; subst. eapply lookup_merge_fold_keep; [|done].
    by rewrite lookup_merge_key, key_eqb_refl, Ha.
  - apply IH; [|done..]. rewrite lookup_merge_key.
    by rewrite (proj2 (key_eqb_neq k k')).
Qed.

(** The entries of [merge_fold b a], key by key, when the keys of [b]
    are pairwise distinct. *)
Lemma lookup_merge_fold b : ∀ a k,
  NoDup (keys b) →
  lookup k (merge_fold b a) =
  match lookup k a, lookup k b with
  | Some (VDict a'), Some (VDict b') => Some (VDict (merge a' b'))
  | Some av, _ => Some av
  | None, ob => ob
  end.
Proof.
  induction b as [|[k' bv] b IH]; intros a k Hnd.
  - simpl. destruct (lookup k a) as [[]|]; done.
  - simpl in *. apply NoDup_cons in Hnd as [Hk' Hnd].
    rewrite IH by done. rewrite lookup_merge_key. key_cases k k'.
    + apply lookup_None_keys in Hk'. rewrite Hk'.
      destruct (lookup k' a) as [av|]; [|by destruct bv].
      unfold merge. destruct av; try done. destruct bv; done.
    + done.

Qed.

Lemma lookup_merge (a b : dict) (k : key) :
  a ≠ [] → b ≠ [] → NoDup (keys b) →
  lookup k (merge a b) =
  match lookup k a, lookup k b with
  | Some (VDict a'), Some (VDict b') => Some (VDict (merge a' b'))
  | Some av, _ => Some av
  | None, ob => ob
  end.
Proof.
  intros Ha Hb Hnd. rewrite merge_nonempty by done.
  by apply lookup_merge_fold.
Qed.

(** The keys of the result: those of [a], then those only [b] has, each
    in the order of its mapping. *)
Lemma keys_merge_key rec a k bv :
  keys (merge_key rec a k bv) =
  if decide (k ∈ keys a) then keys a else keys a ++ [k].
Proof.
  unfold merge_key. destruct (lookup k a) as [av|] eqn:Ha.
  - assert (k ∈ keys a) as Hin.
    { destruct (decide (k ∈ keys a)) as [|Hn]; [done|].
      apply lookup_None_keys in Hn. congruence. }
    rewrite decide_True by done.
    destruct av; try done. destruct bv; try done.
    by apply keys_set_item_present.
  - apply lookup_None_keys in Ha. rewrite decide_False by done.
    unfold keys. by rewrite map_app.
Qed.

Lemma filter_not_elem_snoc (ks la : list key) (k : key) :
  k ∉ ks →
  filter (λ k', k' ∉ la ++ [k]) ks = filter (λ k', k' ∉ la) ks.
Proof.
  induction ks as [|k' ks IH]; [done|].
  intros [Hne Hk]%not_elem_of_cons.
  rewrite !filter_cons. rewrite IH by done.
  destruct (decide (k' ∉ la ++ [k])) as [H1|H1];
    destruct (decide (k' ∉ la)) as [H2|H2]; try done.
  - exfalso. apply H2. intros ?. apply H1, elem_of_app. by left.
  - exfalso. apply H1. intros [?|?%list_elem_of_singleton]%elem_of_app;
      [done|congruence].
Qed.

Lemma keys_merge_fold b : ∀ a,
  NoDup (keys b) →
  keys (merge_fold b a) = keys a ++ filter (λ k, k ∉ keys a) (keys b).
Proof.
  induction b as [|[k bv] b IH]; intros a Hnd.
  - simpl. by rewrite app_nil_r.
  - change (keys ((k, bv) :: b)) with (k :: keys b) in *.
    apply NoDup_cons in Hnd as [Hk Hnd].
    change (merge_fold ((k, bv) :: b) a)
      with (merge_fold b (merge_key merge_rec a k bv)).
    rewrite IH by done.
    rewrite keys_merge_key. rewrite filter_cons.
    destruct (decide (k ∈ keys a)) as [Hin|Hin].
    + rewrite decide_False by tauto. done.
    + rewrite decide_True by done. rewrite <- app_assoc. simpl. do 2 f_equal.
      by apply filter_not_elem_snoc.
Qed.

Lemma keys_merge (a b : dict) :
  a ≠ [] → b ≠ [] → NoDup (keys b) →
  keys (merge a b) = keys a ++ filter (λ k, k ∉ keys a) (keys b).
Proof.
  intros Ha Hb Hnd. rewrite merge_nonempty by done.
  by apply keys_merge_fold.
Qed.

(** ** Well-formed documents and their depth *)

Lemma wf_value_dict (d : dict) :
  wf_value (VDict d) = true ↔
  NoDup (keys d) ∧ Forall (λ kv, wf_value kv.2 = true) d.
Proof.
  simpl. rewrite andb_true_iff, nodup_keys_NoDup.
  apply and_iff_compat_l.
  induction d as [|[k v] d IH]; simpl.
  - split; [constructor|done].
  - rewrite andb_true_iff, Forall_cons, IH. done.
Qed.

Lemma depth_dict (d : dict) (n : nat) :
  depth (VDict d) ≤ S n ↔ Forall (λ kv, depth kv.2 ≤ n) d.
Proof.
  simpl. rewrite <- Nat.succ_le_mono.
  induction d as [|[k v] d IH]; simpl.
  - split; [constructor|lia].
  - rewrite Forall_cons, <- IH. simpl. lia.
Qed.

Lemma depth_dict_pos (d : dict) : 0 < depth (VDict d).
Proof. simpl. lia. Qed.

Lemma lookup_NoDup_elem {V} (d : list (key * V)) k v :
  NoDup (keys d) → (k, v) ∈ d → lookup k d = Some v.
Proof.
  induction d as [|[k' v'] d IH]; simpl.
  - intros _ H. by apply elem_of_nil in H.
  - intros [Hk' Hnd]%NoDup_cons [Heq|Hin]%elem_of_cons.
    + inversion Heq; subst. by rewrite key_eqb_refl.
    + key_cases k k'; [|by apply IH].
      exfalso. apply Hk'. apply list_elem_of_fmap. by exists (k', v).
Qed.

(** ** [Obj.merge] computes [merge] *)

Lemma lookup_Some_elem {V} (d : list (key * V)) k v :
  lookup k d = Some v → (k, v) ∈ d.
Proof.
  induction d as [|[k' v'] d IH]; [done|]. cbn [lookup].
  key_cases k k'.
  - intros [= ->]. by left.
  - intros Hd. right. by apply IH.
Qed.

Lemma merge_keys_NoDup (a b : dict) :
  NoDup (keys a) → NoDup (keys b) → NoDup (keys (merge a b)).
Proof.
  intros Ha Hb. rewrite merge_unfold.
  destruct (negb (nonempty a && nonempty b)) eqn:Hne; [done|].
  rewrite keys_merge_fold by done.
  apply NoDup_app. split_and!; [done| |by apply NoDup_filter].
  intros k Hk Hin. by apply list_elem_of_filter in Hin as [Hin _].
Qed.

Module ObjFacts.
Import Obj.

Lemma rep_weaken σ σ' (F F' : loc → Prop) :
  (∀ l, F l → F' l) → preserves F σ σ' →
  ∀ h v, rep σ F h v → rep σ' F' h v.
Proof.
  intros HF Hp.
  apply (rep_mut σ F (λ h v, rep σ' F' h v) (λ hd d, rep_entries σ' F' hd d)).
  - intros v Hv. by constructor.
  - intros l hd d Hl Hhd _ IH. econstructor; eauto.
  - constructor.
  - intros k h v hd d _ IH1 _ IH2. by constructor.
Qed.

Lemma rep_entries_weaken σ σ' (F F' : loc → Prop) :
  (∀ l, F l → F' l) → preserves F σ σ' →
  ∀ hd d, rep_entries σ F hd d → rep_entries σ' F' hd d.
Proof.
  intros HF Hp.
  apply (rep_entries_mut σ F (λ h v, rep σ' F' h v)
           (λ hd d, rep_entries σ' F' hd d)).
  - intros v Hv. by constructor.
  - intros l hd d Hl Hhd _ IH. econstructor; eauto.
  - constructor.
  - intros k h v hd d _ IH1 _ IH2. by constructor.
Qed.

Lemma own_frame σ σ' :
  ∀ h v fp, own σ h v fp → preserves (λ l, l ∈ fp) σ σ' → own σ' h v fp.
Proof.
  apply (own_mut σ
           (λ h v fp, preserves (λ l, l ∈ fp) σ σ' → own σ' h v fp)
           (λ hd d fp, preserves (λ l, l ∈ fp) σ σ' → own_entries σ' hd d fp)).
  - intros v Hv _. by constructor.
  - intros l hd d fp Hhd _ IH Hl Hp. apply (own_ref σ' l hd d fp); [| |done].
    + eapply Hp; [|done]. by left.
    + apply IH. intros l' hd' Hin. apply Hp. by right.
  - intros _. constructor.
  - intros k h v hd d fp1 fp2 _ IH1 _ IH2 Hdis Hp. constructor; [| |done].
    + apply IH1. intros l hd' Hin. apply Hp, elem_of_app. by left.
    + apply IH2. intros l hd' Hin. apply Hp, elem_of_app. by right.
Qed.

Lemma own_entries_frame σ σ' :
  ∀ hd d fp, own_entries σ hd d fp → preserves (λ l, l ∈ fp) σ σ' →
  own_entries σ' hd d fp.
Proof.
  apply (own_entries_mut σ
           (λ h v fp, preserves (λ l, l ∈ fp) σ σ' → own σ' h v fp)
           (λ hd d fp, preserves (λ l, l ∈ fp) σ σ' → own_entries σ' hd d fp)).
  - intros v Hv _. by constructor.
  - intros l hd d fp Hhd _ IH Hl Hp. apply (own_ref σ' l hd d fp); [| |done].
    + eapply Hp; [|done]. by left.
    + apply IH. intros l' hd' Hin. apply Hp. by right.
  - intros _. constructor.
  - intros k h v hd d fp1 fp2 _ IH1 _ IH2 Hdis Hp. constructor; [| |done].
    + apply IH1. intros l hd' Hin. apply Hp, elem_of_app. by left.
    + apply IH2. intros l hd' Hin. apply Hp, elem_of_app. by right.
Qed.

Lemma own_rep σ : ∀ h v fp, own σ h v fp → rep σ (λ l, l ∈ fp) h v.
Proof.
  apply (own_mut σ (λ h v fp, rep σ (λ l, l ∈ fp) h v)
           (λ hd d fp, rep_entries σ (λ l, l ∈ fp) hd d)).
  - intros v Hv. by constructor.
  - intros l hd d fp Hhd _ IH Hl. econstructor; [by left|done|].
    eapply rep_entries_weaken; [| |exact IH]; [by right|by intros ???].
  - constructor.
  - intros k h v hd d fp1 fp2 _ IH1 _ IH2 _. constructor.
    + eapply rep_weaken; [| |exact IH1]; [|by intros ???].
      intros l ?. apply elem_of_app. by left.
    + eapply rep_entries_weaken; [| |exact IH2]; [|by intros ???].
      intros l ?. apply elem_of_app. by right.
Qed.

Lemma preserves_trans (P : loc → Prop) σ1 σ2 σ3 :
  preserves P σ1 σ2 → preserves P σ2 σ3 → preserves P σ1 σ3.
Proof. intros H1 H2 l hd Hl Hhd. eapply H2; [done|]. by eapply H1. Qed.

Lemma preserves_mono (P Q : loc → Prop) σ σ' :
  (∀ l, Q l → P l) → preserves P σ σ' → preserves Q σ σ'.
Proof. intros HPQ H l hd Hl. apply H. by apply HPQ. Qed.

Lemma preserves_alloc (P : loc → Prop) σ hd : preserves P σ (σ ++ [hd]).
Proof. intros l hd' _ H. by apply lookup_app_l_Some. Qed.

Lemma preserves_app (P : loc → Prop) σ ext : preserves P σ (σ ++ ext).
Proof. intros l hd' _ H. by apply lookup_app_l_Some. Qed.

Lemma preserves_insert (P : loc → Prop) (σ : store) a hd :
  ¬ P a → preserves P σ (<[a := hd]> σ).
Proof.
  intros Ha l hd' Hl H.
  assert (a ≠ l) as Hne by (intros ->; contradiction).
  by rewrite list_lookup_insert_ne.
Qed.

Lemma rep_entries_lookup σ F hd d k :
  rep_entries σ F hd d →
  match lookup k hd, lookup k d with
  | Some h, Some v => rep σ F h v
  | None, None => True
  | _, _ => False
  end.
Proof.
  induction 1 as [|k' h v hd d Hh _ IH]; simpl; [done|].
  by destruct (key_eqb k k').
Qed.

Lemma rep_entries_keys σ F hd d : rep_entries σ F hd d → keys hd = keys d.
Proof. induction 1; simpl; [done|]. by f_equal. Qed.

Lemma rep_entries_nonempty σ F hd d :
  rep_entries σ F hd d → nonempty hd = nonempty d.
Proof. by destruct 1. Qed.

Lemma rep_entries_snoc σ F hd d k h v :
  rep_entries σ F hd d → rep σ F h v →
  rep_entries σ F (hd ++ [(k, h)]) (d ++ [(k, v)]).
Proof.
  induction 1; intros Hh; simpl.
  - constructor; [done|constructor].
  - constructor; [done|]. by apply IHrep_entries.
Qed.

Lemma rep_ref_inv σ F l v :
  rep σ F (HRef l) v →
  ∃ hd d, v = VDict d ∧ F l ∧ σ !! l = Some hd ∧ rep_entries σ F hd d.
Proof. inversion 1; subst. eauto 10. Qed.

Lemma rep_leaf_inv σ F x v : rep σ F (HLeaf x) v → v = x ∧ is_dict x = false.
Proof. by inversion 1; subst. Qed.


Lemma own_entries_mix σ Fb rem hd d fp :
  own_entries σ hd d fp → mix σ Fb rem hd d fp.
Proof. induction 1; [constructor|]. by apply mix_own. Qed.

Lemma mix_rep_entries σ Fb rem hd d fp :
  mix σ Fb rem hd d fp → rep_entries σ (λ l, l ∈ fp ∨ Fb l) hd d.
Proof.
  induction 1 as [|k h v hd d fp1 fp2 Hown _ IH _
                  |k h v hd d fp1 fp2 _ Hrep _ IH _].
  - constructor.
  - constructor.
    + eapply rep_weaken; [| |by apply own_rep]; [|by intros ???].
      intros l ?. left. apply elem_of_app. by left.
    + eapply rep_entries_weaken; [| |exact IH]; [|by intros ???].
      intros l [?|?]; [left|by right]. apply elem_of_app. by right.
  - constructor.
    + eapply rep_weaken; [| |exact Hrep]; [|by intros ???].
      intros l [?|?]; [left|by right]. apply elem_of_app. by left.
    + eapply rep_entries_weaken; [| |exact IH]; [|by intros ???].
      intros l [?|?]; [left|by right]. apply elem_of_app. by right.
Qed.

Lemma mix_frame σ σ' Fb rem rem' hd d fp :
  mix σ Fb rem hd d fp →
  (∀ k, k ∈ rem' → k ∈ rem) →
  preserves (λ l, l ∈ fp ∨ Fb l) σ σ' →
  mix σ' Fb rem' hd d fp.
Proof.
  intros Hmix Hrem. induction Hmix as [|k h v hd d fp1 fp2 Hown _ IH Hdis
                                      |k h v hd d fp1 fp2 Hk Hrep _ IH Hdis];
    intros Hp.
  - constructor.
  - apply mix_own; [| |done].
    + eapply own_frame; [done|].
      eapply preserves_mono; [|exact Hp]. intros l ?. left.
      apply elem_of_app. by left.
    + apply IH. eapply preserves_mono; [|exact Hp].
      intros l [?|?]; [left|by right]. apply elem_of_app. by right.
  - apply mix_done; [| | |done].
    + intros ?. by apply Hk, Hrem.
    + eapply rep_weaken; [| |exact Hrep]; [done|].
      eapply preserves_mono; [|exact Hp].
      intros l [?|?]; [left|by right]. apply elem_of_app. by left.
    + apply IH. eapply preserves_mono; [|exact Hp].
      intros l [?|?]; [left|by right]. apply elem_of_app. by right.
Qed.

Lemma mix_snoc σ Fb rem hd d fp k h v :
  mix σ Fb rem hd d fp → k ∉ rem → rep σ Fb h v →
  mix σ Fb rem (hd ++ [(k, h)]) (d ++ [(k, v)]) fp.
Proof.
  intros Hmix Hk Hrep. induction Hmix; simpl.
  - change (@nil loc) with (@nil loc ++ []). apply mix_done; [done| |constructor|].
    + eapply rep_weaken; [| |exact Hrep]; [by right|by intros ???].
    + intros l Hl. by apply elem_of_nil in Hl.
  - by apply mix_own.
  - by apply mix_done.
Qed.

(** Visiting the key [k] of an entry that refers to an object: the entry
    is owned, and stays in the mix once it stands for [t']. *)
Lemma mix_process σ Fb rem rem' k a' :
  (∀ k', k' ∈ rem' → k' ∈ rem) → k ∈ rem → k ∉ rem' →
  ∀ hd d fp, mix σ Fb rem hd d fp →
  (∀ l, l ∈ fp → ¬ Fb l) →
  lookup k hd = Some (HRef a') →
  ∃ ta' fpk,
    lookup k d = Some (VDict ta') ∧
    own σ (HRef a') (VDict ta') fpk ∧
    (∀ l, l ∈ fpk → l ∈ fp) ∧
    ∀ σ' t',
      preserves (λ l, l ∉ fpk) σ σ' →
      rep σ' (λ l, l ∈ fpk ∨ Fb l) (HRef a') t' →
      mix σ' Fb rem' hd (set_item k t' d) fp.
Proof.
  intros Hrem Hk Hk'.
  induction 1 as [|k0 h v hd d fp1 fp2 Hown Hmix IH Hdis
                  |k0 h v hd d fp1 fp2 Hk0 Hrep Hmix IH Hdis];
    intros HFb Hlook; simpl in *.
  - done.
  - key_cases k k0.
    + inversion Hlook; subst. inversion Hown; subst.
      eexists _, _. split; [done|]. split; [exact Hown|]. split.
      { intros l' ?. apply elem_of_app. by left. }
      intros σ' t' Hp Hrep. apply mix_done; [done|done| |done].
      eapply mix_frame; [exact Hmix|done|].
      eapply preserves_mono; [|exact Hp].
      intros l' [Hl|Hl] Hin.
      * by apply (Hdis l').
      * apply (HFb l'); [|done]. apply elem_of_app. by left.
    + destruct IH as (ta' & fpk & Hd & Hown' & Hsub & Hcont); [|done|].
      { intros l' ?. apply HFb, elem_of_app. by right. }
      exists ta', fpk. split; [done|]. split; [done|]. split.
      { intros l' ?. apply elem_of_app. right. by apply Hsub. }
      intros σ' t' Hp Hrep. apply mix_own; [| |done].
      * eapply own_frame; [done|]. eapply preserves_mono; [|exact Hp].
        intros l' Hl Hin. apply (Hdis l'); [done|]. by apply Hsub.
      * by apply Hcont.
  - key_cases k k0; [done|].
    destruct IH as (ta' & fpk & Hd & Hown' & Hsub & Hcont); [|done|].
    { intros l' ?. apply HFb, elem_of_app. by right. }
    exists ta', fpk. split; [done|]. split; [done|]. split.
    { intros l' ?. apply elem_of_app. right. by apply Hsub. }
    intros σ' t' Hp Hrep'. apply mix_done; [| | |done].
    + intros ?. by apply Hk0, Hrem.
    + eapply rep_weaken; [| |exact Hrep]; [done|].
      eapply preserves_mono; [|exact Hp].
      intros l' [Hl|Hl] Hin.
      * apply (Hdis l'); [done|]. by apply Hsub.
      * apply (HFb l'); [|done]. apply elem_of_app. right. by apply Hsub.
    + by apply Hcont.
Qed.

Section Loop.
Variable n : nat.
Hypothesis IHn : ∀ σ a b ta tb fa Fb,
  own σ (HRef a) (VDict ta) fa →
  rep σ Fb (HRef b) (VDict tb) →
  (∀ l, l ∈ fa → ¬ Fb l) →
  wf_value (VDict tb) = true →
  depth (VDict tb) ≤ n →
  merge_post n σ a b ta tb fa Fb.

Variables (a b : loc) (hdb : hdict) (tb : dict).
Variables (Fb : loc → Prop) (fp : list loc).
Hypothesis Ha_fp : a ∉ fp.
Hypothesis Ha_Fb : ¬ Fb a.
Hypothesis Hb_Fb : Fb b.
Hypothesis Hfp_Fb : ∀ l, l ∈ fp → ¬ Fb l.

Lemma merge_loop_spec : ∀ bs σ hda da,
  σ !! a = Some hda → σ !! b = Some hdb →
  rep_entries σ Fb hdb tb →
  mix σ Fb (keys bs) hda da fp →
  NoDup (keys bs) →
  (∀ k bv, (k, bv) ∈ bs → lookup k tb = Some bv) →
  Forall (λ kv, wf_value kv.2 = true ∧ depth kv.2 ≤ n) bs →
  ∃ σ' hda',
    merge_loop (merge n) a b (length hdb) (keys bs) σ = Ok σ' ∧
    σ' !! a = Some hda' ∧
    σ' !! b = Some hdb ∧
    length σ ≤ length σ' ∧
    preserves (λ l, l ∉ a :: fp) σ σ' ∧
    rep_entries σ' (λ l, l ∈ fp ∨ Fb l) hda' (merge_fold bs da).
Proof.
  induction bs as [|[k bv] bs IH]; intros σ hda da Hσa Hσb Hb Hmix Hnd Hbs Hall.
  - exists σ, hda. simpl. unfold deref. rewrite Hσb. simpl.
    rewrite Nat.eqb_refl. simpl.
    split_and!; [done|done|done|done|by intros ???|].
    by eapply mix_rep_entries.
  - change (keys ((k, bv) :: bs)) with (k :: keys bs) in *.
    apply NoDup_cons in Hnd as [Hk Hnd].
    apply Forall_cons in Hall as [[Hwf Hdepth] Hall]. simpl in Hwf, Hdepth.
    assert (lookup k tb = Some bv) as Hkb by (apply Hbs; left).
    pose proof (rep_entries_lookup σ Fb hdb tb k Hb) as Hkb'.
    rewrite Hkb in Hkb'.
    destruct (lookup k hdb) as [hbv|] eqn:Hkhb; [|done].
    pose proof (rep_entries_lookup _ _ hda da k (mix_rep_entries _ _ _ _ _ _ Hmix))
      as Hka.
    assert (∀ σ2 hda2 da2,
              σ2 !! a = Some hda2 → σ2 !! b = Some hdb →
              length σ ≤ length σ2 →
              preserves (λ l, l ∉ a :: fp) σ σ2 →
              preserves Fb σ σ2 →
              mix σ2 Fb (keys bs) hda2 da2 fp →
              da2 = merge_key merge_rec da k bv →
              ∃ σ' hda',
                merge_loop (merge n) a b (length hdb) (keys bs) σ2 = Ok σ' ∧
                σ' !! a = Some hda' ∧ σ' !! b = Some hdb ∧
                length σ ≤ length σ' ∧
                preserves (λ l, l ∉ a :: fp) σ σ' ∧
                rep_entries σ' (λ l, l ∈ fp ∨ Fb l) hda'
                  (merge_fold ((k, bv) :: bs) da)) as Hnext.
    { intros σ2 hda2 da2 Hσ2a Hσ2b Hlen Hp HpF Hmix2 ->.
      destruct (IH σ2 hda2 (merge_key merge_rec da k bv) Hσ2a Hσ2b)
        as (σ' & hda' & ? & ? & ? & ? & ? & ?);
        [|done|done| |done|].
      - eapply rep_entries_weaken; [| |exact Hb]; done.
      - intros k' bv' ?. apply Hbs. by right.
      - exists σ', hda'. split_and!; [done|done|done|lia| |done].
        by eapply preserves_trans. }
    cbn [merge_loop keys map fst]. unfold deref at 1. rewrite Hσb.
    cbn [bind]. rewrite Nat.eqb_refl. cbn [negb].
    unfold deref at 1. rewrite Hσa. cbn [bind].
    unfold item. rewrite Hkhb. cbn [bind].
    destruct (lookup k hda) as [av|] eqn:Hkha.
    + destruct (lookup k da) as [v|] eqn:Hkda; [|done].
      destruct av as [x|a'].
      * (* a leaf in [a]: nothing happens *)
        apply rep_leaf_inv in Hka as [-> Hx]. cbn [bind].
        apply (Hnext σ hda da); try done.
        -- by intros ???.
        -- by intros ???.
        -- eapply mix_frame; [done| |by intros ???].
           intros k' ?. by right.
        -- unfold merge_key. rewrite Hkda. by destruct x.
      * destruct hbv as [y|b'].
        -- (* a leaf in [b]: nothing happens *)
           apply rep_leaf_inv in Hkb' as [-> Hy]. cbn [bind].
           apply (Hnext σ hda da); try done.
           ++ by intros ???.
           ++ by intros ???.
           ++ eapply mix_frame; [done| |by intros ???].
              intros k' ?. by right.
           ++ unfold merge_key. rewrite Hkda. destruct v; try done.
              by destruct y.
        -- (* two mappings: the call *)
           apply rep_ref_inv in Hkb' as (hdb' & tb' & -> & HFb' & Hσb' & Hb').
           destruct (mix_process σ Fb (k :: keys bs) (keys bs) k a')
             with (hd := hda) (d := da) (fp := fp)
             as (ta' & fpk & Hkda' & Hown' & Hsub & Hcont);
             [by intros; right|by left|done|done|done|done|].
           rewrite Hkda in Hkda'. inversion Hkda'; subst v.
           destruct (IHn σ a' b' ta' tb' fpk Fb) as
             (σ' & hda'' & Hm & Hσ'a' & Hlen & Hp & Hrep'); [done| | |done|done|].
           { econstructor; eauto. }
           { intros l ?. apply Hfp_Fb. by apply Hsub. }
           rewrite Hm. cbn [bind].
           assert (preserves (λ l, l ∉ fpk) σ (σ' ++ [hda''])) as Hp2.
           { eapply preserves_trans; [exact Hp|apply preserves_alloc]. }
           apply (Hnext (σ' ++ [hda'']) hda
                    (set_item k (VDict (value_merge ta' tb')) da)).
           ++ apply Hp2; [|done]. intros ?. apply Ha_fp. by apply Hsub.
           ++ apply Hp2; [|done]. intros ?. apply (Hfp_Fb b); [|done].
              by apply Hsub.
           ++ rewrite length_app. simpl. lia.
           ++ eapply preserves_mono; [|exact Hp2].
              intros l Hl Hin. apply Hl. right. by apply Hsub.
           ++ eapply preserves_mono; [|exact Hp2].
              intros l Hl Hin. apply (Hfp_Fb l); [|done]. by apply Hsub.
           ++ apply Hcont; [done|].
              eapply rep_weaken; [| |exact Hrep']; [done|].
              by apply preserves_alloc.
           ++ unfold merge_key. by rewrite Hkda.
    + (* a new key: [a[key] = b[key]] *)
      destruct (lookup k da) as [v|] eqn:Hkda; [done|].
      cbn [bind].
      assert (a < length σ) as Halt by (by eapply lookup_lt_Some).
      assert (a ≠ b) as Hab by (intros ->; contradiction).
      apply (Hnext (<[a := hda ++ [(k, hbv)]]> σ) (hda ++ [(k, hbv)])
               (da ++ [(k, bv)])).
      * by apply list_lookup_insert_eq.
      * by rewrite list_lookup_insert_ne.
      * by rewrite length_insert.
      * apply preserves_insert. intros H. apply H. by left.
      * by apply preserves_insert.
      * apply mix_snoc; [|done|].
        -- eapply mix_frame; [done|by intros; right|].
           apply preserves_insert. intros [?|?]; contradiction.
        -- eapply rep_weaken; [| |exact Hkb']; [done|].
           by apply preserves_insert.
      * unfold merge_key. by rewrite Hkda.
Qed.
End Loop.

(** [merge] on separated arguments: [a] is owned, and no object of [a] is
    among those of [b]. *)
Lemma merge_spec (n : nat) : ∀ σ a b ta tb fa Fb,
  own σ (HRef a) (VDict ta) fa →
  rep σ Fb (HRef b) (VDict tb) →
  (∀ l, l ∈ fa → ¬ Fb l) →
  wf_value (VDict tb) = true →
  depth (VDict tb) ≤ n →
  merge_post n σ a b ta tb fa Fb.
Proof.
  induction n as [|n IHn]; intros σ a b ta tb fa Fb Hown Hrep Hdis Hwf Hdepth.
  { pose proof (depth_dict_pos tb). lia. }
  inversion Hown as [|a0 hda ta0 fp Hσa Hents Ha_fp]; subst.
  apply rep_ref_inv in Hrep as (hdb & tb0 & Heq & Hb_Fb & Hσb & Hb).
  inversion Heq; subst tb0. clear Heq.
  assert (¬ Fb a) as Ha_Fb by (apply Hdis; by left).
  pose proof (own_entries_mix σ Fb (keys tb) _ _ _ Hents) as Hmix.
  pose proof (mix_rep_entries _ _ _ _ _ _ Hmix) as Ha.
  unfold merge_post. cbn [merge]. unfold deref. rewrite Hσa, Hσb. cbn [bind].
  rewrite (rep_entries_nonempty _ _ _ _ Ha), (rep_entries_nonempty _ _ _ _ Hb).
  rewrite merge_unfold.
  destruct (negb (nonempty ta && nonempty tb)) eqn:Hemp.
  - exists σ, hda. split_and!; [done|done|done|by intros ???|].
    eapply rep_weaken; [| |by apply own_rep]; [by left|by intros ???].
  - apply wf_value_dict in Hwf as [Hnd Hwf].
    apply depth_dict in Hdepth.
    destruct (merge_loop_spec n IHn a b hdb tb Fb fp) with (bs := tb)
      (σ := σ) (hda := hda) (da := ta)
      as (σ' & hda' & Hloop & Hσ'a & Hσ'b & Hlen & Hp & Hents');
      try done.
    + intros l ?. apply Hdis. by right.
    + intros k bv ?. by apply lookup_NoDup_elem.
    + apply Forall_forall. intros kv Hin. split.
      * by eapply Forall_forall in Hwf.
      * by eapply Forall_forall in Hdepth.
    + rewrite (rep_entries_keys _ _ _ _ Hb). rewrite Hloop. cbn [bind].
      rewrite Hσ'a. cbn [bind]. exists σ', hda'.
      split_and!; [done|done|done|done|].
      econstructor; [by left; left|done|].
      eapply rep_entries_weaken; [| |exact Hents']; [|by intros ???].
      intros l [?|?]; [left; by right|by right].
Qed.

(** *** Loaded documents *)

Lemma load_entries_spec (d : dict) : ∀ σ,
  Forall (λ kv, ∀ σ, load_post kv.2 σ) d →
  ∃ fp ext,
    (load_entries load d σ).1 = σ ++ ext ∧
    own_entries (load_entries load d σ).1 (load_entries load d σ).2 d fp ∧
    (∀ l, l ∈ fp → length σ ≤ l < length (load_entries load d σ).1).
Proof.
  induction d as [|[k x] d IH]; intros σ Hall.
  - exists [], []. simpl. rewrite app_nil_r. split_and!; [done|constructor|].
    intros l H. by apply elem_of_nil in H.
  - apply Forall_cons in Hall as [Hx Hall]. simpl in Hx.
    destruct (Hx σ) as (fp1 & ext1 & Hext1 & Hown1 & Hfp1).
    cbn [load_entries]. destruct (load x σ) as [σ1 h] eqn:Hload. simpl in *.
    destruct (IH σ1 Hall) as (fp2 & ext2 & Hext2 & Hown2 & Hfp2).
    fold (load_entries load) in *.
    destruct (load_entries load d σ1) as [σ2 hd] eqn:Hloads. simpl in *.
    exists (fp1 ++ fp2), (ext1 ++ ext2). subst σ1 σ2.
    split_and!.
    + by rewrite app_assoc.
    + constructor; [|done|].
      * eapply own_frame; [done|]. apply preserves_app.
      * intros l H1 H2. apply Hfp1 in H1. apply Hfp2 in H2. lia.
    + intros l [H|H]%elem_of_app.
      * apply Hfp1 in H. rewrite !length_app in *. lia.
      * apply Hfp2 in H. rewrite !length_app in *. lia.
Qed.

Lemma load_spec (v : value) : ∀ σ, load_post v σ.
Proof.
  induction v as [| | | | |d IH] using value_ind'; intros σ;
    try (exists [], []; simpl; rewrite app_nil_r;
         split_and!; [done|by constructor|];
         intros l' H; by apply elem_of_nil in H).
  destruct (load_entries_spec d σ IH) as (fp & ext & Hext & Hown & Hfp).
  unfold load_post. cbn [load].
  destruct (load_entries load d σ) as [σ' hd]. simpl in *. subst σ'.
  exists (length (σ ++ ext) :: fp), (ext ++ [hd]). split_and!.
  - by rewrite app_assoc.
  - econstructor.
    + by apply list_lookup_middle.
    + eapply own_entries_frame; [done|]. apply preserves_app.
    + intros H. apply Hfp in H. lia.
  - intros l [->|H]%elem_of_cons.
    + rewrite !length_app. simpl. lia.
    + apply Hfp in H. rewrite !length_app in *. simpl. lia.
Qed.

Lemma load_dict_ref (d : dict) (σ : store) :
  ∃ σ' l, load (VDict d) σ = (σ', HRef l).
Proof. cbn [load]. destruct (load_entries load d σ). eauto. Qed.

(** A represented document is read back. *)
Lemma read_rep σ F : ∀ n h v, rep σ F h v → depth v ≤ n → read n σ h = Some v.
Proof.
  induction n as [|n IH]; intros h v Hrep Hdepth.
  - inversion Hrep as [|l hd d HF Hσ Hents]; subst; [done|].
    pose proof (depth_dict_pos d). lia.
  - inversion Hrep as [|l hd d HF Hσ Hents]; subst; [done|].
    cbn [read]. rewrite Hσ. apply depth_dict in Hdepth.
    assert (read_entries (read n σ) hd = Some d) as ->; [|done].
    clear Hrep Hσ. induction Hents as [|k h v hd d Hh Hents IHe]; [done|].
    apply Forall_cons in Hdepth as [Hv Hd]. simpl in Hv.
    cbn [read_entries]. rewrite (IH _ _ Hh Hv).
    fold (read_entries (read n σ)). by rewrite (IHe Hd).
Qed.


End ObjFacts.

(** ** The merge rule *)

Lemma lookup_merge_keep (a b : dict) (k : key) (av : value) :
  lookup k a = Some av → is_dict av = false → lookup k (merge a b) = Some av.
Proof.
  intros Ha Hav. rewrite merge_unfold.
  destruct (negb (nonempty a && nonempty b)); [done|].
  by apply lookup_merge_fold_keep.
Qed.

Lemma merge_nonempty_l (a b : dict) : a ≠ [] → merge a b ≠ [].
Proof.
  intros Ha. rewrite merge_unfold.
  destruct (negb (nonempty a && nonempty b)); [done|].
  unfold merge_fold. revert a Ha.
  induction b as [|[k bv] b IH]; intros a Ha; [done|].
  simpl. apply IH. by apply merge_key_nonempty.
Qed.



(** C3, at the input where the code departs from it: with an empty first
    argument [merge] returns an empty mapping, whatever the second
    argument holds, and not a copy of the second argument. *)
Theorem merge_empty_first_drops_second :
  (∀ b : dict, merge [] b = []) ∧
  Obj.merge 1000 0 1 [[]; [(KStr "b", Obj.HLeaf (VInt 1))]]
  = Ok ([[]; [(KStr "b", Obj.HLeaf (VInt 1))]; []], 2).
Proof. split; [apply merge_empty_l|reflexivity]. Qed.




(** ** The merge of a fact list on objects *)

(** The merge of mappings with distinct keys has distinct keys, and is
    not nested deeper than they are. *)
Lemma merge_wf_depth (vb : value) : ∀ a,
  wf_value (VDict a) = true → wf_value vb = true →
  match vb with
  | VDict b =>
      wf_value (VDict (merge a b)) = true ∧
      ∀ n, depth (VDict a) ≤ n → depth vb ≤ n →
           depth (VDict (merge a b)) ≤ n
  | _ => True
  end.
Proof.
  induction vb as [| | | | |b IH] using value_ind'; try done.
  intros a Hwfa Hwfb.
  destruct (negb (nonempty a && nonempty b)) eqn:Hempty.
  { rewrite merge_unfold, Hempty. by split. }
  apply negb_false_iff, andb_true_iff in Hempty as [Ha Hb].
  assert (a ≠ []) as Hane by (by destruct a).
  assert (b ≠ []) as Hbne by (by destruct b).
  pose proof Hwfa as [Hnda Halla]%wf_value_dict.
  pose proof Hwfb as [Hndb Hallb]%wf_value_dict.
  pose proof (merge_keys_NoDup a b Hnda Hndb) as Hndm.
  assert (∀ k v, (k, v) ∈ merge a b →
            (∃ a' b', (k, VDict a') ∈ a ∧ (k, VDict b') ∈ b ∧
                      v = VDict (merge a' b')) ∨
            (k, v) ∈ a ∨ (k, v) ∈ b) as Hcases.
  { intros k v Hin. apply lookup_NoDup_elem in Hin; [|done].
    rewrite lookup_merge in Hin by done.
    destruct (lookup k a) as [av|] eqn:Hka, (lookup k b) as [bv|] eqn:Hkb;
      try apply lookup_Some_elem in Hka; try apply lookup_Some_elem in Hkb.
    - destruct av as [| | | | |da];
        try (inversion Hin; subst; right; by left).
      destruct bv as [| | | | |db];
        try (inversion Hin; subst; right; by left).
      inversion Hin; subst. left. by exists da, db.
    - right. left. destruct av; inversion Hin; by subst.
    - right. right. inversion Hin; by subst.
    - done. }
  split.
  - apply wf_value_dict. split; [done|]. apply Forall_forall.
    intros [k v] Hin. simpl.
    destruct (Hcases k v Hin) as [(a' & b' & Ha' & Hb' & ->)|[Hin'|Hin']].
    + pose proof (proj1 (Forall_forall _ _) IH _ Hb') as IHk.
      pose proof (proj1 (Forall_forall _ _) Halla _ Ha') as Hwa.
      pose proof (proj1 (Forall_forall _ _) Hallb _ Hb') as Hwb.
      simpl in IHk, Hwa, Hwb. by apply (IHk a' Hwa Hwb).
    + by apply (proj1 (Forall_forall _ _) Halla _ Hin').
    + by apply (proj1 (Forall_forall _ _) Hallb _ Hin').
  - intros n Hda Hdb. destruct n as [|n].
    { pose proof (depth_dict_pos a). lia. }
    apply depth_dict in Hda, Hdb. apply depth_dict, Forall_forall.
    intros [k v] Hin. simpl.
    destruct (Hcases k v Hin) as [(a' & b' & Ha' & Hb' & ->)|[Hin'|Hin']].
    + pose proof (proj1 (Forall_forall _ _) IH _ Hb') as IHk.
      pose proof (proj1 (Forall_forall _ _) Halla _ Ha') as Hwa.
      pose proof (proj1 (Forall_forall _ _) Hallb _ Hb') as Hwb.
      pose proof (proj1 (Forall_forall _ _) Hda _ Ha') as Hna.
      pose proof (proj1 (Forall_forall _ _) Hdb _ Hb') as Hnb.
      simpl in IHk, Hwa, Hwb, Hna, Hnb.
      by apply (IHk a' Hwa Hwb).
    + by apply (proj1 (Forall_forall _ _) Hda _ Hin').
    + by apply (proj1 (Forall_forall _ _) Hdb _ Hin').
Qed.

(** The objects that a document owns are objects of the store. *)
Lemma own_fp_lt σ : ∀ h v fp, Obj.own σ h v fp → ∀ l, l ∈ fp → l < length σ.
Proof.
  apply (Obj.own_mut σ (λ h v fp, ∀ l, l ∈ fp → l < length σ)
           (λ hd d fp, ∀ l, l ∈ fp → l < length σ)).
  - intros v _ l Hl. by apply elem_of_nil in Hl.
  - intros l hd d fp Hσ _ IH _ x [->|Hx]%elem_of_cons.
    + by eapply lookup_lt_Some.
    + by apply IH.
  - intros l Hl. by apply elem_of_nil in Hl.
  - intros k h v hd d fp1 fp2 _ IH1 _ IH2 _ l [?|?]%elem_of_app; auto.
Qed.

Lemma owned_list_frame σ σ' (F : Obj.loc → Prop) ls ds :
  Obj.owned_list σ F ls ds →
  ∀ F' : Obj.loc → Prop,
    Obj.preserves (λ x, ¬ F x) σ σ' →
    (∀ x, F' x → F x ∨ length σ ≤ x) →
    Obj.owned_list σ' F' ls ds.
Proof.
  induction 1 as [|F l d fp ls ds Hown Hdis _ IH]; intros F' Hp HF.
  - constructor.
  - apply (Obj.owned_cons σ' F' l d fp).
    + eapply ObjFacts.own_frame; [done|].
      eapply ObjFacts.preserves_mono; [|exact Hp]. simpl. intros x Hx.
      by apply Hdis.
    + intros x Hx HF'. destruct (HF x HF') as [?|Hlen].
      * by apply (Hdis x).
      * pose proof (own_fp_lt _ _ _ _ Hown x Hx). lia.
    + apply IH.
      * eapply ObjFacts.preserves_mono; [|exact Hp]. simpl.
        intros x Hx HFx. apply Hx. by right.
      * intros x [?|HF']; [left; by left|].
        destruct (HF x HF'); [left; by right|by right].
Qed.

(** Mappings loaded one after the other share no object. *)
Lemma load_all_spec : ∀ ds σ0 σ1 ls,
  Obj.load_all ds σ0 = (σ1, ls) →
  (∃ ext, σ1 = σ0 ++ ext) ∧ Obj.owned_list σ1 (λ x, x < length σ0) ls ds.
Proof.
  induction ds as [|d ds IH]; intros σ0 σ1 ls H; cbn [Obj.load_all] in H.
  - inversion H; subst. split; [exists []; by rewrite app_nil_r|constructor].
  - destruct (ObjFacts.load_spec (VDict d) σ0) as (fp & ext & Hext & Hown & Hfp).
    cbn [Obj.load] in Hext, Hown, Hfp.
    destruct (Obj.load_entries Obj.load d σ0) as [σa hd].
    cbn [fst snd] in Hext, Hown, Hfp.
    destruct (Obj.load_all ds (σa ++ [hd])) as [σ2 ls'] eqn:Hall.
    inversion H; subst σ2 ls. clear H.
    apply IH in Hall as [[ext2 Hext2] Htail].
    split; [exists (ext ++ ext2); by rewrite Hext2, Hext, app_assoc|].
    apply (Obj.owned_cons σ1 _ (length σa) d fp).
    + eapply ObjFacts.own_frame; [done|]. rewrite Hext2.
      apply ObjFacts.preserves_app.
    + intros x Hx Hlt. apply Hfp in Hx. lia.
    + eapply owned_list_frame; [exact Htail|by intros ???|].
      intros x [Hx|Hx]; left; simpl; [apply Hfp in Hx; lia|].
      rewrite Hext, length_app. lia.
Qed.

(** The comprehension copies the top of each mapping that is not empty. *)
Lemma fact_copies_spec : ∀ ds ls σ (F : Obj.loc → Prop),
  Obj.owned_list σ F ls ds → (∀ x, F x → x < length σ) →
  ∃ σ' ls',
    Obj.fact_copies ls σ = Ok (σ', ls') ∧
    Obj.preserves (λ _, True) σ σ' ∧ length σ ≤ length σ' ∧
    Obj.owned_list σ' F ls' (List.filter nonempty ds).
Proof.
  induction ds as [|d ds IH]; intros ls σ F Hlist HF;
    inversion Hlist as [|l ? fp ls0 ? Hown Hdis Htail]; subst.
  - exists σ, []. split_and!; [done|by intros ???|done|constructor].
  - inversion Hown as [|? hd ? fp0 Hσ Hents Hl]; subst.
    assert (nonempty hd = nonempty d) as Hne by (by destruct Hents).
    cbn [Obj.fact_copies]. unfold Obj.copy at 1, Obj.deref at 1.
    rewrite Hσ. cbn [bind Obj.alloc]. unfold Obj.deref at 1.
    rewrite list_lookup_middle by done. cbn [bind]. rewrite Hne.
    cbn [List.filter].
    assert (∀ x, x ∈ l :: fp0 → x < length σ) as Hfp.
    { by apply (own_fp_lt _ _ _ _ Hown). }
    destruct (nonempty d).
    + unfold Obj.copy, Obj.deref.
      rewrite (lookup_app_l_Some _ _ _ _ Hσ). cbn [bind Obj.alloc].
      set (σ2 := (σ ++ [hd]) ++ [hd]).
      set (f := length (σ ++ [hd])).
      assert (Obj.preserves (λ _, True) σ σ2) as Hp.
      { intros x hx _ Hx. unfold σ2. rewrite <- app_assoc.
        by apply lookup_app_l_Some. }
      assert (length σ2 = S (S (length σ))) as Hlen2.
      { unfold σ2. rewrite !length_app. simpl. lia. }
      assert (f = S (length σ)) as Hf.
      { unfold f. rewrite length_app. simpl. lia. }
      destruct (IH ls0 σ2 (λ x, x ∈ f :: fp0 ∨ F x))
        as (σ' & ls' & Hcopies & Hp' & Hlen' & Hlist').
      { eapply owned_list_frame; [exact Htail| |].
        - eapply ObjFacts.preserves_mono; [|exact Hp]. done.
        - intros x [[->|Hx]%elem_of_cons|HFx].
          + right. lia.
          + left. left. by right.
          + left. by right. }
      { intros x [[->|Hx]%elem_of_cons|HFx].
        - lia.
        - assert (x < length σ) by (apply Hfp; by right). lia.
        - apply HF in HFx. lia. }
      rewrite Hcopies. cbn [bind app].
      exists σ', (f :: ls'). split_and!; [done| |lia|].
      { eapply ObjFacts.preserves_trans; [exact Hp|exact Hp']. }
      apply (Obj.owned_cons σ' F f d (f :: fp0)); [| |done].
      * apply (Obj.own_ref σ' f hd d fp0).
        -- apply Hp'; [done|]. unfold σ2, f. by apply list_lookup_middle.
        -- eapply ObjFacts.own_entries_frame; [exact Hents|].
           eapply ObjFacts.preserves_mono;
             [|eapply ObjFacts.preserves_trans; [exact Hp|exact Hp']]. done.
        -- intros Hin. assert (f < length σ) by (apply Hfp; by right). lia.
      * intros x [->|Hx]%elem_of_cons HFx.
        -- apply HF in HFx. lia.
        -- apply (Hdis x); [by right|done].
    + cbn [bind].
      destruct (IH ls0 (σ ++ [hd]) F)
        as (σ' & ls' & Hcopies & Hp' & Hlen' & Hlist').
      { eapply owned_list_frame; [exact Htail|apply ObjFacts.preserves_alloc|].
        intros x HFx. left. by right. }
      { intros x HFx. apply HF in HFx. rewrite length_app. simpl. lia. }
      rewrite Hcopies. cbn [bind app].
      exists σ', ls'. split_and!; [done| | |done].
      * eapply ObjFacts.preserves_trans; [|exact Hp'].
        apply ObjFacts.preserves_alloc.
      * rewrite length_app in Hlen'. simpl in Hlen'. lia.
Qed.

(** The loop of the merges, for facts that share no object. *)
Lemma merge_facts_spec (fuel : nat) : ∀ ds ls σ vars acc (Fb : Obj.loc → Prop),
  Obj.owned_list σ Fb ls ds →
  Obj.rep σ Fb (Obj.HRef vars) (VDict acc) →
  wf_value (VDict acc) = true →
  (ds ≠ [] → depth (VDict acc) ≤ fuel) →
  Forall (λ d, wf_value (VDict d) = true ∧ depth (VDict d) ≤ fuel) ds →
  ∃ σ' r (F' : Obj.loc → Prop),
    Obj.merge_facts fuel ls vars σ = Ok (σ', r) ∧
    Obj.rep σ' F' (Obj.HRef r)
      (VDict (fold_left (λ vars fact_vars, merge fact_vars vars) ds acc)).
Proof.
  induction ds as [|d ds IH]; intros ls σ vars acc Fb Hlist Hrep Hwf Hdepth Hall;
    inversion Hlist as [|l ? fp ls0 ? Hown Hdis Htail]; subst.
  - by exists σ, vars, Fb.
  - apply Forall_cons in Hall as [[Hwfd Hdd] Hall].
    specialize (Hdepth ltac:(done)).
    destruct (ObjFacts.merge_spec fuel σ l vars d acc fp Fb)
      as (σ' & hda' & Hm & Hσ'l & Hlen & Hp & Hrep'); try done.
    cbn [Obj.merge_facts fold_left]. rewrite Hm. cbn [bind].
    pose proof (merge_wf_depth (VDict acc) d Hwfd Hwf) as [Hwfm Hdm].
    apply ObjFacts.rep_ref_inv in Hrep' as (hd & m & Hm' & _ & Hhd & Hents).
    inversion Hm'; subst m. clear Hm'.
    assert (hd = hda') as -> by congruence.
    apply (IH ls0 (σ' ++ [hda']) (length σ') (merge d acc)
             (λ x, x = length σ' ∨ x ∈ fp ∨ Fb x)).
    + eapply owned_list_frame; [exact Htail| |].
      * eapply ObjFacts.preserves_trans; [|apply ObjFacts.preserves_alloc].
        eapply ObjFacts.preserves_mono; [|exact Hp]. simpl.
        intros x Hx Hin. apply Hx. by left.
      * intros x [->|[?|?]]; [by right|left; by left|left; by right].
    + apply (Obj.rep_ref _ _ (length σ') hda' (merge d acc)); [by left| |].
      * by apply list_lookup_middle.
      * eapply ObjFacts.rep_entries_weaken; [| |exact Hents].
        -- intros x ?. by right.
        -- apply ObjFacts.preserves_alloc.
    + done.
    + intros _. by apply Hdm.
    + done.
Qed.

(** The comprehension on values, for entries whose [set_fact] is a
    mapping (an entry without [set_fact] has the empty one). *)
Lemma facts_of_set_facts (l : list value) (sfs : list dict) :
  Forall2 (λ f sf, obj_get f (KStr "set_fact") (VDict []) = Ok (VDict sf))
    l sfs →
  facts_of l = Ok (List.filter nonempty sfs).
Proof.
  induction 1 as [|f sf l sfs Hf _ IH]; [done|].
  cbn [facts_of List.filter]. unfold set_fact_of. rewrite Hf.
  cbn [bind to_dict]. rewrite IH.
  by destruct (nonempty sf).
Qed.

(** The declared variables of a fact list whose mappings are loaded one
    after the other: the objects read as the merge on values. *)
Lemma declared_facts_loaded (sfs : list dict) (fuel : nat)
    (σ0 σ1 : Obj.store) (locs : list Obj.loc) :
  Forall (λ sf, wf_value (VDict sf) = true ∧ depth (VDict sf) ≤ fuel) sfs →
  Obj.load_all sfs σ0 = (σ1, locs) →
  ∃ σ' r,
    Obj.declared_facts fuel locs σ1 = Ok (σ', r) ∧
    ∀ n, depth (VDict (merge_facts (List.filter nonempty sfs))) ≤ n →
         Obj.read n σ' (Obj.HRef r)
         = Some (VDict (merge_facts (List.filter nonempty sfs))).
Proof.
  intros Hall Hload. apply load_all_spec in Hload as [[ext Hext] Hlist].
  assert (length σ0 ≤ length σ1) as Hle by (rewrite Hext, length_app; lia).
  clear ext Hext. unfold Obj.declared_facts. cbn [Obj.alloc].
  destruct (fact_copies_spec sfs locs (σ1 ++ [[]])
              (λ x, x < length σ0 ∨ x = length σ1))
    as (σ2 & facts & Hcopies & Hp & Hlen & Hfacts).
  { eapply owned_list_frame; [exact Hlist|apply ObjFacts.preserves_alloc|].
    intros x [?| ->]; [by left|by right]. }
  { intros x [Hx| ->]; rewrite length_app; simpl; lia. }
  rewrite Hcopies. cbn [bind].
  destruct (merge_facts_spec fuel (List.filter nonempty sfs) facts σ2
              (length σ1) [] (λ x, x < length σ0 ∨ x = length σ1))
    as (σ' & r & F' & Hm & Hrep); [done| |done| | |].
  - apply (Obj.rep_ref _ _ (length σ1) [] []); [by right| |constructor].
    apply Hp; [done|]. by apply list_lookup_middle.
  - intros Hne. destruct fuel as [|fuel]; [|simpl; lia].
    destruct (List.filter nonempty sfs) as [|d ds] eqn:Hf; [done|].
    assert (In d (List.filter nonempty sfs)) as Hin by (rewrite Hf; by left).
    apply filter_In in Hin as [Hin _]. apply list_elem_of_In in Hin.
    destruct (proj1 (Forall_forall _ _) Hall d Hin) as [_ Hd].
    pose proof (depth_dict_pos d). lia.
  - apply Forall_forall. intros d Hin.
    apply list_elem_of_In, filter_In in Hin as [Hin _].
    apply list_elem_of_In in Hin.
    by apply (proj1 (Forall_forall _ _) Hall d Hin).
  - exists σ', r. split; [exact Hm|]. intros n Hn.
    by eapply ObjFacts.read_rep.
Qed.

(** ** Declared variables of a fact list *)

Lemma facts_of_nonempty (l : list value) : ∀ facts,
  facts_of l = Ok facts → Forall (λ f, f ≠ []) facts.
Proof.
  induction l as [|x l IH]; intros facts H; simpl in H.
  - inversion H. constructor.
  - destruct (set_fact_of x) as [c|] eqn:Hc; [|done]. cbn [bind] in H.
    destruct (facts_of l) as [rest|] eqn:Hrest.
    + specialize (IH rest eq_refl).
      destruct (nonempty c) eqn:Hne; cbn [bind] in H.
      * inversion H; subst. constructor; [|done]. by destruct c.
      * by inversion H; subst.
    + by destruct (nonempty c); cbn [bind] in H.
Qed.

Lemma merge_facts_snoc (facts : list dict) (f : dict) :
  merge_facts (facts ++ [f]) = merge f (merge_facts facts).
Proof. unfold merge_facts. by rewrite fold_left_app. Qed.

Lemma merge_facts_lookup_last (pre post : list dict) (f : dict) k v :
  Forall (λ g, g ≠ []) post →
  lookup k f = Some v → is_dict v = false →
  Forall (λ g, lookup k g = None) post →
  lookup k (merge_facts (pre ++ f :: post)) = Some v.
Proof.
  intros Hne Hf Hv. induction post as [|g post IH] using rev_ind; intros Hpost.
  - rewrite merge_facts_snoc. by apply lookup_merge_keep.
  - apply Forall_app in Hne as [Hne Hg]. apply Forall_app in Hpost as [Hpost Hkg].
    apply List.Forall_inv in Hg. apply List.Forall_inv in Hkg.
    specialize (IH Hne Hpost).
    replace (pre ++ f :: post ++ [g]) with ((pre ++ f :: post) ++ [g])
      by (by rewrite <- app_assoc).
    rewrite merge_facts_snoc. rewrite merge_nonempty; [|done|].
    + by apply lookup_merge_fold_new.
    + intros Hnil. by rewrite Hnil in IH.
Qed.

Lemma merge_facts_lookup_none (facts : list dict) k :
  Forall (λ g, lookup k g = None) facts →
  lookup k (merge_facts facts) = None.
Proof.
  induction facts as [|g facts IH] using rev_ind; intros Hall; [done|].
  apply Forall_app in Hall as [Hall Hg]. apply List.Forall_inv in Hg.
  rewrite merge_facts_snoc, merge_unfold.
  destruct (negb (nonempty g && nonempty (merge_facts facts))); [done|].
  rewrite lookup_merge_fold_absent; [done|]. by apply IH.
Qed.

(** C1 does not hold: of two entries that set [a], the declared value is
    the one of the later entry. *)
Lemma later_fact_overrides_earlier :
  let definition_data :=
    VList [VDict [(KStr "set_fact", VDict [(KStr "a", VInt 1)])];
           VDict [(KStr "set_fact", VDict [(KStr "a", VInt 2)])]] in
  declared_vars definition_data = Ok [(KStr "a", VInt 2)] ∧
  ¬ (∀ vars, declared_vars definition_data = Ok vars →
             lookup (KStr "a") vars = Some (VInt 1)).
Proof.
  split; [reflexivity|]. intros H.
  specialize (H _ eq_refl). discriminate.
Qed.

(** C1, amended.  For a definition file parsed as a sequence whose
    entries share no mapping (no YAML alias), the declared variables are
    the merge, in file order, of the non-empty [set_fact] mappings of the
    entries, each entry being merged as the first argument onto what the
    entries before it gave: a later entry keeps its value on a key
    conflict, and an earlier entry only fills the keys that no later
    entry has.  This is what the loop computes on the objects of the
    loaded document, with its shallow copies and its updates in place,
    when the mappings are objects of their own.  A mapping that two
    entries share is updated in place, and is then seen updated wherever
    it occurs: the last conjunct is such a document. *)
Theorem fact_list_later_entry_wins (l : list value) (facts : list dict) :
  facts_of l = Ok facts →
  declared_vars (VList l) = Ok (merge_facts facts) ∧
  merge_facts [] = [] ∧
  (∀ pre f, merge_facts (pre ++ [f]) = merge f (merge_facts pre)) ∧
  (∀ pre f post k v,
     facts = pre ++ f :: post →
     lookup k f = Some v → is_dict v = false →
     Forall (λ g, lookup k g = None) post →
     lookup k (merge_facts facts) = Some v) ∧
  (∀ k, Forall (λ g, lookup k g = None) facts →
        lookup k (merge_facts facts) = None) ∧
  (∀ (sfs : list dict) (fuel : nat) (σ0 σ1 : list Obj.hdict) (locs : list nat),
     Forall2 (λ f sf, obj_get f (KStr "set_fact") (VDict []) = Ok (VDict sf))
       l sfs →
     Forall (λ sf, wf_value (VDict sf) = true ∧ depth (VDict sf) ≤ fuel) sfs →
     Obj.load_all sfs σ0 = (σ1, locs) →
     ∃ σ' r,
       Obj.declared_facts fuel locs σ1 = Ok (σ', r) ∧
       ∀ n, depth (VDict (merge_facts facts)) ≤ n →
            Obj.read n σ' (Obj.HRef r) = Some (VDict (merge_facts facts))) ∧
  (let shared := [(KStr "b", Obj.HLeaf (VInt 2))] in
   let σ := [shared;
             [(KStr "a", Obj.HLeaf (VInt 1))];
             [(KStr "x", Obj.HRef 0); (KStr "y", Obj.HRef 1)];
             [(KStr "y", Obj.HRef 0)]] in
   ∃ σ' r,
     Obj.declared_facts 1000 [2; 3] σ = Ok (σ', r) ∧
     Obj.read 2 σ' (Obj.HRef r)
     = Some (VDict [(KStr "y", VDict [(KStr "b", VInt 2); (KStr "a", VInt 1)]);
                    (KStr "x", VDict [(KStr "b", VInt 2); (KStr "a", VInt 1)])]) ∧
     merge_facts [[(KStr "x", VDict [(KStr "b", VInt 2)]);
                   (KStr "y", VDict [(KStr "a", VInt 1)])];
                  [(KStr "y", VDict [(KStr "b", VInt 2)])]]
     = [(KStr "y", VDict [(KStr "b", VInt 2); (KStr "a", VInt 1)]);
        (KStr "x", VDict [(KStr "b", VInt 2)])]).
Proof.
  intros Hfacts. split_and!.
  - unfold declared_vars, definition_vars. by rewrite Hfacts.
  - done.
  - apply merge_facts_snoc.
  - intros pre f post k v -> Hf Hv Hpost.
    apply facts_of_nonempty in Hfacts.
    apply Forall_app in Hfacts as [_ Hne].
    apply Forall_cons in Hne as [_ Hne].
    by apply merge_facts_lookup_last.
  - apply merge_facts_lookup_none.
  - intros sfs fuel σ0 σ1 locs Hsfs Hall Hload.
    apply facts_of_set_facts in Hsfs. rewrite Hfacts in Hsfs.
    inversion Hsfs; subst facts.
    by eapply declared_facts_loaded.
  - cbv zeta. eexists _, _. split_and!; reflexivity.
Qed.

Lemma fact_list_later_entry_wins_witness :
  declared_vars
    (VList [VDict [(KStr "set_fact", VDict [(KStr "a", VInt 1); (KStr "b", VInt 5)])];
            VDict [(KStr "set_fact", VDict [(KStr "a", VInt 2)])]])
  = Ok [(KStr "a", VInt 2); (KStr "b", VInt 5)] ∧
  ∃ σ' r,
    Obj.declared_facts 1000 [0; 1]
      [[(KStr "a", Obj.HLeaf (VInt 1)); (KStr "b", Obj.HLeaf (VInt 5))];
       [(KStr "a", Obj.HLeaf (VInt 2))]]
    = Ok (σ', r) ∧
    Obj.read 1 σ' (Obj.HRef r)
    = Some (VDict [(KStr "a", VInt 2); (KStr "b", VInt 5)]).
Proof.
  destruct (fact_list_later_entry_wins
              [VDict [(KStr "set_fact", VDict [(KStr "a", VInt 1); (KStr "b", VInt 5)])];
               VDict [(KStr "set_fact", VDict [(KStr "a", VInt 2)])]]
              [[(KStr "a", VInt 1); (KStr "b", VInt 5)]; [(KStr "a", VInt 2)]]
              eq_refl) as (Hvars & _ & _ & _ & _ & Hobj & _).
  split; [exact Hvars|].
  destruct (Hobj [[(KStr "a", VInt 1); (KStr "b", VInt 5)]; [(KStr "a", VInt 2)]]
              1000 []
              [[(KStr "a", Obj.HLeaf (VInt 1)); (KStr "b", Obj.HLeaf (VInt 5))];
               [(KStr "a", Obj.HLeaf (VInt 2))]]
              [0; 1]) as (σ' & r & Hd & Hread).
  - repeat (apply List.Forall2_cons || apply List.Forall2_nil); reflexivity.
  - repeat (apply List.Forall_cons || apply List.Forall_nil);
      (split; [reflexivity|simpl; lia]).
  - reflexivity.
  - exists σ', r. split; [exact Hd|]. apply Hread. simpl. lia.
Defined.

(** ** Classification maps *)

(** C4 does not hold: a path that names no file gives an empty map, and
    construction succeeds. *)
Lemma missing_class_map_file_is_not_fatal :
  init (λ _, NoFile) "site" "example.com" (VStr "maps/os.yaml") (VStr "")
  = Ok {| site_directory := "site";
          site_definitions_directory := "site/definitions";
          environment_domain := "example.com";
          os_class_map := VDict [];
          sub_group_map := VDict [] |}.
Proof. reflexivity. Qed.

Lemma load_class_map_path (files : string → fsnode) (p : string) :
  p ≠ "" →
  load_class_map files (VStr p) =
  match files p with
  | NoFile | Directory => Ok (VDict [])
  | Inaccessible | Unreadable => Raise OSError
  | Malformed => Raise YAMLError
  | Doc v => obj_get v (KStr "data") (VDict [])
  end.
Proof.
  intros Hp. unfold load_class_map, is_file, read_yaml_file. simpl.
  destruct (String.eqb p "") eqn:E; [by apply String.eqb_eq in E|]. simpl.
  by destruct (files p).
Qed.

(** C4, amended.  When a classification-map value is a non-empty string,
    construction fails if the path cannot be examined or names a file
    that cannot be read (an [OSError]), or a file whose content is
    malformed YAML (a [YAMLError]); when nothing is at the path, or a
    directory is, construction does not fail on it and the map is empty.
    The generator has the site directory as [pathlib] writes it. *)
Theorem class_map_path_loading
    (files : string → fsnode) (site dom p : string) (other : value) :
  p ≠ "" →
  (files p = Malformed →
     init files site dom (VStr p) other = Raise YAMLError ∧
     ∀ m, load_class_map files other = Ok m →
          init files site dom other (VStr p) = Raise YAMLError) ∧
  (files p = Unreadable ∨ files p = Inaccessible →
     init files site dom (VStr p) other = Raise OSError ∧
     ∀ m, load_class_map files other = Ok m →
          init files site dom other (VStr p) = Raise OSError) ∧
  (files p = NoFile ∨ files p = Directory →
     load_class_map files (VStr p) = Ok (VDict []) ∧
     ∀ m, load_class_map files other = Ok m →
          init files site dom (VStr p) other
          = Ok {| site_directory := as_posix site;
                  site_definitions_directory := joinpath site "definitions";
                  environment_domain := dom;
                  os_class_map := VDict [];
                  sub_group_map := m |} ∧
          init files site dom other (VStr p)
          = Ok {| site_directory := as_posix site;
                  site_definitions_directory := joinpath site "definitions";
                  environment_domain := dom;
                  os_class_map := m;
                  sub_group_map := VDict [] |}) ∧
  as_posix "site/" = "site" ∧ joinpath "site/" "definitions" = "site/definitions".
Proof.
  intros Hp. pose proof (load_class_map_path files p Hp) as Hload.
  split_and!; [| | |done|done].
  - intros Hf. rewrite Hf in Hload. unfold init. rewrite Hload.
    split; [done|]. intros m ->. done.
  - intros Hf.
    assert (load_class_map files (VStr p) = Raise OSError) as Herr.
    { rewrite Hload. by destruct Hf as [-> | ->]. }
    unfold init. rewrite Herr. split; [done|]. intros m ->. done.
  - intros Hf.
    assert (load_class_map files (VStr p) = Ok (VDict [])) as Hempty.
    { rewrite Hload. by destruct Hf as [-> | ->]. }
    split; [done|]. intros m Hm. unfold init. by rewrite Hempty, Hm.
Qed.

Lemma class_map_path_loading_witness :
  init (λ p, if String.eqb p "maps/os.yaml" then Malformed else NoFile)
    "site" "example.com" (VStr "maps/os.yaml") (VStr "")
  = Raise YAMLError.
Proof.
  refine (proj1 (proj1 (class_map_path_loading
            (λ p, if String.eqb p "maps/os.yaml" then Malformed else NoFile)
            "site" "example.com" "maps/os.yaml" (VStr "") _) _));
    [discriminate|reflexivity].
Defined.

(** ** Host records *)

(** C5, at the inputs where the code departs from it.  Only a
    [TypeError] raised while the variables are taken from the loaded
    document is caught.  A mapping with no key [0] raises [KeyError], a
    sequence with an entry that is no mapping raises [AttributeError],
    and a file that cannot be read or parsed raises before the [try]:
    each of them ends the whole run, although the second definition file
    of the site is sound.  A [set_fact] that is no mapping is caught, and
    both hosts are listed. *)
Theorem definition_file_error_aborts_run :
  host_record
    (demo_files (Doc (VDict [(KStr "vars", VDict [(KStr "a", VInt 1)])])))
    (λ _, "") demo_generator
    ("site/definitions/web/lxr3-dck-01.yaml", "lxr3-dck-01.example.com",
     Some "lxr3-dck-01")
  = Raise KeyError ∧
  demo_inventory (Doc (VDict [(KStr "vars", VDict [(KStr "a", VInt 1)])]))
  = Raise KeyError ∧
  demo_inventory (Doc (VList [VStr "not a mapping"])) = Raise AttributeError ∧
  demo_inventory Unreadable = Raise OSError ∧
  demo_inventory Malformed = Raise YAMLError ∧
  all_hosts <$> (match demo_inventory
                         (Doc (VList [VDict [(KStr "set_fact", VInt 5)]])) with
                 | Ok o => Some o
                 | Raise _ => None
                 end)
  = Some [VStr "lxr3-dck-01"; VStr "lxr3-dck-02"].
Proof. split_and!; reflexivity. Qed.

Lemma host_record_inv files cstr self r0 r1 r2 rec :
  host_record files cstr self (r0, r1, r2) = Ok (Some rec) →
  ∃ doc vars short cls,
    read_yaml_file files r0 = Ok doc ∧
    declared_vars doc = Ok vars ∧
    r2 = Some short ∧
    classify self (record_name r0 r1) (path_name (path_parent r0))
    = Ok (Some cls) ∧
    rec = connection_fields cstr
            (merge (base_fields self cls (record_name r0 r1) short r0
                      (path_parent r0)) vars)
            (record_name r0 r1) short.
Proof.
  unfold host_record. intros H.
  destruct (read_yaml_file files r0) as [doc|]; [|done]. cbn [bind] in H.
  destruct (declared_vars doc) as [vars|] eqn:Hvars; [|done]. cbn [bind] in H.
  destruct r2 as [short|]; [|done]. cbn [bind] in H.
  destruct (classify self (record_name r0 r1) (path_name (path_parent r0)))
    as [[cls|]|]; [|done|done].
  cbn [bind] in H. inversion H. by exists doc, vars, short, cls.
Qed.

Lemma lookup_connection_fields_other cstr host_data hostname short (k : key) :
  k ≠ KStr "ansible_ssh_host" → k ≠ KStr "ansible_winrm_host" →
  k ≠ KStr "ansible_host" →
  lookup k (connection_fields cstr host_data hostname short) = lookup k host_data.
Proof.
  intros H1 H2 H3. unfold connection_fields.
  repeat match goal with
         | |- context [if ?b then _ else _] => destruct b
         end;
    by rewrite ?lookup_set_item_ne by done.
Qed.

Lemma connection_fields_qemu cstr host_data hostname short :
  lookup (KStr "system_type") host_data = Some (VStr "qemu") →
  lookup (KStr "ansible_host") (connection_fields cstr host_data hostname short)
  = Some (VStr short) ∧
  lookup (KStr "ansible_ssh_host")
    (connection_fields cstr host_data hostname short)
  = Some (VStr short).
Proof.
  intros Hq. unfold connection_fields.
  set (hd1 := if truthy _ then _ else _).
  assert (lookup (KStr "system_type") hd1 = Some (VStr "qemu")) as ->.
  { unfold hd1. destruct (truthy _); by rewrite ?lookup_set_item_ne by done. }
  simpl. split.
  - rewrite lookup_set_item_ne by done. apply lookup_set_item_eq.
  - apply lookup_set_item_eq.
Qed.

(** C7. A host record whose merged variables have [system_type] equal to
    ["qemu"] (the record yielded has the [system_type] of the merged
    variables) has [ansible_host] and [ansible_ssh_host] equal to the
    short hostname, whatever [ansible_real_host] is. *)
Theorem qemu_uses_short_hostname
    (files : string → fsnode) (cstr : value → string)
    (self : InventoryGenerator) (r0 r1 short : string) (rec : dict) :
  host_record files cstr self (r0, r1, Some short) = Ok (Some rec) →
  lookup (KStr "system_type") rec = Some (VStr "qemu") →
  lookup (KStr "ansible_host") rec = Some (VStr short) ∧
  lookup (KStr "ansible_ssh_host") rec = Some (VStr short).
Proof.
  intros Hrec Hq.
  apply host_record_inv in Hrec
    as (doc & vars & short' & cls & _ & _ & Hs & _ & ->).
  inversion Hs; subst short'.
  rewrite lookup_connection_fields_other in Hq by done.
  by apply connection_fields_qemu.
Qed.

Lemma qemu_uses_short_hostname_witness :
  ∃ rec,
    host_record (demo_files qemu_host) (λ _, "") demo_generator
      ("site/definitions/web/lxr3-dck-01.yaml", "lxr3-dck-01.example.com",
       Some "lxr3-dck-01") = Ok (Some rec) ∧
    lookup (KStr "ansible_real_host") rec = Some (VStr "10.0.0.7") ∧
    lookup (KStr "ansible_host") rec = Some (VStr "lxr3-dck-01") ∧
    lookup (KStr "ansible_ssh_host") rec = Some (VStr "lxr3-dck-01").
Proof.
  eexists. split; [reflexivity|]. split; [reflexivity|].
  apply (qemu_uses_short_hostname (demo_files qemu_host) (λ _, "")
           demo_generator "site/definitions/web/lxr3-dck-01.yaml"
           "lxr3-dck-01.example.com" "lxr3-dck-01");
    reflexivity.
Defined.

(** *** Hosts that are skipped *)

Lemma split_nonempty (sep : ascii) (s : string) : split sep s ≠ [].
Proof.
  induction s as [|c s IH]; simpl; [done|].
  destruct (Ascii.eqb c sep); [done|]. by destruct (split sep s).
Qed.

Lemma split_length_one (sep : ascii) (s : string) :
  length (split sep s) = 1 ↔ contains sep s = false.
Proof.
  induction s as [|c s IH]; simpl; [done|].
  pose proof (split_nonempty sep s) as Hne.
  destruct (Ascii.eqb c sep); simpl.
  - split; [|done]. destruct (split sep s); [done|]. simpl. lia.
  - rewrite <- IH. by destruct (split sep s).
Qed.

Lemma classify_skip self (hostname primary_group : string) :
  hostname ≠ "localhost" → contains "-" hostname = false →
  classify self hostname primary_group = Ok None.
Proof.
  intros Hl Hc. unfold classify.
  destruct (String.eqb hostname "localhost") eqn:E;
    [by apply String.eqb_eq in E|].
  apply split_length_one in Hc. by rewrite Hc.
Qed.

Lemma classify_yield self (hostname primary_group : string) cls :
  classify self hostname primary_group = Ok (Some cls) →
  hostname = "localhost" ∨ contains "-" hostname = true.
Proof.
  intros H. destruct (decide (hostname = "localhost")) as [|Hl]; [by left|].
  right. destruct (contains "-" hostname) eqn:Hc; [done|].
  by rewrite classify_skip in H.
Qed.

Lemma register_all_hosts host_record : ∀ names output output',
  register_all host_record output names = Ok output' →
  all_hosts output' = all_hosts output ++ names.
Proof.
  induction names as [|name names IH]; intros output output' H; simpl in H.
  - inversion H. by rewrite app_nil_r.
  - unfold register in H at 1.
    destruct (value_key name) as [k|]; [|done]. cbn [bind] in H.
    apply IH in H. rewrite H. simpl. by rewrite <- app_assoc.
Qed.

Lemma add_host_all_hosts output host_record output' :
  add_host output host_record = Ok output' →
  all_hosts output' = all_hosts output ++ record_names host_record.
Proof.
  unfold add_host, record_names. intros H.
  destruct (lookup (KStr "hostname") host_record) as [hostname|];
    [|done]. cbn [bind] in H.
  destruct (iterate _) as [aliases|]; [|done]. cbn [bind] in H.
  destruct (register_all host_record output aliases) as [o1|] eqn:H1;
    [|done]. cbn [bind] in H.
  apply register_all_hosts in H1. unfold register in H.
  destruct (value_key hostname) as [k|]; [|done]. cbn [bind] in H.
  inversion H; subst. simpl. rewrite H1. by rewrite <- app_assoc.
Qed.

Lemma add_hosts_all_hosts : ∀ host_data output output',
  add_hosts output host_data = Ok output' →
  all_hosts output' = all_hosts output ++ concat (map record_names host_data).
Proof.
  induction host_data as [|rec recs IH]; intros output output' H; simpl in H.
  - inversion H. simpl. by rewrite app_nil_r.
  - destruct (add_host output rec) as [o1|] eqn:H1; [|done]. cbn [bind] in H.
    apply add_host_all_hosts in H1. apply IH in H.
    rewrite H, H1. simpl. by rewrite <- app_assoc.
Qed.

Lemma host_records_elem files cstr self : ∀ ids recs err rec,
  host_records files cstr self ids = (recs, err) → rec ∈ recs →
  ∃ r, r ∈ ids ∧ host_record files cstr self r = Ok (Some rec).
Proof.
  induction ids as [|r ids IH]; intros recs err rec H Hin; simpl in H.
  - inversion H; subst. by apply elem_of_nil in Hin.
  - destruct (host_record files cstr self r) as [[rec0|]|] eqn:Hr.
    + destruct (host_records files cstr self ids) as [rest err'].
      inversion H; subst. apply elem_of_cons in Hin as [->|Hin].
      * exists r. split; [by left|done].
      * destruct (IH rest err rec eq_refl Hin) as (r' & ? & ?).
        exists r'. split; [by right|done].
    + destruct (IH recs err rec H Hin) as (r' & ? & ?).
      exists r'. split; [by right|done].
    + inversion H; subst. by apply elem_of_nil in Hin.
Qed.

(** C8 does not hold: the separator is looked for in the record name,
    which carries the environment domain.  With the domain
    [my-site.example.com] the host [standalone] gets a record and is
    listed. *)
Lemma undashed_host_listed_with_dashed_domain :
  let files := λ p, if String.eqb p "site/definitions/web/standalone.yaml"
                    then Doc VNone else NoFile in
  let ls := λ dir, if String.eqb dir "site/definitions" then ["web"]
                   else if String.eqb dir "site/definitions/web"
                        then ["standalone.yaml"] else [] in
  let self := {| site_directory := "site";
                 site_definitions_directory := "site/definitions";
                 environment_domain := "my-site.example.com";
                 os_class_map := VDict [];
                 sub_group_map := VDict [] |} in
  contains "-" "standalone" = false ∧
  traverse_site ls "my-site.example.com" "site/definitions"
  = ([("site/definitions/web/standalone.yaml",
       "standalone.my-site.example.com", Some "standalone")], None) ∧
  ∃ out rec,
    generate_inventory files ls (λ _, "") self None [] = Ok out ∧
    all_hosts out = [VStr "standalone"] ∧
    hostvars out = [(KStr "standalone", rec)] ∧
    lookup (KStr "fqdn") rec = Some (VStr "standalone.my-site.example.com").
Proof.
  split; [reflexivity|]. split; [reflexivity|].
  eexists _, _. split; [reflexivity|]. by split_and!.
Qed.

(** C8, amended.  A walked host whose record name (the fully qualified
    name, which ends with the environment domain, after [parent:] for a
    [child@parent] path) contains no [-] and is not [localhost] yields no
    record; and every name of [all.hosts] is the hostname or an alias of
    the record of a walked host whose record name is [localhost] or
    contains [-]. *)
Theorem undashed_record_name_skipped
    (files : string → fsnode) (ls : string → list string)
    (cstr : value → string) (self : InventoryGenerator)
    (r0 r1 : string) (r2 : option string) :
  contains "-" (record_name r0 r1) = false →
  record_name r0 r1 ≠ "localhost" →
  (∀ rec, host_record files cstr self (r0, r1, r2) ≠ Ok (Some rec)) ∧
  (∀ host_filter out name,
     generate_inventory files ls cstr self None host_filter = Ok out →
     name ∈ all_hosts out →
     ∃ r rec,
       r ∈ (traverse_site ls (environment_domain self)
              (site_definitions_directory self)).1 ∧
       host_record files cstr self r = Ok (Some rec) ∧
       name ∈ record_names rec ∧
       r ≠ (r0, r1, r2)).
Proof.
  intros Hc Hl.
  assert (∀ rec, host_record files cstr self (r0, r1, r2) ≠ Ok (Some rec))
    as Hskip.
  { intros rec H. apply host_record_inv in H
      as (doc & vars & short & cls & _ & _ & _ & Hcls & _).
    by rewrite classify_skip in Hcls. }
  split; [done|].
  intros host_filter out name Hinv Hname. unfold generate_inventory in Hinv.
  set (walked := traverse_site ls (environment_domain self)
                   (site_definitions_directory self)) in *.
  assert (∃ inv, (∀ r, r ∈ inv.1 → r ∈ walked.1) ∧
            (let '(host_data, err) :=
               generate_host_data files cstr self inv in
             bind (add_hosts {| all_hosts := []; hostvars := [] |} host_data)
               (λ output, match err with
                          | Some e => Raise e
                          | None => Ok output
                          end)) = Ok out) as (inv & Hsub & Hrun).
  { destruct (nonempty host_filter).
    - destruct walked as [ids [e|]] eqn:Hw; [done|]. cbn [bind] in Hinv.
      eexists. split; [|exact Hinv]. simpl.
      intros r Hr. by apply list_elem_of_filter in Hr as [_ Hr].
    - cbn [bind] in Hinv. exists walked. split; [done|exact Hinv]. }
  clear Hinv. unfold generate_host_data in Hrun.
  destruct (host_records files cstr self inv.1) as [recs err] eqn:Hrecs.
  assert (∃ err', bind (add_hosts {| all_hosts := []; hostvars := [] |} recs)
                    (λ output, match err' with
                               | Some e => Raise e
                               | None => Ok output
                               end) = Ok out) as [err' Hadd].
  { destruct err as [e|]; [by exists (Some e)|by exists inv.2]. }
  destruct (add_hosts _ recs) as [o|] eqn:Ho; [|done]. cbn [bind] in Hadd.
  destruct err'; [done|]. inversion Hadd; subst o.
  apply add_hosts_all_hosts in Ho. simpl in Ho. rewrite Ho in Hname.
  apply list_elem_of_In, in_concat in Hname as (names & Hnames & Hn).
  apply in_map_iff in Hnames as (rec & <- & Hrec).
  apply list_elem_of_In in Hrec. apply list_elem_of_In in Hn.
  destruct (host_records_elem _ _ _ _ _ _ _ Hrecs Hrec) as (r & Hr & Hrec').
  exists r, rec. split_and!; [by apply Hsub|done|done|].
  intros ->. by apply (Hskip rec).
Qed.

Lemma undashed_record_name_skipped_witness :
  contains "-" (record_name "site/definitions/web/standalone.yaml"
                  "standalone.example.com") = false ∧
  host_record (λ _, Doc VNone) (λ _, "") demo_generator
    ("site/definitions/web/standalone.yaml", "standalone.example.com",
     Some "standalone") = Ok None ∧
  ∀ rec,
    host_record (λ _, Doc VNone) (λ _, "") demo_generator
      ("site/definitions/web/standalone.yaml", "standalone.example.com",
       Some "standalone") ≠ Ok (Some rec).
Proof.
  split; [reflexivity|]. split; [reflexivity|].
  refine (proj1 (undashed_record_name_skipped (λ _, Doc VNone) demo_ls
                   (λ _, "") demo_generator
                   "site/definitions/web/standalone.yaml"
                   "standalone.example.com" (Some "standalone") _ _));
    [reflexivity|discriminate].
Defined.

(** *** Classification lists *)

Lemma mapM_first_key (cs : list value) : ∀ ks,
  mapM first_key cs = Ok ks → ks = map fst (concat (map first_entry cs)).
Proof.
  induction cs as [|c cs IH]; intros ks H; simpl in H.
  - by inversion H.
  - destruct (first_key c) as [k|] eqn:Hk; [|done]. cbn [bind] in H.
    destruct (mapM first_key cs) as [ks'|]; [|done]. cbn [bind] in H.
    inversion H; subst. rewrite (IH ks' eq_refl).
    destruct c as [| | | | |[|[k0 v0] d]]; try done.
    simpl in Hk. by inversion Hk.
Qed.

Lemma mapM_first_value (cs : list value) : ∀ vs,
  mapM first_value cs = Ok vs → vs = map snd (concat (map first_entry cs)).
Proof.
  induction cs as [|c cs IH]; intros vs H; simpl in H.
  - by inversion H.
  - destruct (first_value c) as [v|] eqn:Hv; [|done]. cbn [bind] in H.
    destruct (mapM first_value cs) as [vs'|]; [|done]. cbn [bind] in H.
    inversion H; subst. rewrite (IH vs' eq_refl).
    destruct c as [| | | | |[|[k0 v0] d]]; try done.
    simpl in Hv. by inversion Hv.
Qed.

Lemma class_column_first_key (class_map : value) (code : string) ks :
  class_column first_key class_map code = Ok ks →
  ks = map fst (class_pairs class_map code).
Proof.
  destruct class_map as [| | | | |items]; try done.
  unfold class_column, class_pairs.
  revert ks. induction items as [|[k v] items IH]; intros xs H.
  - by inversion H.
  - cbn [class_items] in H. cbn [map concat fst snd].
    destruct (iterate v) as [cs|] eqn:Hit; [|done]. cbn [bind] in H.
    destruct (key_eqb (KStr code) k).
    + destruct (mapM first_key cs) as [here|] eqn:Hh; [|done]. cbn [bind] in H.
      destruct (class_items first_key code items) as [rest|]; [|done].
      cbn [bind] in H. inversion H.
      by rewrite map_app, <- (IH rest eq_refl), (mapM_first_key _ _ Hh).
    + cbn [bind] in H.
      destruct (class_items first_key code items) as [rest|]; [|done].
      cbn [bind] in H. inversion H. cbn [app]. by rewrite <- (IH rest eq_refl).
Qed.

Lemma class_column_first_value (class_map : value) (code : string) vs :
  class_column first_value class_map code = Ok vs →
  vs = map snd (class_pairs class_map code).
Proof.
  destruct class_map as [| | | | |items]; try done.
  unfold class_column, class_pairs.
  revert vs. induction items as [|[k v] items IH]; intros xs H.
  - by inversion H.
  - cbn [class_items] in H. cbn [map concat fst snd].
    destruct (iterate v) as [cs|] eqn:Hit; [|done]. cbn [bind] in H.
    destruct (key_eqb (KStr code) k).
    + destruct (mapM first_value cs) as [here|] eqn:Hh; [|done]. cbn [bind] in H.
      destruct (class_items first_value code items) as [rest|]; [|done].
      cbn [bind] in H. inversion H.
      by rewrite map_app, <- (IH rest eq_refl), (mapM_first_value _ _ Hh).
    + cbn [bind] in H.
      destruct (class_items first_value code items) as [rest|]; [|done].
      cbn [bind] in H. inversion H. cbn [app]. by rewrite <- (IH rest eq_refl).
Qed.


Lemma classify_lists self (hostname primary_group : string) cls :
  hostname ≠ "localhost" →
  classify self hostname primary_group = Ok (Some cls) →
  let parts := split "-" hostname in
  let os := class_pairs (os_class_map self) (hd "" parts) in
  let sub := class_pairs (sub_group_map self) (nth 1 parts "") in
  cls = [(KStr "os_classes", VList (map fst os));
         (KStr "os_class_names", VList (map snd os));
         (KStr "sub_groups", VList (map fst sub));
         (KStr "sub_group_names", VList (map snd sub));
         (KStr "primary_group", VStr primary_group)].
Proof.
  intros Hl H. unfold classify in H.
  destruct (String.eqb hostname "localhost") eqn:E;
    [by apply String.eqb_eq in E|].
  pose proof (split_nonempty "-" hostname) as Hne.
  destruct (split "-" hostname) as [|p0 [|p1 parts]] eqn:Hparts; [done|done|].
  simpl in H |- *.
  destruct (class_column first_key (os_class_map self) p0) as [a1|] eqn:H1;
    [|done]. cbn [bind] in H.
  destruct (class_column first_value (os_class_map self) p0) as [a2|] eqn:H2;
    [|done]. cbn [bind] in H.
  destruct (class_column first_key (sub_group_map self) p1) as [a3|] eqn:H3;
    [|done]. cbn [bind] in H.
  destruct (class_column first_value (sub_group_map self) p1) as [a4|] eqn:H4;
    [|done]. cbn [bind] in H.
  apply class_column_first_key in H1, H3.
  apply class_column_first_value in H2, H4.
  inversion H. by subst.
Qed.

Lemma classify_localhost self (primary_group : string) :
  classify self "localhost" primary_group
  = Ok (Some [(KStr "primary_group", VStr "ansible_controller");
              (KStr "os_classes", VList [VStr "local"]);
              (KStr "sub_groups", VList [VStr "local"])]).
Proof. reflexivity. Qed.

(** A classification field is among the base fields, is kept by the merge
    and is not a connection field. *)
Lemma lookup_record_field self cstr cls hostname short file dir vars
    (k : key) (l : list value) :
  lookup k cls = Some (VList l) →
  k ≠ KStr "hostname" → k ≠ KStr "fqdn" → k ≠ KStr "definition_file" →
  k ≠ KStr "default_group_path" → k ≠ KStr "site_directory" →
  k ≠ KStr "environment_domain" → k ≠ KStr "ansible_host" →
  k ≠ KStr "ansible_ssh_host" → k ≠ KStr "ansible_winrm_host" →
  lookup k (connection_fields cstr
              (merge (base_fields self cls hostname short file dir) vars)
              hostname short)
  = Some (VList l).
Proof.
  intros Hk ? ? ? ? ? ? ? ? ?.
  rewrite lookup_connection_fields_other by done.
  apply lookup_merge_keep; [|done].
  unfold base_fields. by rewrite !lookup_set_item_ne by done.
Qed.




(** ** Strings and the synthetic pattern *)

Lemma append_assoc (s1 s2 s3 : string) :
  ((s1 ++ s2) ++ s3 = s1 ++ (s2 ++ s3))%string.
Proof. induction s1 as [|c s1 IH]; simpl; [done|]. by rewrite IH. Qed.

Lemma length_append (s1 s2 : string) :
  String.length (s1 ++ s2) = String.length s1 + String.length s2.
Proof. induction s1 as [|c s1 IH]; simpl; [done|]. by rewrite IH. Qed.

Lemma substring_prefix (s1 s2 : string) :
  substring 0 (String.length s1) (s1 ++ s2) = s1.
Proof.
  induction s1 as [|c s1 IH]; simpl; [by destruct s2|]. by rewrite IH.
Qed.

Lemma substring_consumed (s1 s2 : string) :
  substring 0 (String.length (s1 ++ s2) - String.length s2) (s1 ++ s2) = s1.
Proof.
  rewrite length_append.
  replace (String.length s1 + String.length s2 - String.length s2)
    with (String.length s1) by lia.
  apply substring_prefix.
Qed.

Lemma string_forall_append (P : ascii → bool) (s1 s2 : string) :
  string_forall P (s1 ++ s2) = string_forall P s1 && string_forall P s2.
Proof.
  induction s1 as [|c s1 IH]; simpl; [done|]. by rewrite IH, andb_assoc.
Qed.

Lemma string_forall_impl (P Q : ascii → bool) (s : string) :
  (∀ c, P c = true → Q c = true) →
  string_forall P s = true → string_forall Q s = true.
Proof.
  intros HPQ. induction s as [|c s IH]; simpl; [done|].
  intros [Hc Hs]%andb_true_iff. by rewrite (HPQ c Hc), IH.
Qed.

Lemma contains_forall (c : ascii) (s : string) :
  contains c s = false ↔ string_forall (λ x, negb (Ascii.eqb x c)) s = true.
Proof.
  induction s as [|x s IH]; simpl; [done|].
  rewrite orb_false_iff, andb_true_iff, negb_true_iff, IH. done.
Qed.

Lemma is_digit_cases (c : ascii) :
  is_digit c = true →
  cls_ok CAny c = true ∧ is_space c = false ∧
  Ascii.eqb c "[" = false ∧ Ascii.eqb c "]" = false ∧
  Ascii.eqb c "-" = false ∧ Ascii.eqb c "+" = false ∧
  Ascii.eqb c "_" = false ∧ (0 ≤ digit_val c ≤ 9)%Z.
Proof.
  destruct c as [[] [] [] [] [] [] [] []]; intros H; try discriminate H;
    vm_compute; repeat split; congruence.
Qed.

(** *** Greedy repetition *)

Section Star.
Context {R : Type}.
Implicit Types (k : string → option R).

(** A run of admissible characters is consumed when what follows
    matches. *)
Lemma star_skip cl (p rest : string) k r :
  string_forall (cls_ok cl) p = true →
  star cl rest k = Some r →
  star cl (p ++ rest) k = Some r.
Proof.
  intros Hp Hr. induction p as [|c p IH]; simpl in *; [done|].
  apply andb_true_iff in Hp as [Hc Hp]. by rewrite Hc, IH.
Qed.

(** No shorter run is tried when the rest of the pattern needs a
    character that the text does not have. *)
Lemma star_none cl (s : string) k (c0 : ascii) :
  contains c0 s = false →
  (∀ s', match s' with String c _ => c ≠ c0 | EmptyString => True end →
         k s' = None) →
  star cl s k = None.
Proof.
  intros Hs Hk. induction s as [|c s IH]; simpl in *.
  - by apply Hk.
  - apply orb_false_iff in Hs as [Hc Hs]. rewrite (IH Hs).
    assert (k (String c s) = None) as ->.
    { apply Hk. intros ->. by rewrite Ascii.eqb_refl in Hc. }
    by destruct (cls_ok cl c).
Qed.

Lemma star_stop cl (c : ascii) (s : string) k :
  cls_ok cl c = false → star cl (String c s) k = k (String c s).
Proof. intros H. simpl. by rewrite H. Qed.

End Star.

Lemma star_const {R} cl (s : string) (x : R) : star cl s (λ _, Some x) = Some x.
Proof.
  induction s as [|c s IH]; simpl; [done|]. rewrite IH.
  by destruct (cls_ok cl c).
Qed.

Lemma star_cons_ok {R} cl (c : ascii) (s : string) (k : string → option R) :
  cls_ok cl c = true →
  star cl (String c s) k =
  match star cl s k with Some r => Some r | None => k (String c s) end.
Proof. intros H. simpl. by rewrite H. Qed.

(** The bracketed part of the pattern, on a bracketed number [sa] that
    [mid] follows up to the closing bracket. *)
Lemma bracket_match {R} (sa mid : string) (caps : captures)
    (k : string → captures → option R) (r : R) :
  sa ≠ "" → string_forall is_digit sa = true →
  string_forall (cls_ok CAny) mid = true →
  match mid with
  | EmptyString => True
  | String m _ => is_digit m = false
  end →
  k ".yaml" caps = Some r →
  rmatch (RSeq (RCls (CChar "["))
            (RSeq (RPlus CDigit) (RSeq (RStar CAny) (RCls (CChar "]")))))
    ("[" ++ sa ++ mid ++ "]" ++ ".yaml") caps k = Some r.
Proof.
  intros Hsa Hdig Hmid Hm Hk.
  destruct sa as [|d sa']; [done|]. simpl in Hdig.
  apply andb_true_iff in Hdig as [Hd Hdig].
  cbn [rmatch String.append cls_ok Ascii.eqb Bool.eqb]. rewrite Hd.
  match goal with |- star CDigit _ ?k = _ => set (kd := k) end.
  assert (star CDigit (mid ++ "].yaml") kd = kd (mid ++ "].yaml")%string)
    as Hstop.
  { destruct mid as [|m mid']; [done|]. by apply star_stop. }
  apply star_skip; [done|]. rewrite Hstop. unfold kd.
  apply star_skip; [done|]. simpl. exact Hk.
Qed.

Lemma synthetic_match (prefix sa mid : string) :
  string_forall (cls_ok CAny) prefix = true →
  sa ≠ "" → string_forall is_digit sa = true →
  string_forall (λ c, cls_ok CAny c && negb (Ascii.eqb c "[")) mid = true →
  match mid with
  | EmptyString => True
  | String m _ => is_digit m = false
  end →
  re_match 2 synthetic_hostname_pattern
    (prefix ++ "[" ++ sa ++ mid ++ "]" ++ ".yaml")
  = Some [Some prefix; Some ("[" ++ sa ++ mid ++ "]")%string].
Proof.
  intros Hprefix Hsa Hdig Hmid Hm.
  assert (string_forall (cls_ok CAny) mid = true) as Hmid_any.
  { eapply string_forall_impl; [|exact Hmid].
    intros c Hc. by apply andb_true_iff in Hc as [? _]. }
  assert (contains "[" mid = false) as Hmid_br.
  { apply contains_forall. eapply string_forall_impl; [|exact Hmid].
    intros c Hc. by apply andb_true_iff in Hc as [_ ?]. }
  assert (contains "[" sa = false) as Hsa_br.
  { apply contains_forall. eapply string_forall_impl; [|exact Hdig].
    intros c Hc. apply is_digit_cases in Hc as (_ & _ & -> & _). done. }
  unfold re_match, synthetic_hostname_pattern.
  set (G := RSeq (RCls (CChar "[")) _).
  set (name := (prefix ++ "[" ++ sa ++ mid ++ "]" ++ ".yaml")%string).
  change (star CAny name
            (λ s', rmatch G s'
                     (<[0:=Some (substring 0 (String.length name - String.length s')
                                   name)]> [None; None])
                     (λ s'' caps',
                        star CAny s''
                          (λ _, Some (<[1:=Some (substring 0
                                                   (String.length s' -
                                                    String.length s'') s')]>
                                        caps'))))
          = Some [Some prefix; Some ("[" ++ sa ++ mid ++ "]")%string]).
  match goal with |- star _ _ ?k = _ => set (k0 := k) end.
  set (tail := ("[" ++ sa ++ mid ++ "]" ++ ".yaml")%string).
  assert (k0 tail = Some [Some prefix; Some ("[" ++ sa ++ mid ++ "]")%string])
    as Htail.
  { unfold k0, G. apply bracket_match; try done.
    rewrite star_const. unfold name. fold tail.
    rewrite substring_consumed.
    replace tail with (("[" ++ sa ++ mid ++ "]") ++ ".yaml")%string.
    - by rewrite substring_consumed.
    - unfold tail. simpl. f_equal. by rewrite !append_assoc. }
  unfold name. fold tail. apply star_skip; [done|].
  unfold tail at 1. change ("[" ++ ?x)%string with (String "[" x).
  rewrite star_cons_ok by done.
  rewrite (star_none CAny _ k0 "["); [exact Htail| |].
  - apply contains_forall. rewrite !string_forall_append.
    apply contains_forall in Hsa_br, Hmid_br. by rewrite Hsa_br, Hmid_br.
  - intros s' Hs'. unfold k0, G. destruct s' as [|c s']; [done|].
    cbn [rmatch cls_ok].
    destruct (Ascii.eqb_spec c "["); [done|done].
Qed.

(** *** Expanding a range *)

Lemma digits_value_digits (s : string) : ∀ acc sep,
  string_forall is_digit s = true → s ≠ "" ∨ sep = false →
  digits_value acc sep s = Some (decimal_acc acc s).
Proof.
  induction s as [|c s IH]; intros acc sep Hs Hne; simpl in *.
  - by destruct Hne as [?| ->].
  - apply andb_true_iff in Hs as [Hc Hs]. rewrite Hc.
    apply IH; [done|by right].
Qed.

Lemma lstrip_digits (s : string) :
  string_forall is_digit s = true → lstrip s = s.
Proof.
  destruct s as [|c s]; [done|]. simpl.
  intros [Hc _]%andb_true_iff.
  apply is_digit_cases in Hc as (_ & -> & _). done.
Qed.

Lemma rstrip_digits (s : string) :
  string_forall is_digit s = true → rstrip s = s.
Proof.
  induction s as [|c s IH]; [done|]. simpl.
  intros [Hc Hs]%andb_true_iff. rewrite (IH Hs).
  apply is_digit_cases in Hc as (_ & -> & _). by destruct s.
Qed.

Lemma int_of_string_digits (s : string) :
  s ≠ "" → string_forall is_digit s = true →
  int_of_string s = Ok (decimal s).
Proof.
  intros Hne Hs. unfold int_of_string.
  rewrite (lstrip_digits s Hs), (rstrip_digits s Hs).
  destruct s as [|c s']; [done|].
  pose proof Hs as Hs'. simpl in Hs'.
  apply andb_true_iff in Hs' as [Hc _].
  apply is_digit_cases in Hc as (_ & _ & _ & _ & -> & -> & _).
  by rewrite digits_value_digits by (done || by left).
Qed.

Lemma decimal_acc_nonneg (s : string) : ∀ acc,
  string_forall is_digit s = true → (0 ≤ acc)%Z → (0 ≤ decimal_acc acc s)%Z.
Proof.
  induction s as [|c s IH]; intros acc Hs Hacc; simpl in *; [done|].
  apply andb_true_iff in Hs as [Hc Hs]. apply IH; [done|].
  apply is_digit_cases in Hc as (_ & _ & _ & _ & _ & _ & _ & Hd).
  unfold digit_val in *. lia.
Qed.

Lemma delete_chars_append cs (s1 s2 : string) :
  delete_chars cs (s1 ++ s2) = (delete_chars cs s1 ++ delete_chars cs s2)%string.
Proof.
  induction s1 as [|c s1 IH]; simpl; [done|].
  destruct (existsb (Ascii.eqb c) cs); [done|]. simpl. by rewrite IH.
Qed.

Lemma delete_chars_id cs (s : string) :
  string_forall (λ c, negb (existsb (Ascii.eqb c) cs)) s = true →
  delete_chars cs s = s.
Proof.
  induction s as [|c s IH]; simpl; [done|].
  intros [Hc Hs]%andb_true_iff. apply negb_true_iff in Hc.
  by rewrite Hc, IH.
Qed.

Lemma delete_brackets_digits (s : string) :
  string_forall is_digit s = true → delete_chars ["["; "]"]%char s = s.
Proof.
  intros Hs. apply delete_chars_id. eapply string_forall_impl; [|exact Hs].
  intros c Hc. apply is_digit_cases in Hc as (_ & _ & H1 & H2 & _).
  simpl. by rewrite H1, H2.
Qed.

Lemma split_no_sep (sep : ascii) (s : string) :
  contains sep s = false → split sep s = [s].
Proof.
  induction s as [|c s IH]; simpl; [done|].
  intros [Hc Hs]%orb_false_iff. by rewrite Hc, IH.
Qed.

Lemma split_at_sep (sep : ascii) (s1 s2 : string) :
  contains sep s1 = false →
  split sep (s1 ++ String sep s2) = s1 :: split sep s2.
Proof.
  induction s1 as [|c s1 IH]; simpl.
  - by rewrite Ascii.eqb_refl.
  - intros [Hc Hs]%orb_false_iff. by rewrite Hc, IH.
Qed.

Lemma digits_no_dash (s : string) :
  string_forall is_digit s = true → contains "-" s = false.
Proof.
  intros Hs. apply contains_forall. eapply string_forall_impl; [|exact Hs].
  intros c Hc. apply is_digit_cases in Hc as (_ & _ & _ & _ & -> & _). done.
Qed.

Lemma expand_host_range (prefix sa sb : string) :
  sa ≠ "" → string_forall is_digit sa = true →
  sb ≠ "" → string_forall is_digit sb = true →
  expand_host [Some prefix; Some ("[" ++ sa ++ "-" ++ sb ++ "]")%string]
  = Ok (map (λ n, (prefix ++ format_02d n)%string)
          (range (decimal sa) (decimal sb + 1))).
Proof.
  intros Hsa Hda Hsb Hdb. unfold expand_host.
  cbn [last group_truthy String.append String.eqb Ascii.eqb Bool.eqb negb bind].
  cbn [delete_chars existsb Ascii.eqb Bool.eqb orb].
  rewrite !delete_chars_append, (delete_brackets_digits sa Hda).
  cbn [delete_chars existsb Ascii.eqb Bool.eqb orb String.append].
  rewrite delete_chars_append, (delete_brackets_digits sb Hdb).
  cbn [delete_chars existsb Ascii.eqb Bool.eqb orb].
  replace (sb ++ "")%string with sb by (clear; induction sb; simpl; congruence).
  rewrite split_at_sep by (by apply digits_no_dash).
  rewrite split_no_sep by (by apply digits_no_dash).
  cbn [hd nth length Nat.ltb Nat.leb lookup list_lookup].
  rewrite (int_of_string_digits sa), (int_of_string_digits sb) by done.
  done.
Qed.

Lemma expand_host_single (prefix sa : string) :
  sa ≠ "" → string_forall is_digit sa = true →
  expand_host [Some prefix; Some ("[" ++ sa ++ "]")%string]
  = Ok [(prefix ++ format_02d (decimal sa))%string].
Proof.
  intros Hsa Hda. unfold expand_host.
  cbn [last group_truthy String.append String.eqb Ascii.eqb Bool.eqb negb bind].
  cbn [delete_chars existsb Ascii.eqb Bool.eqb orb].
  rewrite !delete_chars_append, (delete_brackets_digits sa Hda).
  cbn [delete_chars existsb Ascii.eqb Bool.eqb orb String.append].
  replace (sa ++ "")%string with sa by (clear; induction sa; simpl; congruence).
  rewrite split_no_sep by (by apply digits_no_dash).
  cbn [hd nth length Nat.ltb Nat.leb lookup list_lookup].
  rewrite (int_of_string_digits sa) by done. cbn [bind]. unfold range.
  replace (decimal sa + 1 - decimal sa)%Z with 1%Z by lia.
  simpl. by rewrite Z.add_0_r.
Qed.

(** *** Rendering a number *)

Lemma string_of_uint_digits (d : Decimal.uint) :
  string_forall is_digit (NilEmpty.string_of_uint d) = true.
Proof. induction d; simpl; done. Qed.

Lemma string_of_uint_nonempty (d : Decimal.uint) :
  d ≠ Decimal.Nil → NilEmpty.string_of_uint d ≠ "".
Proof. by destruct d. Qed.

Lemma decimal_acc_of_uint_acc (d : Decimal.uint) : ∀ acc : positive,
  decimal_acc (Zpos acc) (NilEmpty.string_of_uint d)
  = Zpos (Pos.of_uint_acc d acc).
Proof.
  induction d as [|d IH|d IH|d IH|d IH|d IH|d IH|d IH|d IH|d IH|d IH];
    intros acc; cbn [NilEmpty.string_of_uint decimal_acc Pos.of_uint_acc];
    [done|..]; rewrite <- IH; f_equal;
    match goal with
    | |- context [digit_val ?c] =>
        let v := eval vm_compute in (digit_val c) in
        change (digit_val c) with v
    end; lia.
Qed.

Lemma decimal_of_uint (d : Decimal.uint) :
  decimal (NilEmpty.string_of_uint d) = Z.of_N (Pos.of_uint d).
Proof.
  unfold decimal.
  induction d as [|d IH|d IH|d IH|d IH|d IH|d IH|d IH|d IH|d IH|d IH];
    cbn [NilEmpty.string_of_uint decimal_acc Pos.of_uint]; [done|exact IH|..];
    match goal with
    | |- context [digit_val ?c] =>
        let v := eval vm_compute in (digit_val c) in
        change (digit_val c) with v
    end; simpl Z.add; apply decimal_acc_of_uint_acc.
Qed.

Lemma string_of_Z_nonneg (n : Z) :
  (0 ≤ n)%Z →
  ∃ d, d ≠ Decimal.Nil ∧
       string_of_Z n = NilEmpty.string_of_uint d ∧
       Z.of_N (Pos.of_uint d) = n.
Proof.
  intros Hn. destruct n as [|p|p]; [| |lia].
  - exists (Decimal.D0 Decimal.Nil). by split_and!.
  - exists (Pos.to_uint p). split_and!.
    + apply DecimalPos.Unsigned.to_uint_nonnil.
    + unfold string_of_Z. simpl. unfold NilZero.string_of_uint.
      pose proof (DecimalPos.Unsigned.to_uint_nonnil p).
      by destruct (Pos.to_uint p).
    + by rewrite DecimalPos.Unsigned.of_to.
Qed.

(** ["%02d" % n] has at least two characters and reads back as [n]. *)
Lemma format_02d_spec (n : Z) :
  (0 ≤ n)%Z →
  2 ≤ String.length (format_02d n) ∧ int_of_string (format_02d n) = Ok n.
Proof.
  intros Hn. destruct (string_of_Z_nonneg n Hn) as (d & Hd & Hs & Hv).
  unfold format_02d. rewrite Hs.
  pose proof (string_of_uint_digits d) as Hdig.
  pose proof (string_of_uint_nonempty d Hd) as Hne.
  pose proof (decimal_of_uint d) as Hdec. rewrite Hv in Hdec.
  set (s := NilEmpty.string_of_uint d) in *.
  destruct (String.length s <? 2)%nat eqn:Hlen.
  - split.
    + destruct s; [done|]. simpl. lia.
    + rewrite int_of_string_digits; [|done|done].
      unfold decimal. simpl. by rewrite <- Hdec.
  - apply Nat.ltb_ge in Hlen. split; [done|].
    rewrite int_of_string_digits by done. by rewrite Hdec.
Qed.

(** ** Synthetic filenames *)

Lemma range_length (lo hi : Z) : length (range lo hi) = Z.to_nat (hi - lo).
Proof. unfold range. by rewrite length_map, length_seq. Qed.

Lemma range_lookup (lo hi i : Z) :
  (0 ≤ i < hi - lo)%Z → range lo hi !! Z.to_nat i = Some (lo + i)%Z.
Proof.
  intros Hi. unfold range. rewrite list_lookup_fmap.
  rewrite lookup_seq_lt by lia. simpl. f_equal. lia.
Qed.

(** C6 does not hold: [.] matches no line feed.  For the stem
    [a[1]<LF>b[2-3]], that is the prefix [a[1]<LF>b] and the range [2-3],
    the pattern matches within the first line, and the walker yields the
    one identity [a01] instead of two identities for 2 and 3. *)
Lemma line_feed_in_prefix_breaks_expansion :
  let prefix := ("a[1]" ++ String LF "b")%string in
  walk_file "example.com" "site/definitions/web" (prefix ++ "[2-3]" ++ ".yaml")
  = Ok [(path_join "site/definitions/web" (prefix ++ "[2-3]" ++ ".yaml"),
         "a01.example.com", Some "a01")] ∧
  (decimal "3" - decimal "2" + 1 = 2)%Z.
Proof. split; reflexivity. Qed.

Lemma substring_suffix (s1 s2 : string) :
  substring (String.length s1) (String.length s2) (s1 ++ s2) = s2.
Proof.
  induction s1 as [|c s1 IH]; simpl; [|done].
  induction s2 as [|c s2 IH]; simpl; [done|]. by rewrite IH.
Qed.

Lemma ends_with_append (s suffix : string) : ends_with suffix (s ++ suffix) = true.
Proof.
  unfold ends_with. rewrite length_append.
  replace (String.length s + String.length suffix - String.length suffix)
    with (String.length s) by lia.
  rewrite substring_suffix, String.eqb_refl, andb_true_r.
  apply Nat.leb_le. lia.
Qed.

Lemma traverse_site_single_file ls (environment_domain directory group name : string)
    (ids : list identity) :
  ls directory = [group] →
  ls (path_join directory group) = [name] →
  ends_with ".yaml" name = true →
  walk_file environment_domain (path_join directory group) name = Ok ids →
  traverse_site ls environment_domain directory = (ids, None).
Proof.
  intros Hdir Hgroup Hyaml Hwalk. unfold traverse_site.
  rewrite Hdir. cbn [walk_dirs]. rewrite Hgroup.
  rewrite filter_cons, decide_True by (by rewrite Hyaml).
  rewrite filter_nil. cbn [walk_files]. rewrite Hwalk.
  by rewrite !app_nil_r.
Qed.

(** C6, amended.  For a stem [prefix[A-B]] whose prefix has no line feed,
    [A] and [B] being strings of decimal digits with [A ≤ B], the walker
    yields exactly [B-A+1] identities, for the numbers [A] to [B] in
    order, each with the short name [prefix] followed by the number
    rendered by ["%02d"], and the name followed by [.] and the
    environment domain as hostname; a stem [prefix[N]] yields the one
    identity of [N].  The rendering of a number has at least two
    characters and reads back as the number. *)
Theorem synthetic_range_expansion
    (environment_domain dir prefix sa sb : string) :
  contains LF prefix = false →
  sa ≠ "" → string_forall is_digit sa = true →
  sb ≠ "" → string_forall is_digit sb = true →
  (decimal sa ≤ decimal sb)%Z →
  let A := decimal sa in
  let B := decimal sb in
  let identity_of (name : string) (n : Z) : identity :=
    (path_join dir name,
     ((prefix ++ format_02d n) ++ "." ++ environment_domain)%string,
     Some (prefix ++ format_02d n)%string) in
  let range_name := (prefix ++ "[" ++ sa ++ "-" ++ sb ++ "]" ++ ".yaml")%string in
  let single_name := (prefix ++ "[" ++ sa ++ "]" ++ ".yaml")%string in
  walk_file environment_domain dir range_name
  = Ok (map (identity_of range_name) (range A (B + 1))) ∧
  length (range A (B + 1)) = Z.to_nat (B - A + 1) ∧
  (∀ i, (0 ≤ i ≤ B - A)%Z → range A (B + 1) !! Z.to_nat i = Some (A + i)%Z) ∧
  walk_file environment_domain dir single_name
  = Ok [identity_of single_name A] ∧
  (∀ ls directory group,
     dir = path_join directory group →
     ls directory = [group] →
     (ls dir = [range_name] →
      traverse_site ls environment_domain directory
      = (map (identity_of range_name) (range A (B + 1)), None)) ∧
     (ls dir = [single_name] →
      traverse_site ls environment_domain directory
      = ([identity_of single_name A], None))) ∧
  (∀ n, (A ≤ n)%Z →
        2 ≤ String.length (format_02d n) ∧
        int_of_string (format_02d n) = Ok n).
Proof.
  intros Hprefix Hsa Hda Hsb Hdb Hle. cbv zeta.
  assert (string_forall (cls_ok CAny) prefix = true) as Hany.
  { by apply contains_forall in Hprefix. }
  assert (walk_file environment_domain dir
            (prefix ++ "[" ++ sa ++ "-" ++ sb ++ "]" ++ ".yaml")
          = Ok (map (λ n, (path_join dir
                             (prefix ++ "[" ++ sa ++ "-" ++ sb ++ "]" ++ ".yaml"),
                           ((prefix ++ format_02d n) ++ "." ++ environment_domain)%string,
                           Some (prefix ++ format_02d n)%string))
                  (range (decimal sa) (decimal sb + 1)))) as Hrange.
  { assert (re_match 2 synthetic_hostname_pattern
              (prefix ++ "[" ++ sa ++ "-" ++ sb ++ "]" ++ ".yaml")
            = Some [Some prefix; Some ("[" ++ sa ++ "-" ++ sb ++ "]")%string])
      as Hm.
    { apply (synthetic_match prefix sa (String "-" sb)); try done.
      cbn [string_forall]. apply andb_true_iff. split; [reflexivity|].
      eapply string_forall_impl; [|exact Hdb].
      intros c Hc. apply is_digit_cases in Hc as (H1 & _ & H2 & _).
      apply andb_true_iff. split; [exact H1|]. by rewrite H2. }
    unfold walk_file. rewrite Hm.
    rewrite expand_host_range by done. cbn [bind]. by rewrite map_map. }
  assert (walk_file environment_domain dir (prefix ++ "[" ++ sa ++ "]" ++ ".yaml")
          = Ok [(path_join dir (prefix ++ "[" ++ sa ++ "]" ++ ".yaml"),
                 ((prefix ++ format_02d (decimal sa)) ++ "." ++ environment_domain)%string,
                 Some (prefix ++ format_02d (decimal sa))%string)]) as Hsingle.
  { assert (re_match 2 synthetic_hostname_pattern
              (prefix ++ "[" ++ sa ++ "]" ++ ".yaml")
            = Some [Some prefix; Some ("[" ++ sa ++ "]")%string]) as Hm.
    { by apply (synthetic_match prefix sa ""). }
    unfold walk_file. rewrite Hm. by rewrite expand_host_single. }
  split_and!.
  - exact Hrange.
  - rewrite range_length. f_equal. lia.
  - intros i Hi. apply range_lookup. lia.
  - exact Hsingle.
  - intros ls directory group -> Hdir. split; intros Hls.
    + eapply traverse_site_single_file; [done|done| |exact Hrange].
      replace (prefix ++ "[" ++ sa ++ "-" ++ sb ++ "]" ++ ".yaml")%string
        with ((prefix ++ "[" ++ sa ++ "-" ++ sb ++ "]") ++ ".yaml")%string
        by (by rewrite !append_assoc).
      apply ends_with_append.
    + eapply traverse_site_single_file; [done|done| |exact Hsingle].
      replace (prefix ++ "[" ++ sa ++ "]" ++ ".yaml")%string
        with ((prefix ++ "[" ++ sa ++ "]") ++ ".yaml")%string
        by (by rewrite !append_assoc).
      apply ends_with_append.
  - intros n Hn. apply format_02d_spec.
    pose proof (decimal_acc_nonneg sa 0 Hda). unfold decimal in *. lia.
Qed.

Lemma synthetic_range_expansion_witness :
  walk_file "example.com" "site/definitions/web" "host[08-11].yaml"
  = Ok [("site/definitions/web/host[08-11].yaml", "host08.example.com",
         Some "host08");
        ("site/definitions/web/host[08-11].yaml", "host09.example.com",
         Some "host09");
        ("site/definitions/web/host[08-11].yaml", "host10.example.com",
         Some "host10");
        ("site/definitions/web/host[08-11].yaml", "host11.example.com",
         Some "host11")].
Proof.
  refine (proj1 (synthetic_range_expansion "example.com"
                   "site/definitions/web" "host" "08" "11" _ _ _ _ _ _));
    [reflexivity|discriminate|reflexivity|discriminate|reflexivity|].
  vm_compute. discriminate.
Defined.

(** * Further properties *)

(** ** Host records: the computed fields and the declared variables *)

Lemma lookup_base_fields self cls hostname short file dir (k : key) :
  k ≠ KStr "hostname" → k ≠ KStr "fqdn" → k ≠ KStr "definition_file" →
  k ≠ KStr "default_group_path" → k ≠ KStr "site_directory" →
  k ≠ KStr "environment_domain" → k ≠ KStr "ansible_host" →
  lookup k (base_fields self cls hostname short file dir) = lookup k cls.
Proof.
  intros. unfold base_fields. by rewrite !lookup_set_item_ne by done.
Qed.

Lemma base_fields_values self cls hostname short file dir :
  let base := base_fields self cls hostname short file dir in
  lookup (KStr "hostname") base = Some (VStr short) ∧
  lookup (KStr "fqdn") base = Some (VStr hostname) ∧
  lookup (KStr "definition_file") base = Some (VStr file) ∧
  lookup (KStr "default_group_path") base = Some (VStr dir) ∧
  lookup (KStr "site_directory") base = Some (VStr (site_directory self)) ∧
  lookup (KStr "environment_domain") base
  = Some (VStr (environment_domain self)) ∧
  lookup (KStr "ansible_host") base = Some (VStr hostname).
Proof.
  cbv zeta. unfold base_fields.
  split_and!; rewrite ?lookup_set_item_ne by done; apply lookup_set_item_eq.
Qed.

Lemma base_fields_nonempty self cls hostname short file dir :
  base_fields self cls hostname short file dir ≠ [].
Proof.
  intros Hnil.
  pose proof (base_fields_values self cls hostname short file dir) as [H _].
  cbv zeta in H. by rewrite Hnil in H.
Qed.

(** A field of the host data that is no mapping is kept by the merge of
    the declared variables, and by the connection fields if it is none
    of them. *)
Lemma lookup_record_kept self cstr cls hostname short file dir vars
    (k : key) (v : value) :
  lookup k (base_fields self cls hostname short file dir) = Some v →
  is_dict v = false →
  k ≠ KStr "ansible_host" → k ≠ KStr "ansible_ssh_host" →
  k ≠ KStr "ansible_winrm_host" →
  lookup k (connection_fields cstr
              (merge (base_fields self cls hostname short file dir) vars)
              hostname short)
  = Some v.
Proof.
  intros Hk Hv ? ? ?.
  rewrite lookup_connection_fields_other by done.
  by apply lookup_merge_keep.
Qed.

(** The classification fields of any host. *)
Lemma classify_fields self (hostname primary_group : string) cls :
  classify self hostname primary_group = Ok (Some cls) →
  (∃ l, lookup (KStr "os_classes") cls = Some (VList l)) ∧
  (∃ l, lookup (KStr "sub_groups") cls = Some (VList l)) ∧
  lookup (KStr "primary_group") cls
  = Some (VStr (if String.eqb hostname "localhost" then "ansible_controller"
                else primary_group)) ∧
  ∀ k, k ∉ computed_keys → lookup k cls = None.
Proof.
  intros Hcls. destruct (String.eqb hostname "localhost") eqn:Hl.
  - apply String.eqb_eq in Hl. subst hostname.
    rewrite classify_localhost in Hcls. inversion Hcls; subst cls.
    split_and!; [by eexists|by eexists|done|].
    intros k Hk. unfold computed_keys in Hk.
    repeat (apply not_elem_of_cons in Hk as [? Hk]).
    cbn [lookup]. by repeat (rewrite (proj2 (key_eqb_neq _ _)) by done).
  - apply String.eqb_neq in Hl.
    apply classify_lists in Hcls; [|done]. cbv zeta in Hcls. subst cls.
    split_and!; [by eexists|by eexists|done|].
    intros k Hk. unfold computed_keys in Hk.
    repeat (apply not_elem_of_cons in Hk as [? Hk]).
    cbn [lookup]. by repeat (rewrite (proj2 (key_eqb_neq _ _)) by done).
Qed.

(** X1.  The fields that the builder computes cannot be overridden by the
    definition file: whatever the file declares, the record has the short
    name as [hostname], the record name as [fqdn], the path of the file
    and of its directory, the site directory and the domain of the
    generator, and as [primary_group] the name of the directory of the
    file, or [ansible_controller] for [localhost]. *)
Theorem computed_fields_not_overridden
    (files : string → fsnode) (cstr : value → string)
    (self : InventoryGenerator) (r0 r1 short : string) (rec : dict) :
  host_record files cstr self (r0, r1, Some short) = Ok (Some rec) →
  lookup (KStr "hostname") rec = Some (VStr short) ∧
  lookup (KStr "fqdn") rec = Some (VStr (record_name r0 r1)) ∧
  lookup (KStr "definition_file") rec = Some (VStr r0) ∧
  lookup (KStr "default_group_path") rec = Some (VStr (path_parent r0)) ∧
  lookup (KStr "site_directory") rec = Some (VStr (site_directory self)) ∧
  lookup (KStr "environment_domain") rec
  = Some (VStr (environment_domain self)) ∧
  lookup (KStr "primary_group") rec
  = Some (VStr (if String.eqb (record_name r0 r1) "localhost"
                then "ansible_controller"
                else path_name (path_parent r0))).
Proof.
  intros Hrec.
  apply host_record_inv in Hrec
    as (doc & vars & short' & cls & _ & _ & Hs & Hcls & ->).
  inversion Hs; subst short'.
  pose proof (base_fields_values self cls (record_name r0 r1) short r0
                (path_parent r0)) as Hbase.
  cbv zeta in Hbase.
  destruct Hbase as (H1 & H2 & H3 & H4 & H5 & H6 & _).
  apply classify_fields in Hcls as (_ & _ & Hpg & _).
  split_and!; try (by apply lookup_record_kept).
  apply lookup_record_kept; [|done..].
  by rewrite lookup_base_fields.
Qed.

Lemma computed_fields_not_overridden_witness :
  ∃ rec,
    host_record (demo_files overriding_host) (λ _, "") demo_generator
      ("site/definitions/web/lxr3-dck-01.yaml", "lxr3-dck-01.example.com",
       Some "lxr3-dck-01") = Ok (Some rec) ∧
    lookup (KStr "rack") rec = Some (VStr "r1") ∧
    lookup (KStr "hostname") rec = Some (VStr "lxr3-dck-01").
Proof.
  eexists. split; [reflexivity|]. split; [reflexivity|].
  refine (proj1 (computed_fields_not_overridden (demo_files overriding_host)
                   (λ _, "") demo_generator
                   "site/definitions/web/lxr3-dck-01.yaml"
                   "lxr3-dck-01.example.com" "lxr3-dck-01" _ _)).
  reflexivity.
Defined.

(** X2.  A variable that the definition file declares under a key that
    is none of the computed fields is in the record with its declared
    value, and the record has no other key: outside the computed fields
    the record and the declared variables agree. *)
Theorem declared_variable_carried
    (files : string → fsnode) (cstr : value → string)
    (self : InventoryGenerator) (r0 r1 : string) (r2 : option string)
    (doc : value) (vars rec : dict) (k : key) :
  host_record files cstr self (r0, r1, r2) = Ok (Some rec) →
  read_yaml_file files r0 = Ok doc →
  declared_vars doc = Ok vars →
  NoDup (keys vars) →
  k ∉ computed_keys →
  lookup k rec = lookup k vars.
Proof.
  intros Hrec Hdoc Hvars Hnd Hk.
  apply host_record_inv in Hrec
    as (doc' & vars' & short & cls & Hdoc' & Hvars' & _ & Hcls & ->).
  rewrite Hdoc in Hdoc'. inversion Hdoc'; subst doc'.
  rewrite Hvars in Hvars'. inversion Hvars'; subst vars'.
  apply classify_fields in Hcls as (_ & _ & _ & Hnone).
  specialize (Hnone k Hk).
  unfold computed_keys in Hk.
  repeat (apply not_elem_of_cons in Hk as [? Hk]).
  rewrite lookup_connection_fields_other by done.
  assert (lookup k (base_fields self cls (record_name r0 r1) short r0
                      (path_parent r0)) = None) as Hbase.
  { by rewrite lookup_base_fields. }
  destruct vars as [|kv vars].
  - by rewrite merge_empty_r, Hbase.
  - rewrite lookup_merge; [|apply base_fields_nonempty|done|done].
    by rewrite Hbase.
Qed.

Lemma declared_variable_carried_witness :
  ∃ rec,
    host_record (demo_files overriding_host) (λ _, "") demo_generator
      ("site/definitions/web/lxr3-dck-01.yaml", "lxr3-dck-01.example.com",
       Some "lxr3-dck-01") = Ok (Some rec) ∧
    lookup (KStr "rack") rec
    = lookup (KStr "rack")
        [(KStr "hostname", VStr "other"); (KStr "ansible_host", VStr "10.9.9.9");
         (KStr "ansible_ssh_host", VStr "10.9.9.9"); (KStr "rack", VStr "r1")].
Proof.
  eexists. split; [reflexivity|].
  refine (declared_variable_carried (demo_files overriding_host) (λ _, "")
            demo_generator "site/definitions/web/lxr3-dck-01.yaml"
            "lxr3-dck-01.example.com" (Some "lxr3-dck-01") _ _ _ (KStr "rack")
            _ _ _ _ _);
    [reflexivity|reflexivity|reflexivity| |].
  - apply nodup_keys_NoDup. reflexivity.
  - unfold computed_keys. intros Hin.
    repeat (apply elem_of_cons in Hin as [Hin|Hin]; [discriminate|]).
    by apply elem_of_nil in Hin.
Defined.

(** ** Host records: the connection fields *)

Lemma connection_fields_spec cstr host_data hostname short :
  let real := default VNone (lookup (KStr "ansible_real_host") host_data) in
  let system_type := default VNone (lookup (KStr "system_type") host_data) in
  let lxd_host := default VNone (lookup (KStr "lxd_host") host_data) in
  let rec := connection_fields cstr host_data hostname short in
  lookup (KStr "ansible_ssh_host") rec
  = Some (if is_str system_type "qemu" then VStr short
          else if truthy real then real else VStr hostname) ∧
  (truthy real = false →
   lookup (KStr "ansible_winrm_host") rec = Some (VStr hostname)) ∧
  lookup (KStr "ansible_host") rec
  = (if is_str system_type "lxd" then
       if truthy lxd_host
       then Some (VStr (format cstr lxd_host ++ ":" ++ short))
       else lookup (KStr "ansible_host") host_data
     else if is_str system_type "qemu" then Some (VStr short)
     else lookup (KStr "ansible_host") host_data).
Proof.
  cbv zeta. unfold connection_fields.
  set (real := default VNone (lookup (KStr "ansible_real_host") host_data)).
  set (hd1 := if truthy real then _ else _).
  assert (lookup (KStr "system_type") hd1
          = lookup (KStr "system_type") host_data) as ->.
  { unfold hd1. destruct (truthy real); by rewrite ?lookup_set_item_ne by done. }
  assert (lookup (KStr "lxd_host") hd1
          = lookup (KStr "lxd_host") host_data) as ->.
  { unfold hd1. destruct (truthy real); by rewrite ?lookup_set_item_ne by done. }
  assert (lookup (KStr "ansible_host") hd1
          = lookup (KStr "ansible_host") host_data) as Hah.
  { unfold hd1. destruct (truthy real); by rewrite ?lookup_set_item_ne by done. }
  assert (lookup (KStr "ansible_ssh_host") hd1
          = Some (if truthy real then real else VStr hostname)) as Hssh.
  { unfold hd1. destruct (truthy real).
    - apply lookup_set_item_eq.
    - rewrite lookup_set_item_ne by done. apply lookup_set_item_eq. }
  assert (truthy real = false →
          lookup (KStr "ansible_winrm_host") hd1 = Some (VStr hostname))
    as Hwinrm.
  { intros Hr. unfold hd1. rewrite Hr. apply lookup_set_item_eq. }
  set (system_type := default VNone (lookup (KStr "system_type") host_data)).
  set (lxd_host := default VNone (lookup (KStr "lxd_host") host_data)).
  destruct (is_str system_type "lxd") eqn:Hlxd.
  - assert (is_str system_type "qemu" = false) as ->.
    { destruct system_type as [| | |s| |]; try done. simpl in *.
      apply String.eqb_eq in Hlxd. by subst s. }
    destruct (truthy lxd_host).
    + split_and!.
      * by rewrite lookup_set_item_ne.
      * intros ?. rewrite lookup_set_item_ne by done. by apply Hwinrm.
      * apply lookup_set_item_eq.
    + done.
  - destruct (is_str system_type "qemu").
    + split_and!.
      * apply lookup_set_item_eq.
      * intros ?. rewrite !lookup_set_item_ne by done. by apply Hwinrm.
      * rewrite lookup_set_item_ne by done. apply lookup_set_item_eq.
    + done.
Qed.

(** X3.  The record's [ansible_ssh_host] is never the value that the
    definition file declares for it: it is the short name for a [qemu]
    guest; otherwise it is [ansible_real_host] when that is set and
    true, and the record name when it is not, in which case
    [ansible_winrm_host] is the record name too. *)
Theorem ssh_host_ignores_declared_value
    (files : string → fsnode) (cstr : value → string)
    (self : InventoryGenerator) (r0 r1 short : string) (rec : dict) :
  host_record files cstr self (r0, r1, Some short) = Ok (Some rec) →
  let real := default VNone (lookup (KStr "ansible_real_host") rec) in
  let system_type := default VNone (lookup (KStr "system_type") rec) in
  lookup (KStr "ansible_ssh_host") rec
  = Some (if is_str system_type "qemu" then VStr short
          else if truthy real then real else VStr (record_name r0 r1)) ∧
  (truthy real = false →
   lookup (KStr "ansible_winrm_host") rec = Some (VStr (record_name r0 r1))).
Proof.
  intros Hrec.
  apply host_record_inv in Hrec
    as (doc & vars & short' & cls & _ & _ & Hs & _ & ->).
  inversion Hs; subst short'. cbv zeta.
  rewrite !(lookup_connection_fields_other _ _ _ _ (KStr "ansible_real_host"))
    by done.
  rewrite !(lookup_connection_fields_other _ _ _ _ (KStr "system_type"))
    by done.
  pose proof (connection_fields_spec cstr
                (merge (base_fields self cls (record_name r0 r1) short r0
                          (path_parent r0)) vars)
                (record_name r0 r1) short) as H.
  cbv zeta in H. destruct H as (H1 & H2 & _). by split.
Qed.

Lemma ssh_host_ignores_declared_value_witness :
  ∃ rec,
    host_record (demo_files overriding_host) (λ _, "") demo_generator
      ("site/definitions/web/lxr3-dck-01.yaml", "lxr3-dck-01.example.com",
       Some "lxr3-dck-01") = Ok (Some rec) ∧
    lookup (KStr "ansible_ssh_host") rec
    = Some (VStr "lxr3-dck-01.example.com").
Proof.
  eexists. split; [reflexivity|].
  refine (proj1 (ssh_host_ignores_declared_value (demo_files overriding_host)
                   (λ _, "") demo_generator
                   "site/definitions/web/lxr3-dck-01.yaml"
                   "lxr3-dck-01.example.com" "lxr3-dck-01" _ _)).
  reflexivity.
Defined.

(** X4.  The record's [ansible_host] is never the value that the
    definition file declares for it: for an [lxd] container whose
    [lxd_host] is set and true it is [lxd_host:short]; for a [qemu] guest
    it is the short name; in every other case it is the record name. *)
Theorem ansible_host_rule
    (files : string → fsnode) (cstr : value → string)
    (self : InventoryGenerator) (r0 r1 short : string) (rec : dict) :
  host_record files cstr self (r0, r1, Some short) = Ok (Some rec) →
  let system_type := default VNone (lookup (KStr "system_type") rec) in
  let lxd_host := default VNone (lookup (KStr "lxd_host") rec) in
  lookup (KStr "ansible_host") rec
  = Some (VStr (if is_str system_type "lxd" then
                  if truthy lxd_host
                  then (format cstr lxd_host ++ ":" ++ short)%string
                  else record_name r0 r1
                else if is_str system_type "qemu" then short
                else record_name r0 r1)).
Proof.
  intros Hrec.
  apply host_record_inv in Hrec
    as (doc & vars & short' & cls & _ & _ & Hs & _ & ->).
  inversion Hs; subst short'. cbv zeta.
  rewrite !(lookup_connection_fields_other _ _ _ _ (KStr "lxd_host")) by done.
  rewrite !(lookup_connection_fields_other _ _ _ _ (KStr "system_type"))
    by done.
  pose proof (connection_fields_spec cstr
                (merge (base_fields self cls (record_name r0 r1) short r0
                          (path_parent r0)) vars)
                (record_name r0 r1) short) as H.
  cbv zeta in H. destruct H as (_ & _ & ->).
  assert (lookup (KStr "ansible_host")
            (merge (base_fields self cls (record_name r0 r1) short r0
                      (path_parent r0)) vars)
          = Some (VStr (record_name r0 r1))) as ->.
  { apply lookup_merge_keep; [|done]. apply base_fields_values. }
  by repeat match goal with |- context [if ?b then _ else _] => destruct b end.
Qed.

Lemma ansible_host_rule_witness :
  ∃ rec,
    host_record (demo_files lxd_container) (λ _, "") demo_generator
      ("site/definitions/web/lxr3-dck-01.yaml", "lxr3-dck-01.example.com",
       Some "lxr3-dck-01") = Ok (Some rec) ∧
    lookup (KStr "ansible_host") rec = Some (VStr "lxr3-lxd-01:lxr3-dck-01").
Proof.
  eexists. split; [reflexivity|].
  refine (ansible_host_rule (demo_files lxd_container) (λ _, "") demo_generator
            "site/definitions/web/lxr3-dck-01.yaml"
            "lxr3-dck-01.example.com" "lxr3-dck-01" _ _).
  reflexivity.
Defined.

(** ** Declared variables: the recovery from a [TypeError] *)

Lemma facts_of_type_error (good rest : list value) (bad : value) :
  Forall (λ f, ∃ d, set_fact_of f = Ok d) good →
  set_fact_of bad = Raise TypeError →
  facts_of (good ++ bad :: rest) = Raise TypeError.
Proof.
  intros Hgood Hbad. induction Hgood as [|f good [d Hd] _ IH]; simpl.
  - by rewrite Hbad.
  - rewrite Hd. cbn [bind]. destruct (nonempty d); cbn [bind]; by rewrite IH.
Qed.

(** X5.  In a definition file in fact-list form, one entry whose
    [set_fact] cannot be made a [dict] for its type ([None], as for an
    empty [set_fact:], a number or a Boolean) leaves the host without any
    declared variable: the facts of the entries before it, although
    sound, are dropped with it, and so are those of the entries after
    it. *)
Theorem type_error_discards_every_fact
    (good rest : list value) (d : dict) (x : value) :
  Forall (λ f, ∃ d' sf, f = VDict d' ∧
                        lookup (KStr "set_fact") d' = Some (VDict sf)) good →
  lookup (KStr "set_fact") d = Some x →
  to_dict x = Raise TypeError →
  declared_vars (VList (good ++ VDict d :: rest)) = Ok [] ∧
  to_dict VNone = Raise TypeError ∧
  (∀ z, to_dict (VInt z) = Raise TypeError) ∧
  (∀ b, to_dict (VBool b) = Raise TypeError).
Proof.
  intros Hgood Hx Hdict. split; [|done].
  unfold declared_vars, definition_vars.
  rewrite facts_of_type_error; [done| |].
  - eapply Forall_impl; [exact Hgood|].
    intros f (d' & sf & -> & Hsf). exists sf.
    unfold set_fact_of, obj_get. by rewrite Hsf.
  - unfold set_fact_of, obj_get. rewrite Hx. exact Hdict.
Qed.

Lemma type_error_discards_every_fact_witness :
  declared_vars
    (VList [VDict [(KStr "set_fact", VDict [(KStr "a", VInt 1)])];
            VDict [(KStr "set_fact", VNone)];
            VDict [(KStr "set_fact", VDict [(KStr "b", VInt 2)])]])
  = Ok [].
Proof.
  refine (proj1 (type_error_discards_every_fact
                   [VDict [(KStr "set_fact", VDict [(KStr "a", VInt 1)])]]
                   [VDict [(KStr "set_fact", VDict [(KStr "b", VInt 2)])]]
                   [(KStr "set_fact", VNone)] VNone _ _ _));
    [|reflexivity|reflexivity].
  apply List.Forall_cons; [|apply List.Forall_nil].
  by eexists _, _.
Defined.

(** ** The assembler *)

(** X6.  With a mock host, [generate_inventory] never returns an
    inventory: the pair made of the mock host has no third component, so
    the builder raises, at the latest when it reads the short name. *)
Theorem mock_host_always_raises
    (files : string → fsnode) (ls : string → list string)
    (cstr : value → string) (self : InventoryGenerator)
    (host_mock : string) (host_filter : list string) :
  host_mock ≠ "" →
  ∃ e, generate_inventory files ls cstr self (Some host_mock) host_filter
       = Raise e.
Proof.
  intros Hm. destruct host_mock as [|c m]; [done|].
  unfold generate_inventory. cbn [bind].
  unfold generate_host_data. cbn [fst snd host_records].
  assert (∃ e, host_record files cstr self (String c m, String c m, None)
               = Raise e) as [e ->].
  { unfold host_record.
    destruct (read_yaml_file files (String c m)) as [doc|e]; [|by exists e].
    cbn [bind].
    destruct (declared_vars doc) as [vars|e]; [|by exists e].
    by exists IndexError. }
  by exists e.
Qed.

Lemma mock_host_always_raises_witness :
  ∃ e, generate_inventory (demo_files (Doc VNone)) demo_ls (λ _, "")
         demo_generator (Some "site/definitions/web/lxr3-dck-01.yaml") []
       = Raise e.
Proof.
  apply (mock_host_always_raises (demo_files (Doc VNone)) demo_ls (λ _, "")
           demo_generator "site/definitions/web/lxr3-dck-01.yaml" []).
  discriminate.
Defined.

Lemma register_all_hostvars host_record : ∀ names output output' k,
  register_all host_record output names = Ok output' →
  lookup k (hostvars output')
  = if existsb (named k) names then Some host_record
    else lookup k (hostvars output).
Proof.
  induction names as [|name names IH]; intros output output' k H; simpl in H.
  - by inversion H.
  - unfold register in H.
    destruct (value_key name) as [k0|] eqn:Hk0; [|done]. cbn [bind] in H.
    rewrite (IH _ _ k H). cbn [existsb hostvars]. unfold named at 2.
    rewrite Hk0, lookup_set_item.
    destruct (key_eqb k k0); cbn [orb]; by destruct (existsb _ names).
Qed.

Lemma register_all_hashable host_record : ∀ names output output',
  register_all host_record output names = Ok output' →
  Forall (λ name, ∃ k, value_key name = Ok k) names.
Proof.
  induction names as [|name names IH]; intros output output' H; simpl in H.
  - apply List.Forall_nil.
  - unfold register in H.
    destruct (value_key name) as [k0|] eqn:Hk0; [|done]. cbn [bind] in H.
    apply List.Forall_cons; [by exists k0|by eapply IH].
Qed.

Lemma add_host_names output host_record output' :
  add_host output host_record = Ok output' →
  ∃ hostname aliases,
    lookup (KStr "hostname") host_record = Some hostname ∧
    record_names host_record = aliases ++ [hostname] ∧
    register_all host_record output (aliases ++ [hostname]) = Ok output'.
Proof.
  unfold add_host, record_names. intros H.
  destruct (lookup (KStr "hostname") host_record) as [hostname|]; [|done].
  cbn [bind] in H.
  destruct (iterate _) as [aliases|]; [|done]. cbn [bind] in H.
  destruct (register_all host_record output aliases) as [o1|] eqn:H1;
    [|done]. cbn [bind] in H.
  exists hostname, aliases. split_and!; [done..|].
  clear -H H1. revert output H1.
  induction aliases as [|a aliases IH]; intros output H1; simpl in H1 |- *.
  - inversion H1; subst. by rewrite H.
  - destruct (register host_record output a) as [o2|]; [|done].
    cbn [bind] in H1 |- *. by apply IH.
Qed.

Lemma add_hosts_hostvars : ∀ host_data output output' k,
  add_hosts output host_data = Ok output' →
  lookup k (hostvars output')
  = match last (registered k host_data) with
    | Some host_record => Some host_record
    | None => lookup k (hostvars output)
    end.
Proof.
  induction host_data as [|r host_data IH]; intros output output' k H;
    simpl in H.
  - by inversion H.
  - destruct (add_host output r) as [o1|] eqn:H1; [|done]. cbn [bind] in H.
    rewrite (IH _ _ k H).
    apply add_host_names in H1 as (hostname & aliases & _ & Hnames & Hreg).
    apply (register_all_hostvars _ _ _ _ k) in Hreg. rewrite <- Hnames in Hreg.
    unfold registered. rewrite filter_cons. fold (registered k host_data).
    destruct (decide (Is_true (existsb (named k) (record_names r))))
      as [Hex|Hex].
    + apply Is_true_true in Hex. rewrite Hex in Hreg.
      destruct (registered k host_data) as [|r' l] eqn:Hl; [done|].
      rewrite last_cons_cons.
      destruct (last (r' :: l)) eqn:Hlast; [done|]. by apply last_None in Hlast.
    + apply Is_true_false in Hex. rewrite Hex in Hreg.
      by destruct (last (registered k host_data)).
Qed.

Lemma add_hosts_hashable : ∀ host_data output output',
  add_hosts output host_data = Ok output' →
  Forall (λ name, ∃ k, value_key name = Ok k)
    (concat (map record_names host_data)).
Proof.
  induction host_data as [|r host_data IH]; intros output output' H;
    simpl in H |- *.
  - apply List.Forall_nil.
  - destruct (add_host output r) as [o1|] eqn:H1; [|done]. cbn [bind] in H.
    apply Forall_app. split; [|by eapply IH].
    apply add_host_names in H1 as (hostname & aliases & _ & -> & Hreg).
    by eapply register_all_hashable.
Qed.

(** What a run without mock host that returns has done. *)
Lemma generate_inventory_inv files ls cstr self host_filter out :
  generate_inventory files ls cstr self None host_filter = Ok out →
  ∃ host_data,
    host_records files cstr self (selected ls self host_filter)
    = (host_data, None) ∧
    add_hosts {| all_hosts := []; hostvars := [] |} host_data = Ok out.
Proof.
  unfold generate_inventory, selected. intros H.
  set (walked := traverse_site ls (environment_domain self)
                   (site_definitions_directory self)) in *.
  destruct (nonempty host_filter).
  - destruct walked as [ids [e|]]; [done|]. cbn [bind fst] in H |- *.
    unfold generate_host_data in H. cbn [fst snd] in H.
    destruct (host_records files cstr self _) as [recs [e|]].
    + by destruct (add_hosts _ recs).
    + exists recs. split; [done|]. by destruct (add_hosts _ recs).
  - cbn [bind] in H. unfold generate_host_data in H.
    destruct (host_records files cstr self walked.1) as [recs [e|]].
    + by destruct (add_hosts _ recs).
    + exists recs. split; [done|].
      destruct (add_hosts _ recs); [|done]. cbn [bind] in H.
      by destruct walked.2.
Qed.

(** X7.  The inventory that [generate_inventory] returns lists, record
    after record in the order of the walk, the aliases of the record and
    then its hostname, a name as often as it is registered; and
    [hostvars] maps a name to the last of the records registered under
    it, so that a record replaces an earlier one of the same name. *)
Theorem inventory_of_records
    (files : string → fsnode) (ls : string → list string)
    (cstr : value → string) (self : InventoryGenerator)
    (host_filter : list string) (out : inventory) :
  generate_inventory files ls cstr self None host_filter = Ok out →
  ∃ host_data,
    host_records files cstr self (selected ls self host_filter)
    = (host_data, None) ∧
    all_hosts out = concat (map record_names host_data) ∧
    ∀ k, lookup k (hostvars out) = last (registered k host_data).
Proof.
  intros H. apply generate_inventory_inv in H as (host_data & Hrecs & Hadd).
  exists host_data. split_and!; [done| |].
  - by apply add_hosts_all_hosts in Hadd.
  - intros k. rewrite (add_hosts_hostvars _ _ _ k Hadd).
    by destruct (last (registered k host_data)).
Qed.

Lemma inventory_of_records_witness :
  ∃ out host_data,
    demo_inventory (Doc VNone) = Ok out ∧
    all_hosts out = concat (map record_names host_data) ∧
    lookup (KStr "lxr3-dck-01") (hostvars out)
    = last (registered (KStr "lxr3-dck-01") host_data).
Proof.
  eexists.
  destruct (inventory_of_records (demo_files (Doc VNone)) demo_ls (λ _, "")
              demo_generator [] _ eq_refl) as (host_data & _ & Hall & Hvars).
  exists host_data. split; [reflexivity|]. split; [exact Hall|apply Hvars].
Defined.

(** X8.  Every name that the returned inventory lists has an entry in
    [hostvars], and every key of [hostvars] is a listed name: the adapter
    finds the variables of every host that it is told of. *)
Theorem listed_hosts_have_variables
    (files : string → fsnode) (ls : string → list string)
    (cstr : value → string) (self : InventoryGenerator)
    (host_filter : list string) (out : inventory) :
  generate_inventory files ls cstr self None host_filter = Ok out →
  (∀ name, name ∈ all_hosts out →
     ∃ k host_record,
       value_key name = Ok k ∧ lookup k (hostvars out) = Some host_record) ∧
  (∀ k, k ∈ keys (hostvars out) →
     ∃ name, name ∈ all_hosts out ∧ value_key name = Ok k).
Proof.
  intros H. apply generate_inventory_inv in H as (host_data & _ & Hadd).
  pose proof (add_hosts_all_hosts _ _ _ Hadd) as Hall. simpl in Hall.
  pose proof (add_hosts_hashable _ _ _ Hadd) as Hhash.
  split.
  - intros name Hname. rewrite Hall in Hname.
    pose proof (proj1 (Forall_forall _ _) Hhash name Hname) as [k Hk].
    exists k. rewrite (add_hosts_hostvars _ _ _ k Hadd).
    apply list_elem_of_In, in_concat in Hname as (names & Hnames & Hn).
    apply in_map_iff in Hnames as (r & <- & Hr).
    assert (r ∈ registered k host_data) as Hreg.
    { apply list_elem_of_filter. split; [|by apply list_elem_of_In].
      apply Is_true_true, existsb_exists. exists name. split; [done|].
      unfold named. rewrite Hk. apply key_eqb_refl. }
    destruct (last (registered k host_data)) as [r'|] eqn:Hlast.
    + by exists r'.
    + apply last_None in Hlast. rewrite Hlast in Hreg.
      by apply elem_of_nil in Hreg.
  - intros k Hk.
    destruct (lookup k (hostvars out)) as [r|] eqn:Hl.
    + rewrite (add_hosts_hostvars _ _ _ k Hadd) in Hl. simpl in Hl.
      destruct (last (registered k host_data)) as [r'|] eqn:Hlast; [|done].
      apply last_Some_elem_of, list_elem_of_filter in Hlast as [Hex Hr'].
      apply Is_true_true, existsb_exists in Hex as (name & Hname & Hnamed).
      exists name. split.
      * rewrite Hall. apply list_elem_of_In, in_concat.
        exists (record_names r'). split; [|done].
        apply in_map. by apply list_elem_of_In.
      * unfold named in Hnamed. destruct (value_key name) as [k'|]; [|done].
        apply key_eqb_eq in Hnamed. by subst.
    + by apply lookup_None_keys in Hl.
Qed.

Lemma listed_hosts_have_variables_witness :
  ∃ out,
    demo_inventory (Doc VNone) = Ok out ∧
    ∀ name, name ∈ all_hosts out →
      ∃ k host_record,
        value_key name = Ok k ∧ lookup k (hostvars out) = Some host_record.
Proof.
  eexists. split; [reflexivity|].
  refine (proj1 (listed_hosts_have_variables (demo_files (Doc VNone)) demo_ls
                   (λ _, "") demo_generator [] _ _)).
  reflexivity.
Defined.

(** X9.  With a host filter, the inventory has only hosts of identities
    whose hostname, as the walker gives it (the qualified name, not the
    short one), is in the filter; and when the walk ends without error
    and the filter names none of the walked hostnames, the inventory is
    empty and no definition file is read. *)
Theorem filter_selects_by_hostname
    (files : string → fsnode) (ls : string → list string)
    (cstr : value → string) (self : InventoryGenerator)
    (host_filter : list string) :
  host_filter ≠ [] →
  (∀ out name,
     generate_inventory files ls cstr self None host_filter = Ok out →
     name ∈ all_hosts out →
     ∃ r host_record_,
       r ∈ (traverse_site ls (environment_domain self)
              (site_definitions_directory self)).1 ∧
       r.1.2 ∈ host_filter ∧
       host_record files cstr self r = Ok (Some host_record_) ∧
       name ∈ record_names host_record_) ∧
  (∀ ids,
     traverse_site ls (environment_domain self)
       (site_definitions_directory self) = (ids, None) →
     Forall (λ r : identity, r.1.2 ∉ host_filter) ids →
     generate_inventory files ls cstr self None host_filter
     = Ok {| all_hosts := []; hostvars := [] |}).
Proof.
  intros Hf.
  assert (nonempty host_filter = true) as Hne by (by destruct host_filter).
  split.
  - intros out name H Hname.
    apply generate_inventory_inv in H as (host_data & Hrecs & Hadd).
    apply add_hosts_all_hosts in Hadd. simpl in Hadd. rewrite Hadd in Hname.
    apply list_elem_of_In, in_concat in Hname as (names & Hnames & Hn).
    apply in_map_iff in Hnames as (rec & <- & Hrec).
    apply list_elem_of_In in Hrec. apply list_elem_of_In in Hn.
    destruct (host_records_elem _ _ _ _ _ _ _ Hrecs Hrec) as (r & Hr & Hrec').
    unfold selected in Hr. rewrite Hne in Hr.
    apply list_elem_of_filter in Hr as [Hin Hr].
    exists r, rec. split_and!; [done| |done|done].
    apply Is_true_true, existsb_exists in Hin as (h & Hh & Heq).
    apply String.eqb_eq in Heq. subst h. by apply list_elem_of_In.
  - intros ids Hwalk Hnone. unfold generate_inventory.
    rewrite Hwalk, Hne. cbn [bind].
    assert (filter (λ f : identity,
                      Is_true (existsb (String.eqb f.1.2) host_filter)) ids
            = []) as ->; [|done].
    clear Hwalk. induction Hnone as [|r ids Hr _ IH]; [done|].
    rewrite filter_cons, decide_False; [exact IH|].
    intros Hin. apply Hr.
    apply Is_true_true, existsb_exists in Hin as (h & Hh & Heq).
    apply String.eqb_eq in Heq. subst h. by apply list_elem_of_In.
Qed.

Lemma filter_selects_by_hostname_witness :
  generate_inventory (λ _, Malformed) demo_ls (λ _, "") demo_generator None
    ["lxr3-dck-01"]
  = Ok {| all_hosts := []; hostvars := [] |}.
Proof.
  refine (proj2 (filter_selects_by_hostname (λ _, Malformed) demo_ls (λ _, "")
                   demo_generator ["lxr3-dck-01"] _) _ eq_refl _);
    [discriminate|].
  repeat (apply List.Forall_cons || apply List.Forall_nil); simpl;
    intros Hin; apply list_elem_of_singleton in Hin; discriminate.
Defined.

(** X10.  An error of the site walk always aborts the run: when the walk
    ends with an exception, [generate_inventory] returns no inventory,
    whatever the hosts walked before the error; with a host filter it
    raises the error of the walk, before any definition file is read. *)
Theorem walk_error_aborts_inventory
    (files : string → fsnode) (ls : string → list string)
    (cstr : value → string) (self : InventoryGenerator)
    (host_filter : list string) (ids : list identity) (e : exn) :
  traverse_site ls (environment_domain self) (site_definitions_directory self)
  = (ids, Some e) →
  (∃ e', generate_inventory files ls cstr self None host_filter = Raise e') ∧
  (host_filter ≠ [] →
   generate_inventory files ls cstr self None host_filter = Raise e).
Proof.
  intros Hwalk. unfold generate_inventory. rewrite Hwalk.
  destruct host_filter as [|h host_filter]; cbn [nonempty bind].
  - split; [|done]. unfold generate_host_data. cbn [fst snd].
    destruct (host_records files cstr self ids) as [recs [e0|]];
      destruct (add_hosts _ recs) as [o|e1]; cbn [bind]; by eexists.
  - split; [by exists e|done].
Qed.

Lemma walk_error_aborts_inventory_witness :
  generate_inventory (λ _, NoFile) open_range_ls (λ _, "") demo_generator None
    ["lxr3-dck-01.example.com"]
  = Raise ValueError.
Proof.
  refine (proj2 (walk_error_aborts_inventory (λ _, NoFile) open_range_ls
                   (λ _, "") demo_generator ["lxr3-dck-01.example.com"]
                   [] ValueError _) _);
    [reflexivity|discriminate].
Defined.

(** ** The walker *)

Lemma walk_file_shape (environment_domain dir name : string) ids :
  walk_file environment_domain dir name = Ok ids →
  Forall (λ id : identity,
            ∃ short, id.1.1 = path_join dir name ∧ id.2 = Some short ∧
                     (id.1.2 = (short ++ "." ++ environment_domain)%string ∨
                      short = "localhost" ∧ id.1.2 = "localhost")) ids.
Proof.
  unfold walk_file. intros H.
  destruct (re_match 2 synthetic_hostname_pattern name) as [groups|].
  - destruct (expand_host groups) as [ehs|]; [|done]. cbn [bind] in H.
    inversion H; subst ids. apply Forall_forall. intros id Hid.
    apply list_elem_of_fmap in Hid as (eh & -> & _). exists eh. simpl.
    split_and!; [done|done|by left].
  - inversion H; subst ids.
    apply List.Forall_cons; [|apply List.Forall_nil].
    exists (path_stem name). simpl. split_and!; [done|done|].
    destruct (String.eqb (path_stem name) "localhost") eqn:Hl.
    + apply String.eqb_eq in Hl. right. by rewrite Hl.
    + by left.
Qed.

Lemma walk_files_elem (environment_domain dir : string) : ∀ names ids err id,
  walk_files environment_domain dir names = (ids, err) → id ∈ ids →
  ∃ name ids', name ∈ names ∧
               walk_file environment_domain dir name = Ok ids' ∧ id ∈ ids'.
Proof.
  induction names as [|name names IH]; intros ids err id H Hid; simpl in H.
  - inversion H; subst. by apply elem_of_nil in Hid.
  - destruct (walk_file environment_domain dir name) as [ids0|] eqn:Hw.
    + destruct (walk_files environment_domain dir names) as [rest err'].
      inversion H; subst. apply elem_of_app in Hid as [Hid|Hid].
      * exists name, ids0. split_and!; [by left|done|done].
      * destruct (IH rest err id eq_refl Hid) as (n & ids' & ? & ? & ?).
        exists n, ids'. split_and!; [by right|done|done].
    + inversion H; subst. by apply elem_of_nil in Hid.
Qed.

Lemma walk_dirs_elem ls (environment_domain directory : string) :
  ∀ entries ids err id,
  walk_dirs ls environment_domain directory entries = (ids, err) → id ∈ ids →
  ∃ entry name ids',
    entry ∈ entries ∧ name ∈ ls (path_join directory entry) ∧
    ends_with ".yaml" name = true ∧
    walk_file environment_domain (path_join directory entry) name = Ok ids' ∧
    id ∈ ids'.
Proof.
  induction entries as [|entry entries IH]; intros ids err id H Hid;
    simpl in H.
  - inversion H; subst. by apply elem_of_nil in Hid.
  - destruct (walk_files environment_domain (path_join directory entry) _)
      as [ids0 err0] eqn:Hw.
    assert (id ∈ ids0 →
            ∃ entry0 name ids',
              entry0 ∈ entry :: entries ∧
              name ∈ ls (path_join directory entry0) ∧
              ends_with ".yaml" name = true ∧
              walk_file environment_domain (path_join directory entry0) name
              = Ok ids' ∧ id ∈ ids') as Hhere.
    { intros Hin.
      destruct (walk_files_elem _ _ _ _ _ _ Hw Hin) as (n & ids' & Hn & ? & ?).
      apply list_elem_of_filter in Hn as [Hy Hn].
      exists entry, n, ids'. split_and!; [by left|done| |done|done].
      by apply Is_true_true. }
    destruct err0 as [e|].
    + inversion H; subst. by apply Hhere.
    + destruct (walk_dirs ls environment_domain directory entries)
        as [rest err'].
      inversion H; subst. apply elem_of_app in Hid as [Hid|Hid].
      * by apply Hhere.
      * destruct (IH rest err id eq_refl Hid)
          as (e0 & n & ids' & ? & ? & ? & ? & ?).
        exists e0, n, ids'. split_and!; [by right|done..].
Qed.

(** X11.  Every identity that the walker yields is that of a file exactly
    two levels below the walked directory, in one of its entries, whose
    name ends with [.yaml]; it has a short name, and its hostname is the
    short name followed by a dot and the environment domain, or
    [localhost] for the short name [localhost].  Files directly in the
    walked directory, or deeper than its entries, yield nothing. *)
Theorem walked_identity_shape
    (ls : string → list string) (environment_domain directory : string)
    (id : identity) :
  id ∈ (traverse_site ls environment_domain directory).1 →
  ∃ group name short,
    group ∈ ls directory ∧
    name ∈ ls (path_join directory group) ∧
    ends_with ".yaml" name = true ∧
    id.1.1 = path_join (path_join directory group) name ∧
    id.2 = Some short ∧
    (id.1.2 = (short ++ "." ++ environment_domain)%string ∨
     short = "localhost" ∧ id.1.2 = "localhost").
Proof.
  unfold traverse_site. intros Hid.
  destruct (walk_dirs ls environment_domain directory (ls directory))
    as [ids err] eqn:Hw.
  destruct (walk_dirs_elem _ _ _ _ _ _ _ Hw Hid)
    as (group & name & ids' & Hg & Hn & Hy & Hf & Hin).
  apply walk_file_shape in Hf.
  destruct (proj1 (Forall_forall _ _) Hf id Hin) as (short & ? & ? & ?).
  by exists group, name, short.
Qed.

Lemma walked_identity_shape_witness :
  ∃ group name short,
    group ∈ demo_ls "site/definitions" ∧
    name ∈ demo_ls (path_join "site/definitions" group) ∧
    ends_with ".yaml" name = true ∧
    "site/definitions/web/lxr3-dck-02.yaml"
    = path_join (path_join "site/definitions" group) name ∧
    Some "lxr3-dck-02" = Some short ∧
    ("lxr3-dck-02.example.com" = (short ++ "." ++ "example.com")%string ∨
     short = "localhost" ∧ "lxr3-dck-02.example.com" = "localhost").
Proof.
  apply (walked_identity_shape demo_ls "example.com" "site/definitions"
           ("site/definitions/web/lxr3-dck-02.yaml", "lxr3-dck-02.example.com",
            Some "lxr3-dck-02")).
  right. left.
Defined.

(** *** Ranges *)

Lemma digit_bound_char (c : ascii) : is_digit c = true → bound_char c = true.
Proof.
  intros Hc. apply is_digit_cases in Hc as (H1 & _ & H2 & H3 & H4 & _).
  unfold bound_char. simpl in H1. by rewrite H1, H2, H3, H4.
Qed.

Lemma append_empty_r (s : string) : (s ++ "")%string = s.
Proof. induction s; simpl; congruence. Qed.

(** The hosts of a range, for any text of the upper bound. *)
Lemma expand_host_bounds (prefix sa sb : string) :
  sa ≠ "" → string_forall is_digit sa = true →
  string_forall bound_char sb = true →
  expand_host [Some prefix; Some ("[" ++ sa ++ "-" ++ sb ++ "]")%string]
  = let* e := int_of_string sb in
    Ok (map (λ n, (prefix ++ format_02d n)%string)
          (range (decimal sa) (e + 1))).
Proof.
  intros Hsa Hda Hsb. unfold expand_host.
  cbn [last group_truthy String.append String.eqb Ascii.eqb Bool.eqb negb bind].
  cbn [delete_chars existsb Ascii.eqb Bool.eqb orb].
  rewrite !delete_chars_append, (delete_brackets_digits sa Hda).
  cbn [delete_chars existsb Ascii.eqb Bool.eqb orb String.append].
  rewrite delete_chars_append.
  rewrite (delete_chars_id _ sb).
  2:{ eapply string_forall_impl; [|exact Hsb]. intros c Hc.
      unfold bound_char in Hc. cbn [existsb].
      apply andb_true_iff in Hc as [Hc _].
      apply andb_true_iff in Hc as [Hc H3].
      apply andb_true_iff in Hc as [_ H2].
      apply negb_true_iff in H2, H3. by rewrite H2, H3. }
  cbn [delete_chars existsb Ascii.eqb Bool.eqb orb].
  rewrite append_empty_r.
  rewrite split_at_sep by (by apply digits_no_dash).
  rewrite split_no_sep.
  2:{ apply contains_forall. eapply string_forall_impl; [|exact Hsb].
      intros c Hc. unfold bound_char in Hc.
      by apply andb_true_iff in Hc as [_ Hc]. }
  cbn [hd nth length Nat.ltb Nat.leb].
  rewrite (int_of_string_digits sa) by done. cbn [bind].
  by destruct (int_of_string sb).
Qed.

Lemma walk_file_bounds (environment_domain dir prefix sa sb : string) :
  contains LF prefix = false →
  sa ≠ "" → string_forall is_digit sa = true →
  string_forall bound_char sb = true →
  let name := (prefix ++ "[" ++ sa ++ "-" ++ sb ++ "]" ++ ".yaml")%string in
  walk_file environment_domain dir name
  = let* e := int_of_string sb in
    Ok (map (λ n, identity_of environment_domain dir name
                    (prefix ++ format_02d n))
          (range (decimal sa) (e + 1))).
Proof.
  intros Hprefix Hsa Hda Hsb. cbv zeta.
  assert (re_match 2 synthetic_hostname_pattern
            (prefix ++ "[" ++ sa ++ "-" ++ sb ++ "]" ++ ".yaml")
          = Some [Some prefix; Some ("[" ++ sa ++ "-" ++ sb ++ "]")%string])
    as Hm.
  { apply (synthetic_match prefix sa (String "-" sb)); try done.
    - by apply contains_forall in Hprefix.
    - cbn [string_forall]. apply andb_true_iff. split; [reflexivity|].
      eapply string_forall_impl; [|exact Hsb].
      intros c Hc. unfold bound_char in Hc.
      apply andb_true_iff in Hc as [Hc _].
      apply andb_true_iff in Hc as [Hc _].
      apply andb_true_iff in Hc as [H1 H2].
      simpl. by rewrite H1, H2. }
  unfold walk_file. rewrite Hm, expand_host_bounds by done.
  destruct (int_of_string sb) as [e|]; [|done]. cbn [bind].
  by rewrite map_map.
Qed.

Lemma range_empty (lo hi : Z) : (hi ≤ lo)%Z → range lo hi = [].
Proof.
  intros H. unfold range. by replace (Z.to_nat (hi - lo)) with 0 by lia.
Qed.

(** X12.  A range whose upper bound is below its lower bound defines no
    host: for the stem [prefix[A-B]] with [B < A] the walker yields
    nothing and raises nothing, so the file is skipped silently. *)
Theorem descending_range_yields_no_host
    (environment_domain dir prefix sa sb : string) :
  contains LF prefix = false →
  sa ≠ "" → string_forall is_digit sa = true →
  sb ≠ "" → string_forall is_digit sb = true →
  (decimal sb < decimal sa)%Z →
  let name := (prefix ++ "[" ++ sa ++ "-" ++ sb ++ "]" ++ ".yaml")%string in
  walk_file environment_domain dir name = Ok [] ∧
  ∀ ls directory group,
    dir = path_join directory group →
    ls directory = [group] → ls dir = [name] →
    traverse_site ls environment_domain directory = ([], None).
Proof.
  intros Hprefix Hsa Hda Hsb Hdb Hlt. cbv zeta.
  assert (walk_file environment_domain dir
            (prefix ++ "[" ++ sa ++ "-" ++ sb ++ "]" ++ ".yaml") = Ok [])
    as Hwalk.
  { pose proof (walk_file_bounds environment_domain dir prefix sa sb) as H.
    cbv zeta in H. rewrite H; try done.
    - rewrite int_of_string_digits by done. cbn [bind].
      rewrite range_empty by lia. done.
    - eapply string_forall_impl; [|exact Hdb]. apply digit_bound_char. }
  split; [exact Hwalk|].
  intros ls directory group -> Hdir Hls.
  eapply traverse_site_single_file; [done|done| |exact Hwalk].
  replace (prefix ++ "[" ++ sa ++ "-" ++ sb ++ "]" ++ ".yaml")%string
    with ((prefix ++ "[" ++ sa ++ "-" ++ sb ++ "]") ++ ".yaml")%string
    by (by rewrite !append_assoc).
  apply ends_with_append.
Qed.

Lemma descending_range_yields_no_host_witness :
  walk_file "example.com" "site/definitions/web" "lxr3-dck-[05-03].yaml"
  = Ok [].
Proof.
  refine (proj1 (descending_range_yields_no_host "example.com"
                   "site/definitions/web" "lxr3-dck-" "05" "03" _ _ _ _ _ _));
    [reflexivity|discriminate|reflexivity|discriminate|reflexivity|].
  vm_compute. reflexivity.
Defined.

Lemma walk_files_error (environment_domain dir name : string) (e : exn) :
  walk_file environment_domain dir name = Raise e →
  ∀ names, name ∈ names →
    ∃ ids e', walk_files environment_domain dir names = (ids, Some e').
Proof.
  intros Hwalk names Hin. induction names as [|n names IH].
  - by apply elem_of_nil in Hin.
  - cbn [walk_files].
    destruct (walk_file environment_domain dir n) as [ids0|e0] eqn:Hn.
    + apply elem_of_cons in Hin as [->|Hin]; [congruence|].
      destruct (IH Hin) as (ids & e' & ->). by exists (ids0 ++ ids), e'.
    + by exists [], e0.
Qed.

Lemma walk_dirs_error ls (environment_domain directory entry : string) ids0 e :
  walk_files environment_domain (path_join directory entry)
    (filter (λ n, Is_true (ends_with ".yaml" n))
       (ls (path_join directory entry))) = (ids0, Some e) →
  ∀ entries, entry ∈ entries →
    ∃ ids e', walk_dirs ls environment_domain directory entries
              = (ids, Some e').
Proof.
  intros Hfiles entries Hin. induction entries as [|d entries IH].
  - by apply elem_of_nil in Hin.
  - cbn [walk_dirs].
    destruct (walk_files environment_domain (path_join directory d) _)
      as [ids1 [e1|]] eqn:Hd.
    + by exists ids1, e1.
    + apply elem_of_cons in Hin as [->|Hin]; [congruence|].
      destruct (IH Hin) as (ids & e' & ->). by exists (ids1 ++ ids), e'.
Qed.

(** X13.  A range whose upper bound is no integer for [int] (a letter,
    or nothing at all as in [prefix[3-]]) makes the walker raise
    [ValueError] at that file, and the walk of any site that has such a
    file in one of its group directories ends with an exception. *)
Theorem malformed_range_aborts_walk
    (environment_domain dir prefix sa sb : string) :
  contains LF prefix = false →
  sa ≠ "" → string_forall is_digit sa = true →
  string_forall bound_char sb = true →
  int_of_string sb = Raise ValueError →
  let name := (prefix ++ "[" ++ sa ++ "-" ++ sb ++ "]" ++ ".yaml")%string in
  walk_file environment_domain dir name = Raise ValueError ∧
  ∀ ls directory group,
    dir = path_join directory group →
    group ∈ ls directory → name ∈ ls dir →
    ∃ ids e, traverse_site ls environment_domain directory = (ids, Some e).
Proof.
  intros Hprefix Hsa Hda Hsb Hint. cbv zeta.
  assert (walk_file environment_domain dir
            (prefix ++ "[" ++ sa ++ "-" ++ sb ++ "]" ++ ".yaml")
          = Raise ValueError) as Hwalk.
  { pose proof (walk_file_bounds environment_domain dir prefix sa sb) as H.
    cbv zeta in H. rewrite H by done. by rewrite Hint. }
  split; [exact Hwalk|].
  intros ls directory group -> Hdir Hls. unfold traverse_site.
  destruct (walk_files_error _ _ _ _ Hwalk
              (filter (λ n, Is_true (ends_with ".yaml" n))
                 (ls (path_join directory group)))) as (ids0 & e0 & Hfiles).
  { apply list_elem_of_filter. split; [|done]. apply Is_true_true.
    replace (prefix ++ "[" ++ sa ++ "-" ++ sb ++ "]" ++ ".yaml")%string
      with ((prefix ++ "[" ++ sa ++ "-" ++ sb ++ "]") ++ ".yaml")%string
      by (by rewrite !append_assoc).
    apply ends_with_append. }
  by eapply walk_dirs_error.
Qed.

Lemma malformed_range_aborts_walk_witness :
  walk_file "example.com" "site/definitions/web" "lxr3-dck-[1-].yaml"
  = Raise ValueError.
Proof.
  refine (proj1 (malformed_range_aborts_walk "example.com"
                   "site/definitions/web" "lxr3-dck-" "1" "" _ _ _ _ _));
    [reflexivity|discriminate|reflexivity|reflexivity|reflexivity].
Defined.

(** *** Plain names *)

Lemma contains_append (c : ascii) (s1 s2 : string) :
  contains c (s1 ++ s2) = contains c s1 || contains c s2.
Proof.
  induction s1 as [|c1 s1 IH]; simpl; [done|]. by rewrite IH, orb_assoc.
Qed.

(** A name without opening bracket is no synthetic name. *)
Lemma synthetic_no_bracket (name : string) :
  contains "[" name = false →
  re_match 2 synthetic_hostname_pattern name = None.
Proof.
  intros Hname. unfold re_match, synthetic_hostname_pattern.
  cbn [rmatch]. apply (star_none CAny name _ "["); [done|].
  intros s' Hs'. destruct s' as [|c s']; [done|].
  cbn [rmatch cls_ok]. by destruct (Ascii.eqb_spec c "[").
Qed.

Lemma rfind_dot_yaml (stem : string) :
  rfind "." (stem ++ ".yaml") = Some (String.length stem).
Proof.
  induction stem as [|c stem IH]; [done|].
  cbn [append rfind String.length]. by rewrite IH.
Qed.

Lemma path_stem_yaml (stem : string) :
  stem ≠ "" → path_stem (stem ++ ".yaml") = stem.
Proof.
  intros Hstem. unfold path_stem. rewrite rfind_dot_yaml, length_append.
  destruct stem as [|c stem]; [done|].
  replace (0 <? String.length (String c stem))%nat with true
    by (symmetry; apply Nat.ltb_lt; simpl; lia).
  replace (String.length (String c stem) <?
           String.length (String c stem) + String.length ".yaml" - 1)%nat
    with true by (symmetry; apply Nat.ltb_lt; simpl; lia).
  cbn [andb]. apply substring_prefix.
Qed.

(** X14.  A definition file [stem.yaml] whose stem is not empty and has
    no opening bracket defines exactly one host: its short name is the
    stem, dots included, and its hostname is the stem followed by a dot
    and the environment domain, except for the stem [localhost], whose
    hostname is [localhost]. *)
Theorem plain_definition_file_identity
    (environment_domain dir stem : string) :
  stem ≠ "" → contains "[" stem = false →
  walk_file environment_domain dir (stem ++ ".yaml")
  = Ok [(path_join dir (stem ++ ".yaml"),
         if String.eqb stem "localhost" then "localhost"
         else (stem ++ "." ++ environment_domain)%string,
         Some stem)].
Proof.
  intros Hstem Hbr. unfold walk_file.
  rewrite synthetic_no_bracket by (by rewrite contains_append, Hbr).
  rewrite path_stem_yaml by done.
  destruct (String.eqb_spec stem "localhost") as [->|]; done.
Qed.

Lemma plain_definition_file_identity_witness :
  walk_file "example.com" "site/definitions/web" "lxr3-dck-01.v2.yaml"
  = Ok [("site/definitions/web/lxr3-dck-01.v2.yaml",
         "lxr3-dck-01.v2.example.com", Some "lxr3-dck-01.v2")].
Proof.
  refine (plain_definition_file_identity "example.com" "site/definitions/web"
            "lxr3-dck-01.v2" _ _); [discriminate|reflexivity].
Defined.

(** ** Record names of child hosts *)

Lemma split_app_sep (sep : ascii) (s1 s2 : string) :
  split sep (s1 ++ String sep s2) = split sep s1 ++ split sep s2.
Proof.
  induction s1 as [|c s1 IH]; cbn [append split].
  - by rewrite Ascii.eqb_refl.
  - destruct (Ascii.eqb c sep); [by rewrite IH|].
    rewrite IH. destruct (split sep s1) as [|w ws] eqn:Hs; [|done].
    by apply split_nonempty in Hs.
Qed.

Lemma join_split (sep : ascii) (s : string) :
  join (String sep "") (split sep s) = s.
Proof.
  induction s as [|c s IH]; [done|]. cbn [split].
  destruct (Ascii.eqb_spec c sep) as [->|Hc].
  - destruct (split sep s) as [|w ws] eqn:Hs.
    + by apply split_nonempty in Hs.
    + cbn [join]. cbn [join] in IH. by rewrite IH.
  - destruct (split sep s) as [|w ws] eqn:Hs.
    + by apply split_nonempty in Hs.
    + destruct ws as [|w' ws]; cbn [join append] in IH |- *; by rewrite IH.
Qed.

Lemma hd_split_app (sep : ascii) (s1 s2 : string) :
  contains sep s1 = true →
  hd "" (split sep (s1 ++ s2)) = hd "" (split sep s1).
Proof.
  induction s1 as [|c s1 IH]; [done|]. cbn [contains append split].
  destruct (Ascii.eqb c sep); [done|]. cbn [orb]. intros Hs1.
  specialize (IH Hs1).
  destruct (split sep (s1 ++ s2)) as [|w ws] eqn:H1;
    [by apply split_nonempty in H1|].
  destruct (split sep s1) as [|w' ws'] eqn:H2;
    [by apply split_nonempty in H2|].
  simpl in IH |- *. by rewrite IH.
Qed.

(** X15.  The record name of a host whose definition file is
    [child@parent.yaml] is [parent:] followed by the hostname of the
    walker, the parent being the text between the [@] and the [.yaml]
    ending; the name is classified by its text before the first dash, so
    that a child whose parent has a dash in its name gets the OS class of
    the parent.  A path without [@] leaves the hostname as it is. *)
Theorem child_record_name (pre parent r1 : string) :
  contains "@" pre = false → contains "@" parent = false →
  record_name (pre ++ "@" ++ parent ++ ".yaml") r1
  = (parent ++ ":" ++ r1)%string ∧
  (contains "-" parent = true →
   hd "" (split "-" (record_name (pre ++ "@" ++ parent ++ ".yaml") r1))
   = hd "" (split "-" parent)) ∧
  record_name pre r1 = r1.
Proof.
  intros Hpre Hparent.
  assert (record_name (pre ++ "@" ++ parent ++ ".yaml") r1
          = (parent ++ ":" ++ r1)%string) as Hname.
  { unfold record_name.
    change (pre ++ "@" ++ parent ++ ".yaml")%string
      with (pre ++ String "@" (parent ++ ".yaml"))%string.
    rewrite split_at_sep by done.
    rewrite split_no_sep by (by rewrite contains_append, Hparent).
    cbn [length Nat.ltb Nat.leb nth].
    change (parent ++ ".yaml")%string with (parent ++ String "." "yaml")%string.
    rewrite split_app_sep.
    change (split "." "yaml") with ["yaml"].
    by rewrite removelast_last, join_split. }
  split_and!; [exact Hname| |].
  - intros Hdash. rewrite Hname. by apply hd_split_app.
  - unfold record_name. by rewrite split_no_sep.
Qed.

Lemma child_record_name_witness :
  record_name "site/definitions/web/lxr3-dck-01@lxr4-kvm-02.yaml"
    "lxr3-dck-01@lxr4-kvm-02.example.com"
  = "lxr4-kvm-02:lxr3-dck-01@lxr4-kvm-02.example.com".
Proof.
  refine (proj1 (child_record_name "site/definitions/web/lxr3-dck-01"
                   "lxr4-kvm-02" "lxr3-dck-01@lxr4-kvm-02.example.com" _ _));
    reflexivity.
Defined.

(** ** [merge]: merging twice *)

Lemma dict_ext (d1 d2 : dict) :
  keys d1 = keys d2 → NoDup (keys d1) →
  (∀ k, lookup k d1 = lookup k d2) → d1 = d2.
Proof.
  revert d2. induction d1 as [|[k1 v1] d1 IH]; intros [|[k2 v2] d2] Hk Hnd Hl;
    try done.
  cbn [keys map fst] in Hk, Hnd. inversion Hk as [[Hk1 Hk2]]. subst k2.
  apply NoDup_cons in Hnd as [Hnotin Hnd].
  pose proof (Hl k1) as H1. cbn [lookup] in H1.
  rewrite key_eqb_refl in H1. inversion H1; subst v2.
  f_equal. apply IH; [done|done|].
  intros k. specialize (Hl k). cbn [lookup] in Hl.
  key_cases k k1; [|done].
  assert (lookup k1 d1 = None) as -> by (by apply lookup_None_keys).
  symmetry. apply lookup_None_keys. unfold keys. by rewrite <- Hk2.
Qed.

Lemma filter_none {A} (P : A → Prop) `{∀ x, Decision (P x)} (l : list A) :
  Forall (λ x, ¬ P x) l → filter P l = [].
Proof.
  induction 1 as [|x l Hx _ IH]; [done|].
  by rewrite filter_cons, decide_False.
Qed.

(** A mapping merged with an equal mapping is unchanged. *)
Lemma merge_same (v : value) :
  wf_value v = true →
  match v with VDict a => merge a a = a | _ => True end.
Proof.
  induction v as [| | | | |a IH] using value_ind'; try done.
  intros Hwf. apply wf_value_dict in Hwf as [Hnd Hall].
  destruct a as [|kv a'] eqn:Ha; [done|]. rewrite <- Ha in *.
  assert (a ≠ []) as Hne by (by rewrite Ha).
  assert (keys (merge a a) = keys a) as Hkeys.
  { rewrite keys_merge by done. rewrite filter_none, app_nil_r; [done|].
    apply Forall_forall. by intros k Hk Hn. }
  apply dict_ext; [done|by rewrite Hkeys|].
  intros k. rewrite lookup_merge by done.
  destruct (lookup k a) as [av|] eqn:Hk; [|done].
  destruct av as [| | | | |a0]; try done.
  apply lookup_Some_elem in Hk.
  pose proof (proj1 (Forall_forall _ _) IH _ Hk) as IHk.
  pose proof (proj1 (Forall_forall _ _) Hall _ Hk) as Hwfk.
  simpl in IHk, Hwfk. by rewrite (IHk Hwfk).
Qed.

Lemma merge_twice (vb : value) : ∀ a,
  wf_value (VDict a) = true → wf_value vb = true →
  match vb with
  | VDict b => merge (merge a b) b = merge a b
  | _ => True
  end.
Proof.
  induction vb as [| | | | |b IH] using value_ind'; try done.
  intros a Hwfa Hwfb.
  destruct (negb (nonempty a && nonempty b)) eqn:Hempty.
  { rewrite (merge_unfold a b), Hempty. by rewrite merge_unfold, Hempty. }
  apply negb_false_iff, andb_true_iff in Hempty as [Ha Hb].
  assert (a ≠ []) as Hane by (by destruct a).
  assert (b ≠ []) as Hbne by (by destruct b).
  pose proof Hwfa as Hwfa'. pose proof Hwfb as Hwfb'.
  apply wf_value_dict in Hwfa' as [Hnda Halla].
  apply wf_value_dict in Hwfb' as [Hndb Hallb].
  pose proof (merge_nonempty_l a b Hane) as Hmne.
  pose proof (merge_keys_NoDup a b Hnda Hndb) as Hndm.
  assert (keys (merge (merge a b) b) = keys (merge a b)) as Hkeys.
  { rewrite (keys_merge (merge a b) b) by done.
    rewrite filter_none, app_nil_r; [done|].
    apply Forall_forall. intros k Hk Hn. apply Hn.
    rewrite keys_merge by done. apply elem_of_app.
    destruct (decide (k ∈ keys a)); [by left|right].
    by apply list_elem_of_filter. }
  apply dict_ext; [done|by rewrite Hkeys|].
  intros k. rewrite (lookup_merge (merge a b) b) by done.
  rewrite (lookup_merge a b) by done.
  destruct (lookup k a) as [av|] eqn:Hka, (lookup k b) as [bv|] eqn:Hkb;
    try done.
  - (* in both *)
    apply lookup_Some_elem in Hka, Hkb.
    pose proof (proj1 (Forall_forall _ _) IH _ Hkb) as IHk.
    pose proof (proj1 (Forall_forall _ _) Halla _ Hka) as Hwfav.
    pose proof (proj1 (Forall_forall _ _) Hallb _ Hkb) as Hwfbv.
    simpl in IHk, Hwfav, Hwfbv.
    destruct av as [| | | | |da]; destruct bv as [| | | | |db]; try done.
    by rewrite (IHk da Hwfav Hwfbv).
  - by destruct av.
  - (* new in [a]: [b[k]] merged with itself *)
    apply lookup_Some_elem in Hkb.
    pose proof (proj1 (Forall_forall _ _) Hallb _ Hkb) as Hwfbv.
    simpl in Hwfbv. pose proof (merge_same bv Hwfbv) as Hsame.
    destruct bv as [| | | | |db]; try done. by rewrite Hsame.
Qed.

(** X16.  Merging is idempotent: merging [b] a second time into the
    result of [merge(a, b)] changes nothing, and a mapping merged with
    an equal mapping is unchanged. *)
Theorem merge_idempotent (a b : dict) :
  wf_value (VDict a) = true → wf_value (VDict b) = true →
  merge (merge a b) b = merge a b ∧ merge a a = a.
Proof.
  intros Ha Hb. split.
  - by apply (merge_twice (VDict b)).
  - by apply (merge_same (VDict a)).
Qed.

Lemma merge_idempotent_witness :
  let a := [(KStr "a", VInt 1); (KStr "n", VDict [(KStr "x", VInt 1)])] in
  let b := [(KStr "a", VInt 2); (KStr "n", VDict [(KStr "y", VInt 2)]);
            (KStr "m", VDict [(KStr "z", VInt 3)])] in
  merge (merge a b) b = merge a b.
Proof.
  refine (proj1 (merge_idempotent
                   [(KStr "a", VInt 1); (KStr "n", VDict [(KStr "x", VInt 1)])]
                   [(KStr "a", VInt 2); (KStr "n", VDict [(KStr "y", VInt 2)]);
                    (KStr "m", VDict [(KStr "z", VInt 3)])] _ _));
    reflexivity.
Defined.

(** ** [merge] on objects: the recursion limit and aliased arguments *)

Lemma merge_loop_mono
    (rec1 rec2 : Obj.loc → Obj.loc → Obj.store → result (Obj.store * Obj.loc)) :
  (∀ a b σ r, rec1 a b σ = Ok r → rec2 a b σ = Ok r) →
  ∀ ks a b size σ σ',
    Obj.merge_loop rec1 a b size ks σ = Ok σ' →
    Obj.merge_loop rec2 a b size ks σ = Ok σ'.
Proof.
  intros Hrec. induction ks as [|k ks IH]; intros a b size σ σ' H.
  - exact H.
  - cbn [Obj.merge_loop] in H |- *.
    destruct (Obj.deref σ b) as [db|]; [|done]. cbn [bind] in H |- *.
    destruct (negb (Nat.eqb (length db) size)); [done|].
    destruct (Obj.deref σ a) as [da|]; [|done]. cbn [bind] in H |- *.
    destruct (Obj.item db k) as [bv|]; [|done]. cbn [bind] in H |- *.
    destruct (lookup k da) as [av|].
    + destruct av as [x|a']; [by apply IH|].
      destruct bv as [y|b']; [by apply IH|].
      destruct (rec1 a' b' σ) as [[σ1 r1]|] eqn:H1; [|done].
      rewrite (Hrec _ _ _ _ H1). cbn [bind] in H |- *. by apply IH.
    + cbn [bind] in H |- *. by apply IH.
Qed.

Lemma merge_S (fuel : nat) (a b : Obj.loc) (σ : Obj.store) :
  Obj.merge (S fuel) a b σ
  = let* da := Obj.deref σ a in
    let* db := Obj.deref σ b in
    if negb (nonempty da && nonempty db) then Ok (Obj.alloc da σ)
    else
      let* σ' := Obj.merge_loop (Obj.merge fuel) a b (length db) (keys db) σ in
      let* da' := Obj.deref σ' a in
      Ok (Obj.alloc da' σ').
Proof. reflexivity. Qed.

Lemma merge_fuel_S (fuel : nat) : ∀ a b σ r,
  Obj.merge fuel a b σ = Ok r → Obj.merge (S fuel) a b σ = Ok r.
Proof.
  induction fuel as [|fuel IH]; intros a b σ r H; [done|].
  rewrite merge_S in H. rewrite (merge_S (S fuel)).
  destruct (Obj.deref σ a) as [da|]; [|done]. cbn [bind] in H |- *.
  destruct (Obj.deref σ b) as [db|]; [|done]. cbn [bind] in H |- *.
  destruct (negb (nonempty da && nonempty db)); [done|].
  destruct (Obj.merge_loop (Obj.merge fuel) a b (length db) (keys db) σ)
    as [σ1|] eqn:Hloop; [|done].
  by rewrite (merge_loop_mono _ _ IH _ _ _ _ _ _ Hloop).
Qed.

(** X17.  The result of a merge that completes does not depend on the
    recursion limit: under any larger limit the same call returns the
    same object and leaves the same store, whatever the objects are and
    however they share their parts. *)
Theorem merge_independent_of_recursion_limit
    (fuel fuel' : nat) (a b : nat) (σ : list Obj.hdict)
    (r : list Obj.hdict * nat) :
  fuel ≤ fuel' →
  Obj.merge fuel a b σ = Ok r → Obj.merge fuel' a b σ = Ok r.
Proof.
  intros Hle H. induction Hle as [|fuel' _ IH]; [done|].
  by apply merge_fuel_S.
Qed.

Lemma merge_independent_of_recursion_limit_witness :
  Obj.merge 1000 0 1
    [[(KStr "n", Obj.HRef 2)]; [(KStr "n", Obj.HRef 3)];
     [(KStr "x", Obj.HLeaf (VInt 1))]; [(KStr "y", Obj.HLeaf (VInt 2))]]
  = Ok ([[(KStr "n", Obj.HRef 2)]; [(KStr "n", Obj.HRef 3)];
         [(KStr "x", Obj.HLeaf (VInt 1)); (KStr "y", Obj.HLeaf (VInt 2))];
         [(KStr "y", Obj.HLeaf (VInt 2))];
         [(KStr "x", Obj.HLeaf (VInt 1)); (KStr "y", Obj.HLeaf (VInt 2))];
         [(KStr "n", Obj.HRef 2)]], 5).
Proof.
  refine (merge_independent_of_recursion_limit 2 1000 0 1 _ _ _ _);
    [lia|reflexivity].
Defined.

Lemma merge_loop_alias (n : nat) (σ : Obj.store) (F : Obj.loc → Prop)
    (a : Obj.loc) (hda : Obj.hdict) (ta : dict) :
  (∀ σ' a' ta',
     Obj.rep σ' F (Obj.HRef a') (VDict ta') → depth (VDict ta') ≤ n →
     ∃ ext hd, σ' !! a' = Some hd ∧
               Obj.merge n a' a' σ'
               = Ok (σ' ++ ext ++ [hd], length σ' + length ext)) →
  σ !! a = Some hda → Obj.rep_entries σ F hda ta →
  Forall (λ kv, depth kv.2 ≤ n) ta →
  ∀ ks ext, (∀ k, k ∈ ks → k ∈ keys hda) →
    ∃ ext', Obj.merge_loop (Obj.merge n) a a (length hda) ks (σ ++ ext)
            = Ok (σ ++ ext').
Proof.
  intros IHn Hσa Hrep Hdepth.
  induction ks as [|k ks IH]; intros ext Hks.
  - exists ext. cbn [Obj.merge_loop]. unfold Obj.deref.
    rewrite (lookup_app_l_Some _ _ _ _ Hσa). cbn [bind].
    by rewrite Nat.eqb_refl.
  - cbn [Obj.merge_loop]. unfold Obj.deref.
    rewrite (lookup_app_l_Some _ _ _ _ Hσa). cbn [bind].
    rewrite Nat.eqb_refl. cbn [negb]. unfold Obj.item.
    destruct (lookup k hda) as [av|] eqn:Hk.
    2:{ apply lookup_None_keys in Hk. destruct Hk. apply Hks. by left. }
    cbn [bind].
    assert (∀ k', k' ∈ ks → k' ∈ keys hda) as Hks'.
    { intros k' ?. apply Hks. by right. }
    destruct av as [x|a']; [cbn [bind]; by apply IH|].
    pose proof (ObjFacts.rep_entries_lookup σ F hda ta k Hrep) as Hl.
    rewrite Hk in Hl. destruct (lookup k ta) as [v|] eqn:Hkt; [|done].
    pose proof Hl as Hl'.
    apply ObjFacts.rep_ref_inv in Hl' as (hd' & ta' & -> & _).
    apply lookup_Some_elem in Hkt.
    pose proof (proj1 (Forall_forall _ _) Hdepth _ Hkt) as Hd. simpl in Hd.
    destruct (IHn (σ ++ ext) a' ta') as (ext2 & hd2 & _ & Hm); [|done|].
    { eapply ObjFacts.rep_weaken; [| |exact Hl]; [done|].
      apply ObjFacts.preserves_app. }
    rewrite Hm. cbn [bind]. rewrite <- app_assoc. by apply IH.
Qed.

(** X18.  Merging an object with itself changes no object: when both
    arguments are the same [dict], whose nesting is within the recursion
    limit, the call only creates objects, and what it returns is a new
    object with the entries of the argument. *)
Theorem merge_with_itself
    (fuel : nat) (σ : list Obj.hdict) (F : nat → Prop) (a : nat) (ta : dict) :
  Obj.rep σ F (Obj.HRef a) (VDict ta) →
  depth (VDict ta) ≤ fuel →
  ∃ ext hda,
    σ !! a = Some hda ∧
    Obj.merge fuel a a σ = Ok (σ ++ ext ++ [hda], length σ + length ext).
Proof.
  revert σ a ta. induction fuel as [|n IH]; intros σ a ta Hrep Hdepth.
  - pose proof (depth_dict_pos ta). lia.
  - apply ObjFacts.rep_ref_inv in Hrep as (hda & d & Heq & _ & Hσa & Hents).
    inversion Heq; subst d. apply depth_dict in Hdepth.
    rewrite merge_S. unfold Obj.deref at 1 2. rewrite Hσa. cbn [bind].
    destruct (negb (nonempty hda && nonempty hda)).
    + exists [], hda. split; [done|]. unfold Obj.alloc. simpl.
      by rewrite Nat.add_0_r.
    + destruct (merge_loop_alias n σ F a hda ta IH Hσa Hents Hdepth
                  (keys hda) []) as [ext Hloop]; [done|].
      rewrite app_nil_r in Hloop. rewrite Hloop. cbn [bind].
      unfold Obj.deref. rewrite (lookup_app_l_Some _ _ _ _ Hσa). cbn [bind].
      exists ext, hda. split; [done|]. unfold Obj.alloc.
      by rewrite <- app_assoc, length_app.
Qed.

Lemma merge_with_itself_witness :
  let σ := [[(KStr "a", Obj.HLeaf (VInt 1)); (KStr "n", Obj.HRef 1)];
            [(KStr "x", Obj.HLeaf (VInt 1))]] in
  ∃ ext hda,
    σ !! 0 = Some hda ∧
    Obj.merge 1000 0 0 σ = Ok (σ ++ ext ++ [hda], length σ + length ext).
Proof.
  refine (merge_with_itself 1000 _ (λ _, True) 0
            [(KStr "a", VInt 1); (KStr "n", VDict [(KStr "x", VInt 1)])] _ _).
  - eapply Obj.rep_ref; [done|reflexivity|].
    apply Obj.rep_cons; [by apply Obj.rep_leaf|].
    apply Obj.rep_cons; [|apply Obj.rep_nil].
    eapply Obj.rep_ref; [done|reflexivity|].
    apply Obj.rep_cons; [by apply Obj.rep_leaf|apply Obj.rep_nil].
  - simpl. lia.
Defined.

(** ** Classification maps given as files *)

(** X19.  The constructor takes the [data] entry of a classification-map
    file as the map, whatever it is: a non-empty mapping under [data]
    gives the generator that the same mapping given inline gives, a
    mapping without [data] gives the empty map, and a document that is no
    mapping at all, such as that of an empty file, makes construction
    fail with [AttributeError]. *)
Theorem class_map_file_document
    (files : string → fsnode) (site dom p : string) (other : value) :
  p ≠ "" →
  (∀ d m, files p = Doc (VDict d) → lookup (KStr "data") d = Some m →
     load_class_map files (VStr p) = Ok m ∧
     (is_dict m = true → truthy m = true →
      init files site dom (VStr p) other = init files site dom m other)) ∧
  (∀ d, files p = Doc (VDict d) → lookup (KStr "data") d = None →
     load_class_map files (VStr p) = Ok (VDict [])) ∧
  (∀ doc, files p = Doc doc → is_dict doc = false →
     init files site dom (VStr p) other = Raise AttributeError).
Proof.
  intros Hp. pose proof (load_class_map_path files p Hp) as Hload.
  split_and!.
  - intros d m Hf Hm. rewrite Hf in Hload. simpl in Hload. rewrite Hm in Hload.
    split; [exact Hload|]. intros Hdict Htruthy. unfold init. rewrite Hload.
    destruct m as [| | | | |dm]; try done.
    unfold load_class_map at 2. by rewrite Htruthy.
  - intros d Hf Hm. rewrite Hf in Hload. simpl in Hload. by rewrite Hm in Hload.
  - intros doc Hf Hdoc. unfold init. rewrite Hload, Hf. by destruct doc.
Qed.

Lemma class_map_file_document_witness :
  load_class_map map_files (VStr "maps/os.yaml")
  = Ok (os_class_map demo_generator).
Proof.
  refine (proj1 (proj1 (class_map_file_document map_files "site" "example.com"
                          "maps/os.yaml" VNone _) _ _ _ _));
    [discriminate|reflexivity|reflexivity].
Defined.

(** X20.  The constructor does not check what the map is: a map that is
    not a mapping (a list under [data], say) is accepted, and the builder
    then fails with [AttributeError] at the first host that it has to
    classify, that is at any record name with a dash other than
    [localhost]. *)
Theorem class_map_checked_at_first_host
    (files : string → fsnode) (site dom p : string) (d : dict) (m : value) :
  p ≠ "" → files p = Doc (VDict d) → lookup (KStr "data") d = Some m →
  is_dict m = false →
  ∃ self,
    init files site dom (VStr p) (VDict []) = Ok self ∧
    os_class_map self = m ∧
    ∀ hostname primary_group,
      hostname ≠ "localhost" → contains "-" hostname = true →
      classify self hostname primary_group = Raise AttributeError.
Proof.
  intros Hp Hf Hm Hdict.
  pose proof (load_class_map_path files p Hp) as Hload.
  rewrite Hf in Hload. simpl in Hload. rewrite Hm in Hload.
  eexists. unfold init. rewrite Hload. cbn [bind load_class_map truthy].
  split; [reflexivity|]. split; [reflexivity|].
  intros hostname primary_group Hl Hdash. unfold classify.
  apply String.eqb_neq in Hl. rewrite Hl.
  destruct (Nat.eqb_spec (length (split "-" hostname)) 1) as [Hlen|_].
  { apply split_length_one in Hlen. congruence. }
  pose proof (split_nonempty "-" hostname) as Hne.
  destruct (split "-" hostname) as [|w ws]; [done|].
  cbn [length Nat.ltb Nat.leb os_class_map]. by destruct m.
Qed.

Lemma class_map_checked_at_first_host_witness :
  ∃ self,
    init (λ _, Doc (VDict [(KStr "data", VList [VStr "lxr3"])])) "site"
      "example.com" (VStr "maps/os.yaml") (VDict []) = Ok self ∧
    classify self "lxr3-dck-01.example.com" "web" = Raise AttributeError.
Proof.
  destruct (class_map_checked_at_first_host
              (λ _, Doc (VDict [(KStr "data", VList [VStr "lxr3"])]))
              "site" "example.com" "maps/os.yaml"
              [(KStr "data", VList [VStr "lxr3"])] (VList [VStr "lxr3"]))
    as (self & Hinit & _ & Hcls); [discriminate|reflexivity..|].
  exists self. split; [exact Hinit|]. apply Hcls; [discriminate|reflexivity].
Defined.

(** ** The command line *)

(** X21.  From the command line a classification-map file is used whole:
    the mapping that the file holds becomes the map, its keys being taken
    for class codes, whereas the plugin option takes the [data] entry of
    the same file. *)
Theorem cli_class_map_file_used_whole
    (files : string → fsnode) (a : Cli.args) (d : dict) (g : InventoryGenerator) :
  Cli.os_class_map a ≠ "" →
  files (Cli.os_class_map a) = Doc (VDict d) → d ≠ [] →
  Cli.generator files a = Ok g →
  os_class_map g = VDict d ∧
  load_class_map files (VStr (Cli.os_class_map a))
  = Ok (default (VDict []) (lookup (KStr "data") d)).
Proof.
  intros Hp Hf Hd Hg. split.
  - unfold Cli.generator, Cli.class_map in Hg.
    apply String.eqb_neq in Hp. rewrite Hp in Hg. cbn [negb andb] in Hg.
    unfold is_file, read_yaml_file in Hg. rewrite Hf in Hg. cbn [bind] in Hg.
    match type of Hg with bind ?m _ = _ => destruct m as [sub|] end; [|done].
    cbn [bind] in Hg. unfold init, load_class_map at 1 in Hg.
    replace (truthy (VDict d)) with true in Hg by (by destruct d).
    cbn [bind] in Hg. destruct (load_class_map files sub); [|done].
    cbn [bind] in Hg. by inversion Hg.
  - rewrite load_class_map_path by done. by rewrite Hf.
Qed.

Lemma cli_class_map_file_used_whole_witness :
  ∃ g,
    Cli.generator map_files (demo_args "maps/os.yaml" "maps/sub.yaml") = Ok g ∧
    os_class_map g = VDict [(KStr "data", os_class_map demo_generator)].
Proof.
  eexists. split; [reflexivity|].
  refine (proj1 (cli_class_map_file_used_whole map_files
                   (demo_args "maps/os.yaml" "maps/sub.yaml")
                   [(KStr "data", os_class_map demo_generator)] _ _ _ _ _));
    [discriminate|reflexivity|discriminate|reflexivity].
Defined.

(** X22.  On the command line the sub-group map depends on the OS-class
    argument: the test that guards the reading of the sub-group file is
    on [args.os_class_map], so with an empty [--os-class-map] the file
    given as [--sub-group-map] is not read and both maps are empty. *)
Theorem cli_sub_group_map_needs_os_class_map
    (files : string → fsnode) (a : Cli.args) :
  Cli.os_class_map a = "" →
  Cli.generator files a
  = Ok {| site_directory := as_posix (Cli.site_directory a);
          site_definitions_directory :=
            joinpath (Cli.site_directory a) "definitions";
          environment_domain := Cli.environment_domain a;
          os_class_map := VDict [];
          sub_group_map := VDict [] |}.
Proof.
  intros Hos. unfold Cli.generator, Cli.class_map. by rewrite Hos.
Qed.

Lemma cli_sub_group_map_needs_os_class_map_witness :
  sub_group_map <$>
    (match Cli.generator map_files (demo_args "" "maps/sub.yaml") with
     | Ok g => Some g
     | Raise _ => None
     end)
  = Some (VDict []).
Proof.
  by rewrite (cli_sub_group_map_needs_os_class_map map_files
                (demo_args "" "maps/sub.yaml") eq_refl).
Defined.

(** ** The Ansible adapter *)

Section Adapter.
Context {S : Type} `{Ansible.InventoryData S}.
Variable host_data : inventory.

Lemma expected_bind {A B} (m : Ansible.M S A) (f : A → Ansible.M S B) s :
  expected host_data (m s) →
  (∀ x s', m s = Ansible.Done (x, s') → expected host_data (f x s')) →
  expected host_data ((m ≫= f) s).
Proof.
  unfold mbind, Ansible.M_bind. intros Hm Hf.
  destruct (m s) as [[x s']|e]; [by apply Hf|done].
Qed.

Lemma expected_lift {A} (x : A) s :
  expected host_data (Ansible.lift (S := S) (Ok x) s).
Proof. done. Qed.

Lemma lift_done {A} (r : result A) s x s' :
  Ansible.lift (S := S) r s = Ansible.Done (x, s') → r = Ok x.
Proof. unfold Ansible.lift. destruct r; [|done]. by intros [= -> _]. Qed.

Lemma expected_add_group group s :
  expected host_data (Ansible.invoke (Ansible.add_group group) s).
Proof.
  unfold Ansible.invoke. destruct (Ansible.add_group group s) eqn:E; [done|].
  left. by exists group, s.
Qed.

Lemma expected_add_host host s :
  expected host_data (Ansible.invoke (Ansible.add_host host) s).
Proof.
  unfold Ansible.invoke. destruct (Ansible.add_host host s) eqn:E; [done|].
  right. left. by exists host, s.
Qed.

Lemma expected_add_child group child s :
  expected host_data (Ansible.invoke (Ansible.add_child group child) s).
Proof.
  unfold Ansible.invoke.
  destruct (Ansible.add_child group child s) eqn:E; [done|].
  right. right. left. by exists group, child, s.
Qed.

Lemma expected_set_variable entity varname v s :
  expected host_data (Ansible.invoke (Ansible.set_variable entity varname v) s).
Proof.
  unfold Ansible.invoke.
  destruct (Ansible.set_variable entity varname v s) eqn:E; [done|].
  right. right. right. by exists entity, varname, v, s.
Qed.

Lemma expected_add_to_groups (root host : value) : ∀ groups s,
  expected host_data (Ansible.add_to_groups root host groups s).
Proof.
  induction groups as [|group groups IH]; intros s;
    cbn [Ansible.add_to_groups]; [done|].
  apply expected_bind; [apply expected_add_group|]. intros name s1 _.
  apply expected_bind; [apply expected_add_child|]. intros [] s2 _.
  apply expected_bind; [apply expected_add_child|]. intros [] s3 _.
  apply IH.
Qed.

Lemma expected_set_variables (hostname : value) : ∀ items s,
  expected host_data (Ansible.set_variables hostname items s).
Proof.
  induction items as [|[k v] items IH]; intros s;
    cbn [Ansible.set_variables]; [done|].
  apply expected_bind; [apply expected_set_variable|]. intros [] s1 _.
  apply IH.
Qed.

(** One host whose record has the three fields that the adapter reads. *)
Lemma expected_parse_host (root hostname : value)
    (k : key) (rec : dict) (pg : value) (subs oss : list value) s :
  value_key hostname = Ok k →
  lookup k (hostvars host_data) = Some rec →
  lookup (KStr "primary_group") rec = Some pg →
  lookup (KStr "sub_groups") rec = Some (VList subs) →
  lookup (KStr "os_classes") rec = Some (VList oss) →
  expected host_data (Ansible.parse_host host_data root hostname s).
Proof.
  intros Hk Hrec Hpg Hsub Hos. unfold Ansible.parse_host, Ansible.item.
  rewrite Hk. apply expected_bind; [done|]. intros k' s1 [= <-]%lift_done.
  rewrite Hrec. apply expected_bind; [done|].
  intros rec' s2 [= <-]%lift_done.
  apply expected_bind; [apply expected_add_host|]. intros obj s3 _.
  rewrite Hpg. apply expected_bind; [done|]. intros pg' s4 [= <-]%lift_done.
  apply expected_bind; [apply expected_add_group|]. intros name s5 _.
  apply expected_bind; [apply expected_add_child|]. intros [] s6 _.
  apply expected_bind; [apply expected_add_child|]. intros [] s7 _.
  rewrite Hsub. apply expected_bind; [done|].
  intros sub' s8 [= <-]%lift_done.
  apply expected_bind; [done|]. intros subs' s9 _.
  apply expected_bind; [apply expected_add_to_groups|]. intros [] s10 _.
  rewrite Hos. apply expected_bind; [done|]. intros os' s11 [= <-]%lift_done.
  apply expected_bind; [done|]. intros oss' s12 _.
  apply expected_bind; [apply expected_add_to_groups|]. intros [] s13 _.
  apply expected_bind.
  - destruct (iterate (default (VList [])
                         (lookup (KStr "extra_host_groups") rec)))
      as [extra|e] eqn:Hextra; [done|].
    assert (e = TypeError) as ->.
    { destruct (default _ _); simpl in Hextra; congruence. }
    split; [done|]. by exists k, rec.
  - intros extra s14 _.
    apply expected_bind; [apply expected_add_to_groups|]. intros [] s15 _.
    apply expected_set_variables.
Qed.

Lemma expected_parse_hosts (root : value) : ∀ hosts s,
  Forall (λ name, ∃ k rec pg subs oss,
            value_key name = Ok k ∧
            lookup k (hostvars host_data) = Some rec ∧
            lookup (KStr "primary_group") rec = Some (VStr pg) ∧
            lookup (KStr "sub_groups") rec = Some (VList subs) ∧
            lookup (KStr "os_classes") rec = Some (VList oss)) hosts →
  expected host_data (Ansible.parse_hosts host_data root hosts s).
Proof.
  induction hosts as [|name hosts IH]; intros s Hall;
    cbn [Ansible.parse_hosts]; [done|].
  apply Forall_cons in Hall as [Hname Hall].
  destruct Hname as (k & rec & pg & subs & oss & Hk & Hrec & Hpg & Hsub & Hos).
  apply expected_bind; [by eapply expected_parse_host|]. intros [] s1 _.
  by apply IH.
Qed.
End Adapter.

(** The fields that the adapter reads are in every record. *)
Lemma host_record_fields files cstr self r rec :
  host_record files cstr self r = Ok (Some rec) →
  ∃ pg subs oss,
    lookup (KStr "primary_group") rec = Some (VStr pg) ∧
    lookup (KStr "sub_groups") rec = Some (VList subs) ∧
    lookup (KStr "os_classes") rec = Some (VList oss).
Proof.
  destruct r as [[r0 r1] r2]. intros Hrec.
  apply host_record_inv in Hrec
    as (doc & vars & short & cls & _ & _ & _ & Hcls & ->).
  apply classify_fields in Hcls as ([oss Hos] & [subs Hsub] & Hpg & _).
  eexists _, subs, oss. split_and!.
  - apply lookup_record_kept; [|done..]. rewrite lookup_base_fields by done.
    exact Hpg.
  - by apply lookup_record_field.
  - by apply lookup_record_field.
Qed.

(** X23.  The adapter finds what it reads: for every host that
    [generate_inventory] lists, the record of the host is in [hostvars]
    and has [primary_group], a string, and [sub_groups] and
    [os_classes], two lists.  The statements of the loop of [parse] over
    the listed hosts therefore raise no [KeyError]: with any inventory,
    the loop ends, or a call of the inventory raises, or a definition
    file declares [extra_host_groups] as something that cannot be
    iterated, which raises [TypeError]. *)
Theorem parse_finds_every_field
    {S : Type} `{Ansible.InventoryData S}
    (files : string → fsnode) (ls : string → list string)
    (cstr : value → string) (self : InventoryGenerator)
    (out : inventory) :
  generate_inventory files ls cstr self None [] = Ok out →
  (∀ name, name ∈ all_hosts out →
     ∃ k rec pg subs oss,
       value_key name = Ok k ∧
       lookup k (hostvars out) = Some rec ∧
       lookup (KStr "primary_group") rec = Some (VStr pg) ∧
       lookup (KStr "sub_groups") rec = Some (VList subs) ∧
       lookup (KStr "os_classes") rec = Some (VList oss)) ∧
  ∀ (root : value) (s : S),
    match Ansible.parse_hosts out root (all_hosts out) s with
    | Ansible.Done _ => True
    | Ansible.Failed Ansible.InventoryError =>
        (∃ group s', Ansible.add_group group s' = None) ∨
        (∃ host s', Ansible.add_host host s' = None) ∨
        (∃ group child s', Ansible.add_child group child s' = None) ∨
        (∃ entity varname v s',
           Ansible.set_variable entity varname v s' = None)
    | Ansible.Failed (Ansible.Python e) =>
        e = TypeError ∧
        ∃ k rec,
          lookup k (hostvars out) = Some rec ∧
          iterate (default (VList []) (lookup (KStr "extra_host_groups") rec))
          = Raise TypeError
    end.
Proof.
  intros Hinv.
  assert (∀ name, name ∈ all_hosts out →
            ∃ k rec pg subs oss,
              value_key name = Ok k ∧
              lookup k (hostvars out) = Some rec ∧
              lookup (KStr "primary_group") rec = Some (VStr pg) ∧
              lookup (KStr "sub_groups") rec = Some (VList subs) ∧
              lookup (KStr "os_classes") rec = Some (VList oss)) as Hall.
  { apply generate_inventory_inv in Hinv as (host_data & Hrecs & Hadd).
    pose proof (add_hosts_all_hosts _ _ _ Hadd) as Hnames. simpl in Hnames.
    pose proof (add_hosts_hashable _ _ _ Hadd) as Hhash.
    rewrite <- Hnames in Hhash. intros name Hname.
    destruct (proj1 (Forall_forall _ _) Hhash name Hname) as [k Hk].
    pose proof (add_hosts_hostvars _ _ _ k Hadd) as Hvars. simpl in Hvars.
    assert (∃ rec, last (registered k host_data) = Some rec) as [rec Hlast].
    { rewrite Hnames in Hname.
      apply list_elem_of_In, in_concat in Hname as (names & Hin & Hn).
      apply in_map_iff in Hin as (r & <- & Hr).
      destruct (last (registered k host_data)) as [rec|] eqn:Hlast;
        [by exists rec|].
      apply last_None in Hlast.
      assert (r ∈ registered k host_data) as Hreg.
      { apply list_elem_of_filter. split; [|by apply list_elem_of_In].
        apply Is_true_true, existsb_exists. exists name. split; [done|].
        unfold named. rewrite Hk. apply key_eqb_refl. }
      rewrite Hlast in Hreg. by apply elem_of_nil in Hreg. }
    rewrite Hlast in Hvars.
    apply last_Some_elem_of, list_elem_of_filter in Hlast as [_ Hin].
    destruct (host_records_elem _ _ _ _ _ _ _ Hrecs Hin) as (r & _ & Hrec).
    apply host_record_fields in Hrec as (pg & subs & oss & ? & ? & ?).
    by exists k, rec, pg, subs, oss. }
  split; [exact Hall|]. intros root s.
  by apply (expected_parse_hosts out root (all_hosts out) s),
    Forall_forall.
Qed.

Lemma parse_finds_every_field_witness :
  ∃ out,
    generate_inventory (demo_files numeric_alias) demo_ls (λ _, "")
      demo_generator None [] = Ok out ∧
    VInt 7 ∈ all_hosts out ∧
    (∀ name, name ∈ all_hosts out →
       ∃ k rec pg subs oss,
         value_key name = Ok k ∧
         lookup k (hostvars out) = Some rec ∧
         lookup (KStr "primary_group") rec = Some (VStr pg) ∧
         lookup (KStr "sub_groups") rec = Some (VList subs) ∧
         lookup (KStr "os_classes") rec = Some (VList oss)) ∧
    Ansible.parse_hosts (S := list call) out (VStr "site") (all_hosts out) []
    = Ansible.Failed Ansible.InventoryError.
Proof.
  eexists. split; [reflexivity|]. split; [left|].
  split; [|reflexivity].
  refine (proj1 (parse_finds_every_field (S := list call)
                   (demo_files numeric_alias) demo_ls (λ _, "")
                   demo_generator _ _)).
  reflexivity.
Defined.
